(** * BallotDApp: the event indexer and its read model

    A shallow embedding of the backend of the Ballot dApp:
    - [backend/src/indexer/indexer.service.ts]: retry wrapper, sync cursor,
      catch-up pass, log decoder and read-model projection;
    - [backend/src/stats/stats.service.ts]: the [/stats] query;
    - the indexer controller: the [limit] parameter of [GET /events].

    The PostgreSQL tables reached through Prisma are finite maps, the RPC
    endpoint is a script of outcomes, and JavaScript numbers are IEEE 754
    binary64 values ([spec_float] of the Standard Library at precision 53).
    A run is a sequence of observable steps (requests, sleeps, store
    writes): passes are studied run one after the other, cut short after any
    number of steps, and, for the cursor, overlapped. *)

From Stdlib Require Import ZArith Zpower String Ascii List Lia.
From Stdlib Require Import Floats.SpecFloat.
From Stdlib Require Import DecimalString DecimalPos DecimalN.
From Stdlib Require DecimalFacts.
From stdpp Require Import gmap strings.

Local Open Scope string_scope.
Local Open Scope Z_scope.
Local Open Scope list_scope.

(** ** JavaScript primitives used by the services *)

Module JS.

(** A JavaScript [number] is a binary64 float. *)
Definition number : Type := spec_float.

Definition prec : Z := 53.
Definition emax : Z := 1024.

Definition nan : number := S754_nan.
Definition of_Z (z : Z) : number := binary_normalize prec emax z 0 false.
Definition zero : number := S754_zero false.
Definition one : number := of_Z 1.

Definition add (x y : number) : number := SFadd prec emax x y.
Definition div (x y : number) : number := SFdiv prec emax x y.

(** [Number.isFinite] and [Number.isNaN]. *)
Definition isFinite (x : number) : bool :=
  match x with
  | S754_zero _ | S754_finite _ _ _ => true
  | S754_infinity _ | S754_nan => false
  end.

Definition isNaN (x : number) : bool :=
  match x with S754_nan => true | _ => false end.

#[global] Instance number_eq_dec : EqDecision number.
Proof. solve_decision. Defined.

(** [spec_float] is countable, so that a number can key a [gmap]. *)
Definition number_code (x : number) : bool + bool + unit + bool * positive * Z :=
  match x with
  | S754_zero s => inl (inl (inl s))
  | S754_infinity s => inl (inl (inr s))
  | S754_nan => inl (inr tt)
  | S754_finite s m e => inr (s, m, e)
  end.

Definition number_decode (c : bool + bool + unit + bool * positive * Z) : number :=
  match c with
  | inl (inl (inl s)) => S754_zero s
  | inl (inl (inr s)) => S754_infinity s
  | inl (inr _) => S754_nan
  | inr (s, m, e) => S754_finite s m e
  end.

#[global] Instance number_countable : Countable number.
Proof.
  apply (inj_countable' number_code number_decode).
  intros x; destruct x; reflexivity.
Defined.

(** *** Decimal text to number

    The real number [m * 10^e] rounded to the nearest binary64 value, ties
    to even: an exact integer is normalised, a fraction is a correctly
    rounded division of two integers. *)
Definition of_decimal (neg : bool) (m e : Z) : number :=
  match m with
  | Zpos p =>
      if 0 <=? e
      then binary_normalize prec emax (cond_Zopp neg (Zpos p * 10 ^ e)) 0 neg
      else SFdiv prec emax (S754_finite neg p 0)
                           (S754_finite false (Z.to_pos (10 ^ (- e))) 0)
  | _ => S754_zero neg
  end.

(** White space and line terminators ([StrWhiteSpaceChar], ECMA-262
    7.1.4.1). A string is the UTF-8 encoding of the JavaScript text: the
    ASCII spaces are single bytes, the other Unicode spaces take two or
    three bytes. *)
Definition is_ws (c : ascii) : bool :=
  let n := N_of_ascii c in
  ((9 <=? n) && (n <=? 13) || (n =? 32))%N.

(** U+00A0, the no-break space. *)
Definition is_ws2 (c1 c2 : ascii) : bool :=
  ((N_of_ascii c1 =? 194) && (N_of_ascii c2 =? 160))%N.

(** U+1680, U+2000 to U+200A, U+2028, U+2029, U+202F, U+205F, U+3000 and
    U+FEFF. *)
Definition is_ws3 (c1 c2 c3 : ascii) : bool :=
  let a := N_of_ascii c1 in
  let b := N_of_ascii c2 in
  let c := N_of_ascii c3 in
  ((a =? 225) && (b =? 154) && (c =? 128) ||
   (a =? 226) && (b =? 128) &&
     ((128 <=? c) && (c <=? 138) || (c =? 168) || (c =? 169) || (c =? 175)) ||
   (a =? 226) && (b =? 129) && (c =? 159) ||
   (a =? 227) && (b =? 128) && (c =? 128) ||
   (a =? 239) && (b =? 187) && (c =? 191))%N.

Fixpoint skip_ws (l : list ascii) : list ascii :=
  match l with
  | c1 :: l1 =>
      if is_ws c1 then skip_ws l1
      else match l1 with
           | c2 :: l2 =>
               if is_ws2 c1 c2 then skip_ws l2
               else match l2 with
                    | c3 :: l3 => if is_ws3 c1 c2 c3 then skip_ws l3 else l
                    | [] => l
                    end
           | [] => l
           end
  | [] => []
  end.

(** The same from the end of the text, on the reversed list of bytes. *)
Fixpoint skip_ws_back (l : list ascii) : list ascii :=
  match l with
  | c1 :: l1 =>
      if is_ws c1 then skip_ws_back l1
      else match l1 with
           | c2 :: l2 =>
               if is_ws2 c2 c1 then skip_ws_back l2
               else match l2 with
                    | c3 :: l3 => if is_ws3 c3 c2 c1 then skip_ws_back l3 else l
                    | [] => l
                    end
           | [] => l
           end
  | [] => []
  end.

Definition trim (l : list ascii) : list ascii :=
  rev (skip_ws_back (rev (skip_ws l))).

(** *** [StringToNumber] (ECMA-262, 7.1.4.1.1) *)

Definition digit_of (base : Z) (c : ascii) : option Z :=
  let n := Z.of_N (N_of_ascii c) in
  let v := if (48 <=? n) && (n <=? 57) then n - 48
           else if (97 <=? n) && (n <=? 102) then n - 87
           else if (65 <=? n) && (n <=? 70) then n - 55
           else 16 in
  if v <? base then Some v else None.

(** Reads the longest run of digits; returns the accumulated value, the
    number of digits read and the rest of the input. *)
Fixpoint read_digits (base : Z) (l : list ascii) (acc cnt : Z)
  : Z * Z * list ascii :=
  match l with
  | c :: l' =>
      match digit_of base c with
      | Some d => read_digits base l' (acc * base + d) (cnt + 1)
      | None => (acc, cnt, l)
      end
  | [] => (acc, cnt, [])
  end.

Definition radix_literal (base : Z) (l : list ascii) : number :=
  let '(v, n, rest) := read_digits base l 0 0 in
  match rest with
  | [] => if 0 <? n then of_Z v else nan
  | _ :: _ => nan
  end.

Definition read_sign (l : list ascii) : bool * list ascii :=
  match l with
  | "-"%char :: l' => (true, l')
  | "+"%char :: l' => (false, l')
  | _ => (false, l)
  end.

Definition read_exponent (l : list ascii) : option Z :=
  match l with
  | [] => Some 0
  | c :: l' =>
      if Ascii.eqb c "e" || Ascii.eqb c "E" then
        let '(neg, l'') := read_sign l' in
        let '(v, n, rest) := read_digits 10 l'' 0 0 in
        match rest with
        | [] => if 0 <? n then Some (cond_Zopp neg v) else None
        | _ :: _ => None
        end
      else None
  end.

Definition decimal_literal (neg : bool) (l : list ascii) : number :=
  let '(ip, ni, r1) := read_digits 10 l 0 0 in
  let '(m, nf, r2) :=
    match r1 with
    | "."%char :: r => read_digits 10 r ip 0
    | _ => (ip, 0, r1)
    end in
  if ni + nf =? 0 then nan
  else match read_exponent r2 with
       | Some ex => of_decimal neg m (ex - nf)
       | None => nan
       end.

Definition StringToNumber (s : string) : number :=
  let t := trim (list_ascii_of_string s) in
  match t with
  | [] => zero
  | "0"%char :: ("x" | "X")%char :: r => radix_literal 16 r
  | "0"%char :: ("o" | "O")%char :: r => radix_literal 8 r
  | "0"%char :: ("b" | "B")%char :: r => radix_literal 2 r
  | _ =>
      let '(neg, r) := read_sign t in
      if bool_decide (r = list_ascii_of_string "Infinity")
      then S754_infinity neg
      else decimal_literal neg r
  end.

(** *** [Number::toString] in radix 10 (ECMA-262, 6.1.6.1.20) *)

Definition digits (z : Z) : string :=
  NilZero.string_of_uint (N.to_uint (Z.to_N z)).

Fixpoint zeros (n : nat) : string :=
  match n with
  | O => ""
  | S n' => String "0" (zeros n')
  end.

(** [x * 10^t] for the fraction [x = num / den], again as a fraction. *)
Definition scale10 (num den t : Z) : Z * Z :=
  if 0 <=? t then (num * 10 ^ t, den) else (num, den * 10 ^ (- t)).

Fixpoint first_scale (fuel : nat) (num den j : Z) : Z :=
  match fuel with
  | O => j
  | S f => if den <=? num * 10 ^ j then j else first_scale f num den (j + 1)
  end.

(** The [n] with [10^(n-1) <= num/den < 10^n]. *)
Definition dec_exponent (num den : Z) : Z :=
  let ip := num / den in
  if 0 <? ip then Z.of_nat (String.length (digits ip))
  else 1 - first_scale 400 num den 1.

(** The shortest digit string [s] (with its exponent [n]) whose value
    [s * 10^(n-k)] reads back as [x]; of two candidates the closer one. *)
Fixpoint shortest (fuel : nat) (x : number) (num den n0 k : Z) : Z * Z :=
  let t := k - n0 in
  let '(a, b) := scale10 num den t in
  let lo := a / b in
  let hi := lo + 1 in
  let up := if hi =? 10 ^ k then (1, n0 + 1) else (hi, n0) in
  let lo_ok := bool_decide (of_decimal false lo (- t) = x) in
  let hi_ok := bool_decide (of_decimal false hi (- t) = x) in
  match fuel with
  | O => (lo, n0)
  | S f =>
      if lo_ok && hi_ok then (if 2 * a <=? (lo + hi) * b then (lo, n0) else up)
      else if lo_ok then (lo, n0)
      else if hi_ok then up
      else shortest f x num den n0 (k + 1)
  end.

Definition format_digits (s n : Z) : string :=
  let ds := digits s in
  let k := Z.of_nat (String.length ds) in
  if (k <=? n) && (n <=? 21) then ds +:+ zeros (Z.to_nat (n - k))
  else if (0 <? n) && (n <=? 21) then
    substring 0 (Z.to_nat n) ds +:+ "." +:+
    substring (Z.to_nat n) (Z.to_nat (k - n)) ds
  else if (-6 <? n) && (n <=? 0) then "0." +:+ zeros (Z.to_nat (- n)) +:+ ds
  else
    let e := n - 1 in
    let es := (if e <? 0 then "-" else "+") +:+ digits (Z.abs e) in
    if k =? 1 then ds +:+ "e" +:+ es
    else substring 0 1 ds +:+ "." +:+
         substring 1 (Z.to_nat (k - 1)) ds +:+ "e" +:+ es.

Definition fraction_of (m : positive) (e : Z) : Z * Z :=
  if 0 <=? e then (Zpos m * 2 ^ e, 1) else (Zpos m, 2 ^ (- e)).

Definition toString (x : number) : string :=
  match x with
  | S754_nan => "NaN"
  | S754_zero _ => "0"
  | S754_infinity s => if s then "-Infinity" else "Infinity"
  | S754_finite s m e =>
      let '(num, den) := fraction_of m e in
      let '(d, n) :=
        shortest 17 (S754_finite false m e) num den (dec_exponent num den) 1 in
      (if s then "-" else "") +:+ format_digits d n
  end.

(** [Number(v)] for a string, and for [undefined]. *)
Definition Number_of (v : option string) : number :=
  match v with
  | Some s => StringToNumber s
  | None => nan
  end.

(** *** [Number.prototype.toFixed] (ECMA-262, 21.1.3.3) *)

Definition ltb (x y : number) : bool := SFltb x y.

(** The integer closest to [num / den * scale], the larger one on a tie. *)
Definition round_half_up (num den scale : Z) : Z :=
  (2 * num * scale + den) / (2 * den).

(** The digits of [n] with a point before the last [f] of them. *)
Definition fixed_text (neg : bool) (n : Z) (f : nat) : string :=
  let ds := digits n in
  let k := String.length ds in
  let ds' := if (k <=? f)%nat then zeros (f + 1 - k) +:+ ds else ds in
  let k' := String.length ds' in
  (if neg then "-" else "") +:+
  (if Nat.eqb f 0 then ds'
   else substring 0 (k' - f) ds' +:+ "." +:+ substring (k' - f) f ds').

Definition toFixed (x : number) (f : nat) : string :=
  match x with
  | S754_nan | S754_infinity _ => toString x
  | S754_zero _ => fixed_text false 0 f
  | S754_finite s m e =>
      if ltb (S754_finite false m e) (of_decimal false 1 21) then
        let '(num, den) := fraction_of m e in
        fixed_text s (round_half_up num den (10 ^ Z.of_nat f)) f
      else toString x
  end.

(** *** Strings *)

(** [String.prototype.toLowerCase] on ASCII text (addresses are ASCII). *)
Definition lower_char (c : ascii) : ascii :=
  let n := N_of_ascii c in
  if ((65 <=? n) && (n <=? 90))%N then ascii_of_N (n + 32) else c.

Fixpoint toLowerCase (s : string) : string :=
  match s with
  | EmptyString => EmptyString
  | String c s' => String (lower_char c) (toLowerCase s')
  end.

(** [String.prototype.includes]. *)
Fixpoint includes (s needle : string) : bool :=
  String.prefix needle s ||
  match s with
  | EmptyString => false
  | String _ s' => includes s' needle
  end.

End JS.

Import JS.

(** ** Errors

    A thrown JavaScript value, as far as the services inspect it: [e.code],
    [e.message] and the nested [e.error.code], [e.error.message] that ethers
    attaches for a JSON-RPC failure. Prisma reports a unique-constraint
    violation as [e.code = "P2002"]. A message, when there is one, is text,
    as in the errors of ethers and of JSON-RPC endpoints: with a truthy
    message of another type [msg.includes] is not a function and
    [isRateLimitError] itself throws, a case that this type leaves out. *)

Inductive CodeValue :=
| CodeNum (n : Z)
| CodeStr (s : string).

Record ErrorInfo := {
  code : option CodeValue;
  message : option string
}.

Record JsError := {
  error : option ErrorInfo;   (* e.error *)
  own : ErrorInfo             (* e.code, e.message *)
}.

#[global] Instance CodeValue_eq_dec : EqDecision CodeValue.
Proof. solve_decision. Defined.

(** JavaScript truthiness of a code and of a message. *)
Definition truthy_code (c : option CodeValue) : bool :=
  match c with
  | Some (CodeNum n) => negb (n =? 0)
  | Some (CodeStr s) => negb (bool_decide (s = ""))
  | None => false
  end.

Definition truthy_text (m : option string) : bool :=
  match m with
  | Some s => negb (bool_decide (s = ""))
  | None => false
  end.

(** [isRateLimitError], lines 180-184. *)
Definition isRateLimitError (e : JsError) : bool :=
  let inner_code := error e ≫= code in
  let code := if truthy_code inner_code then inner_code else code (own e) in
  let inner_msg := error e ≫= message in
  let msg := if truthy_text inner_msg then inner_msg
             else if truthy_text (message (own e)) then message (own e)
             else Some "" in
  bool_decide (code = Some (CodeNum 429)) ||
  match msg with
  | Some m => includes m "compute units per second"
  | None => false
  end.

(** ** Ethers logs *)

(** The Ballot ABI has only [address] and unsigned-integer event parameters:
    ethers decodes the former as a string and the latter as a [bigint]. *)
Inductive ArgValue :=
| ArgBigInt (z : Z)
| ArgText (s : string).

(** The outcome of [contract.interface.parseLog]. *)
Inductive ParseOutcome :=
| ParseThrows
| ParseNull
| Parsed (name : string) (args : list (string * ArgValue)).

(** An [EventLog] (already decoded: it has [fragment] and [args]) or a plain
    [Log] with topics and data. *)
Inductive LogBody :=
| EventLog (fragment_name : option string)
           (args : option (list (string * ArgValue)))
| RawLog (topics : list string) (data : string).

Record Log := {
  blockNumber : Z;
  blockHash : string;
  transactionHash : string;
  index : Z;
  body : LogBody
}.

(** The decoded arguments: named fields, and the [__positional] array (a
    sparse array, present when it has at least one element). *)
Record ArgsJson := {
  named : gmap string string;
  positional : gmap N string
}.

Definition no_args : ArgsJson := {| named := ∅; positional := ∅ |}.

(** ** Tables (the rows of this service's chain id and contract address) *)

(** Modelled from the spec: the Prisma schema ([schema.prisma]) is not among
    the sources. Each row has the fields the services write and read
    (section 3 of the specification): numeric columns filled from a
    JavaScript number hold that number, the counters changed by
    [{ increment: 1 }] and the block numbers are integers, and [voteCount]
    is text. *)

Record BallotSnapshot := {
  lastIndexedBlock : Z;
  stage : number;
  totalVoters : Z;
  totalVotes : Z;
  winnerComputed : bool;
  winningProposalId : number
}.

Record Voter := {
  weight : number;
  hasVoted : bool;
  registeredAtBlock : option Z;
  lastUpdatedBlock : Z
}.

Record Vote := {
  vote_proposalId : number;
  vote_weight : number;
  vote_txHash : string;
  vote_blockNumber : Z
}.

Record Proposal := {
  name : string;
  voteCount : string
}.

Record OnChainEvent := {
  ev_blockNumber : Z;
  ev_blockHash : string;
  eventName : string;
  argsJson : ArgsJson
}.

(** Modelled from the spec: the unique keys of the schema. [onChainEvent]
    is keyed by its unique constraint (txHash, logIndex), [voter] and [vote]
    by the lower-cased voter address, [proposal] by the proposal id. *)
Record Db := {
  contractSyncState : option Z;     (* lastProcessedBlock *)
  onChainEvent : gmap (string * Z) OnChainEvent;
  ballotSnapshot : option BallotSnapshot;
  voter : gmap string Voter;
  vote : gmap string Vote;
  proposal : gmap number Proposal
}.

Definition empty_db : Db :=
  {| contractSyncState := None; onChainEvent := ∅; ballotSnapshot := None;
     voter := ∅; vote := ∅; proposal := ∅ |}.

Definition set_contractSyncState (c : option Z) (d : Db) : Db :=
  {| contractSyncState := c; onChainEvent := onChainEvent d;
     ballotSnapshot := ballotSnapshot d; voter := voter d; vote := vote d;
     proposal := proposal d |}.

Definition set_onChainEvent (m : gmap (string * Z) OnChainEvent) (d : Db) : Db :=
  {| contractSyncState := contractSyncState d; onChainEvent := m;
     ballotSnapshot := ballotSnapshot d; voter := voter d; vote := vote d;
     proposal := proposal d |}.

Definition set_ballotSnapshot (s : option BallotSnapshot) (d : Db) : Db :=
  {| contractSyncState := contractSyncState d; onChainEvent := onChainEvent d;
     ballotSnapshot := s; voter := voter d; vote := vote d;
     proposal := proposal d |}.

Definition set_voter (m : gmap string Voter) (d : Db) : Db :=
  {| contractSyncState := contractSyncState d; onChainEvent := onChainEvent d;
     ballotSnapshot := ballotSnapshot d; voter := m; vote := vote d;
     proposal := proposal d |}.

Definition set_vote (m : gmap string Vote) (d : Db) : Db :=
  {| contractSyncState := contractSyncState d; onChainEvent := onChainEvent d;
     ballotSnapshot := ballotSnapshot d; voter := voter d; vote := m;
     proposal := proposal d |}.

Definition set_proposal (m : gmap number Proposal) (d : Db) : Db :=
  {| contractSyncState := contractSyncState d; onChainEvent := onChainEvent d;
     ballotSnapshot := ballotSnapshot d; voter := voter d; vote := vote d;
     proposal := m |}.

(** ** The world of a run: the database, the number of RPC calls made so
    far, and what an outside observer can see, oldest first. *)

Inductive Request :=
| ReqBlockNumber                       (* provider.getBlockNumber() *)
| ReqLogs (fromBlock toBlock : Z).     (* contract.queryFilter("*", from, to) *)

Inductive Obs :=
| Called (r : Request)   (* one RPC request was sent *)
| Slept (ms : Z)         (* [sleep(ms)] *)
| Wrote (d : Db).        (* the database after a completed write *)

Record World := {
  db : Db;
  rpc_calls : nat;
  trace : list Obs
}.

Inductive result (A : Type) :=
| Ok (a : A)
| Throw (e : JsError)
| OutOfFuel.              (* the loop did not finish *)

Arguments Ok {A} a.
Arguments Throw {A} e.
Arguments OutOfFuel {A}.

Definition M (A : Type) : Type := World → World * result A.

Definition ret {A} (a : A) : M A := fun w => (w, Ok a).

Definition bind {A B} (m : M A) (k : A → M B) : M B :=
  fun w =>
    match m w with
    | (w', Ok a) => k a w'
    | (w', Throw e) => (w', Throw e)
    | (w', OutOfFuel) => (w', OutOfFuel)
    end.

Notation "'let!' x ':=' m 'in' k" := (bind m (fun x => k))
  (at level 10, x name, m at level 100, k at level 200).
Notation "'do!' m 'in' k" := (bind m (fun _ => k))
  (at level 10, m at level 100, k at level 200).

Definition throw {A} (e : JsError) : M A := fun w => (w, Throw e).

(** [try { m } catch (e) { h e }]. *)
Definition catch {A} (m : M A) (h : JsError → M A) : M A :=
  fun w =>
    match m w with
    | (w', Throw e) => h e w'
    | r => r
    end.

Definition observe (o : Obs) (w : World) : World :=
  {| db := db w; rpc_calls := rpc_calls w; trace := trace w ++ [o] |}.

Definition sleep (ms : Z) : M unit := fun w => (observe (Slept ms) w, Ok tt).

(** A store write: the new database becomes visible to every reader. The
    store answers every call here; a call that it rejects ends the pass
    where it stands, and [stopped] below is the world that this leaves. *)
Definition write (f : Db → Db) : M unit :=
  fun w =>
    let d := f (db w) in
    ({| db := d; rpc_calls := rpc_calls w; trace := trace w ++ [Wrote d] |},
     Ok tt).

(** The RPC endpoint: the outcome of the [n]-th request sent to it. *)
Record Chain := {
  getBlockNumber : nat → JsError + Z;
  queryFilter : nat → Z → Z → JsError + list Log
}.

Definition rpc {A} (r : Request) (outcome : nat → JsError + A) : M A :=
  fun w =>
    let w' := {| db := db w; rpc_calls := S (rpc_calls w);
                 trace := trace w ++ [Called r] |} in
    match outcome (rpc_calls w) with
    | inr a => (w', Ok a)
    | inl e => (w', Throw e)
    end.

(** ** The indexer service *)

(** The knobs read from the environment. Block numbers, counts and
    milliseconds are integers far below 2^53, where JavaScript arithmetic
    is exact: they are integers here. *)
Record Config := {
  MAX_LOG_BLOCK_RANGE : Z;
  CONFIRMATIONS : Z;
  RPC_THROTTLE_MS : Z;
  RPC_MAX_RETRIES : Z;
  RPC_BACKOFF_BASE_MS : Z;
  RPC_BACKOFF_CAP_MS : Z;
  DEPLOYMENT_BLOCK : Z
}.

Section Indexer.

Variable cfg : Config.
Variable chain : Chain.
Variable parseLog : list string → string → ParseOutcome.

(** [withRetry], lines 186-210. The loop runs at most [RPC_MAX_RETRIES]
    retries, which is the fuel it is given. *)
Definition waitMs (attempt : Z) : Z :=
  Z.min (RPC_BACKOFF_BASE_MS cfg * 2 ^ attempt) (RPC_BACKOFF_CAP_MS cfg).

Fixpoint withRetry_loop {T} (fuel : nat) (fn : M T) (attempt : Z) : M T :=
  fun w =>
    match fn w with
    | (w', Throw e) =>
        if negb (isRateLimitError e) || (RPC_MAX_RETRIES cfg <=? attempt)
        then (w', Throw e)
        else match fuel with
             | O => (w', OutOfFuel)
             | S fuel' =>
                 (do! sleep (waitMs attempt) in
                  withRetry_loop fuel' fn (attempt + 1)) w'
             end
    | r => r
    end.

Definition withRetry {T} (fn : M T) : M T :=
  withRetry_loop (Z.to_nat (RPC_MAX_RETRIES cfg)) fn 0.

(** *** Decoding, lines 358-442 *)

Definition bigint_toString (z : Z) : string :=
  if z <? 0 then "-" +:+ digits (- z) else digits z.

(** [typeof v === "bigint" ? v.toString() : v] *)
Definition arg_text (v : ArgValue) : string :=
  match v with
  | ArgBigInt z => bigint_toString z
  | ArgText s => s
  end.

Definition to_integer (x : number) : option Z :=
  match x with
  | S754_zero _ => Some 0
  | S754_finite s m e =>
      if 0 <=? e then Some (cond_Zopp s (Zpos m * 2 ^ e))
      else if Zpos m mod 2 ^ (- e) =? 0
           then Some (cond_Zopp s (Zpos m / 2 ^ (- e)))
           else None
  | _ => None
  end.

(** [positional[Number(k)] = val] stores an element only when the property
    key is an array index (an integer from 0 to 2^32 - 2); any other numeric
    key becomes a plain property of the array object, which [length] does
    not count and which the reads of the projection, at the positions 0, 1
    and 2, never reach. *)
Definition array_index (x : number) : option N :=
  match to_integer x with
  | Some z => if (0 <=? z) && (z <? 2 ^ 32 - 1) then Some (Z.to_N z) else None
  | None => None
  end.

Definition collect_arg (acc : ArgsJson) (kv : string * ArgValue) : ArgsJson :=
  let '(k, v) := kv in
  let val := arg_text v in
  let i := StringToNumber k in
  if negb (isNaN i) then
    match array_index i with
    | Some n => {| named := named acc; positional := <[n := val]> (positional acc) |}
    | None => acc
    end
  else if bool_decide (k = "__proto__") then acc   (* the setter ignores a string *)
  else {| named := <[k := val]> (named acc); positional := positional acc |}.

(** [if (positional.length > 0) argsJson.__positional = positional] *)
Definition attach_positional (a : ArgsJson) : ArgsJson :=
  if bool_decide (positional a = ∅) then a
  else {| named := delete "__positional" (named a); positional := positional a |}.

Definition collect_args (entries : list (string * ArgValue)) : ArgsJson :=
  attach_positional (fold_left collect_arg entries no_args).

Definition or_unknown (n : string) : string :=
  if bool_decide (n = "") then "UnknownEvent" else n.

Definition decodeLog (ev : Log) : string * ArgsJson :=
  match body ev with
  | EventLog fragment_name args =>
      (match fragment_name with
       | Some n => or_unknown n
       | None => "UnknownEvent"
       end,
       match args with
       | Some entries => collect_args entries
       | None => no_args
       end)
  | RawLog topics data =>
      match parseLog topics data with
      | Parsed n entries => (or_unknown n, collect_args entries)
      | ParseNull => ("UnknownEvent", no_args)
      | ParseThrows => ("UnknownEvent", no_args)
      end
  end.

(** [getArg], lines 429-442, for the names and positions that the
    projection asks for: "newStage", "voter", "weight", "proposalId" and
    "winningProposalId", at 0, 1 or 2. For other names [argsJson[name]] also
    finds the [__positional] array and what an object inherits from
    [Object.prototype] ("constructor", "toString", ...), values that are
    not text. *)
Definition getArg (a : ArgsJson) (name : string) (pos : N) : option string :=
  match named a !! name with
  | Some v => Some v
  | None => positional a !! pos
  end.

(** *** Prisma calls *)

Definition prisma_error (c : string) : JsError :=
  {| error := None; own := {| code := Some (CodeStr c); message := None |} |}.

(** [ballotSnapshot.upsert], lines 458-471. *)
Definition snapshot_upsert (blockNumber : Z) (d : Db) : Db :=
  set_ballotSnapshot
    (Some match ballotSnapshot d with
          | Some s =>
              {| lastIndexedBlock := blockNumber; stage := stage s;
                 totalVoters := totalVoters s; totalVotes := totalVotes s;
                 winnerComputed := winnerComputed s;
                 winningProposalId := winningProposalId s |}
          | None =>
              {| lastIndexedBlock := blockNumber; stage := zero;
                 totalVoters := 0; totalVotes := 0;
                 winnerComputed := false; winningProposalId := zero |}
          end) d.

(** [ballotSnapshot.update]: fails when the row does not exist. *)
Definition ballotSnapshot_update (f : BallotSnapshot → BallotSnapshot) : M unit :=
  fun w =>
    match ballotSnapshot (db w) with
    | Some s => write (set_ballotSnapshot (Some (f s))) w
    | None => (w, Throw (prisma_error "P2025"))
    end.

Definition set_stage (x : number) (s : BallotSnapshot) : BallotSnapshot :=
  {| lastIndexedBlock := lastIndexedBlock s; stage := x;
     totalVoters := totalVoters s; totalVotes := totalVotes s;
     winnerComputed := winnerComputed s;
     winningProposalId := winningProposalId s |}.

Definition increment_totalVoters (s : BallotSnapshot) : BallotSnapshot :=
  {| lastIndexedBlock := lastIndexedBlock s; stage := stage s;
     totalVoters := totalVoters s + 1; totalVotes := totalVotes s;
     winnerComputed := winnerComputed s;
     winningProposalId := winningProposalId s |}.

Definition increment_totalVotes (s : BallotSnapshot) : BallotSnapshot :=
  {| lastIndexedBlock := lastIndexedBlock s; stage := stage s;
     totalVoters := totalVoters s; totalVotes := totalVotes s + 1;
     winnerComputed := winnerComputed s;
     winningProposalId := winningProposalId s |}.

Definition set_winner (x : number) (s : BallotSnapshot) : BallotSnapshot :=
  {| lastIndexedBlock := lastIndexedBlock s; stage := stage s;
     totalVoters := totalVoters s; totalVotes := totalVotes s;
     winnerComputed := true; winningProposalId := x |}.

(** [voter.upsert] of a registration, lines 493-515. *)
Definition register_voter (key : string) (w : number) (blockNumber : Z)
  (d : Db) : Db :=
  set_voter
    (<[key :=
        match voter d !! key with
        | Some v => {| weight := w; hasVoted := hasVoted v;
                       registeredAtBlock := Some blockNumber;
                       lastUpdatedBlock := blockNumber |}
        | None => {| weight := w; hasVoted := false;
                     registeredAtBlock := Some blockNumber;
                     lastUpdatedBlock := blockNumber |}
        end]> (voter d)) d.

(** [vote.upsert], lines 539-562: update and create write the same row. *)
Definition upsert_vote (key : string) (proposalId w : number) (txHash : string)
  (blockNumber : Z) (d : Db) : Db :=
  set_vote
    (<[key := {| vote_proposalId := proposalId; vote_weight := w;
                 vote_txHash := txHash; vote_blockNumber := blockNumber |}]>
       (vote d)) d.

(** [voter.upsert] of a vote, lines 565-586. *)
Definition mark_voted (key : string) (w : number) (blockNumber : Z)
  (d : Db) : Db :=
  set_voter
    (<[key :=
        match voter d !! key with
        | Some v => {| weight := weight v; hasVoted := true;
                       registeredAtBlock := registeredAtBlock v;
                       lastUpdatedBlock := blockNumber |}
        | None => {| weight := if isFinite w then w else one;
                     hasVoted := true; registeredAtBlock := None;
                     lastUpdatedBlock := blockNumber |}
        end]> (voter d)) d.

(** The new [voteCount] text, lines 599-600. *)
Definition next_voteCount (existing : option Proposal) (w : number) : string :=
  let current := match existing with
                 | Some p => StringToNumber (voteCount p)
                 | None => zero
                 end in
  toString (add current (if isFinite w then w else zero)).

(** [proposal.upsert], lines 602-618. *)
Definition upsert_proposal (proposalId : number) (count : string) (d : Db) : Db :=
  set_proposal
    (<[proposalId :=
        match proposal d !! proposalId with
        | Some p => {| name := name p; voteCount := count |}
        | None => {| name := "proposal-" +:+ toString proposalId;
                     voteCount := count |}
        end]> (proposal d)) d.

(** *** The projection, lines 448-646 *)

Definition applyReadModelProjection (eventName : string) (argsJson : ArgsJson)
  (blockNumber : Z) (txHash : string) : M unit :=
  do! write (snapshot_upsert blockNumber) in
  if bool_decide (eventName = "StageChanged") then
    let newStage := Number_of (getArg argsJson "newStage" 0) in
    if isFinite newStage then ballotSnapshot_update (set_stage newStage)
    else ret tt
  else if bool_decide (eventName = "VoterRegistered") then
    let voter := getArg argsJson "voter" 0 in
    let weight := match getArg argsJson "weight" 1 with
                  | Some s => StringToNumber s
                  | None => one
                  end in
    match voter with
    | Some v =>
        if bool_decide (v = "") then ret tt
        else
          do! write (register_voter (toLowerCase v) weight blockNumber) in
          ballotSnapshot_update increment_totalVoters
    | None => ret tt
    end
  else if bool_decide (eventName = "VoteCast") then
    let voter := getArg argsJson "voter" 0 in
    let proposalId := Number_of (getArg argsJson "proposalId" 1) in
    let weight := Number_of (getArg argsJson "weight" 2) in
    match voter with
    | Some v =>
        if isFinite proposalId then
          let key := toLowerCase v in
          do! write (upsert_vote key proposalId weight txHash blockNumber) in
          do! write (mark_voted key weight blockNumber) in
          let! existing := (fun w => (w, Ok (proposal (db w) !! proposalId))) in
          let next := next_voteCount existing weight in
          do! write (upsert_proposal proposalId next) in
          ballotSnapshot_update increment_totalVotes
        else ret tt
    | None => ret tt
    end
  else if bool_decide (eventName = "Finalized") then
    let winningProposalId := Number_of (getArg argsJson "winningProposalId" 0) in
    if isFinite winningProposalId
    then ballotSnapshot_update (set_winner winningProposalId)
    else ret tt
  else ret tt.

(** *** The sync cursor, lines 216-245 *)

Definition defaultStart (latest : Z) : Z :=
  let deploymentBlock := DEPLOYMENT_BLOCK cfg in
  if 0 <? deploymentBlock then Z.max (deploymentBlock - 1) 0
  else Z.max (latest - 100) 0.

Definition getOrCreateSyncState : M Z :=
  let! latest := withRetry (rpc ReqBlockNumber (getBlockNumber chain)) in
  fun w =>
    match contractSyncState (db w) with
    | Some c => (w, Ok c)
    | None =>
        (do! write (set_contractSyncState (Some (defaultStart latest))) in
         ret (defaultStart latest)) w
    end.

(** [contractSyncState.update], lines 331-339. *)
Definition contractSyncState_update (toBlock : Z) : M unit :=
  fun w =>
    match contractSyncState (db w) with
    | Some _ => write (set_contractSyncState (Some toBlock)) w
    | None => (w, Throw (prisma_error "P2025"))
    end.

(** *** One catch-up pass, lines 251-352 *)

(** [onChainEvent.create]: the unique constraint rejects a second row with
    the same transaction hash and log index. The loop body catches this
    rejection only; any other one is thrown again (lines 311-314) and ends
    the pass, see [stopped]. *)
Definition onChainEvent_create (ev : Log) (eventName : string)
  (a : ArgsJson) : M unit :=
  fun w =>
    let k := (transactionHash ev, index ev) in
    match onChainEvent (db w) !! k with
    | Some _ => (w, Throw (prisma_error "P2002"))
    | None =>
        write (fun d =>
                 set_onChainEvent
                   (<[k := {| ev_blockNumber := blockNumber ev;
                              ev_blockHash := blockHash ev;
                              eventName := eventName; argsJson := a |}]>
                      (onChainEvent d)) d) w
    end.

(** The body of the [for] loop, lines 289-326. *)
Definition indexLog (ev : Log) : M unit :=
  let '(eventName, argsJson) := decodeLog ev in
  let! created :=
    catch (do! onChainEvent_create ev eventName argsJson in ret true)
          (fun e =>
             if bool_decide (code (own e) = Some (CodeStr "P2002"))
             then ret false else throw e) in
  if created : bool
  then applyReadModelProjection eventName argsJson (blockNumber ev)
                                (transactionHash ev)
  else ret tt.

Fixpoint forLogs (logs : list Log) : M unit :=
  match logs with
  | [] => ret tt
  | ev :: rest => do! indexLog ev in forLogs rest
  end.

(** One iteration of the [while] loop after the fetch: index the logs of
    the range, then move the cursor. *)
Definition indexRange (logs : list Log) (toBlock : Z) : M unit :=
  do! forLogs logs in
  contractSyncState_update toBlock.

Fixpoint catchUp_loop (fuel : nat) (fromBlock safeLatest : Z) : M unit :=
  if fromBlock <=? safeLatest then
    match fuel with
    | O => fun w => (w, OutOfFuel)
    | S fuel' =>
        let toBlock :=
          Z.min (fromBlock + MAX_LOG_BLOCK_RANGE cfg - 1) safeLatest in
        let! logs :=
          withRetry (rpc (ReqLogs fromBlock toBlock)
                         (fun n => queryFilter chain n fromBlock toBlock)) in
        do! indexRange logs toBlock in
        do! (if 0 <? RPC_THROTTLE_MS cfg then sleep (RPC_THROTTLE_MS cfg)
             else ret tt) in
        catchUp_loop fuel' (toBlock + 1) safeLatest
    end
  else ret tt.

(** The [while] loop ends when the range width is at least 1; its fuel is
    the length of the backlog, and [OutOfFuel] stands for a loop that does
    not end (a width of 0 or less). *)
Definition catchUpOnce : M unit :=
  let! state := getOrCreateSyncState in
  let! latest := withRetry (rpc ReqBlockNumber (getBlockNumber chain)) in
  let safeLatest := Z.max (latest - CONFIRMATIONS cfg) 0 in
  let fromBlockInitial := state + 1 in
  if safeLatest <? fromBlockInitial then ret tt
  else catchUp_loop (Z.to_nat (safeLatest - fromBlockInitial + 1))
                    fromBlockInitial safeLatest.

(** The timer of [onModuleInit], lines 89-106: a failed pass is logged and
    the next tick starts another one. *)
Definition pass (w : World) : World := fst (catchUpOnce w).

(** Passes that run one after the other, each started when the one before
    has ended. The timer does not wait for that: a pass that lasts longer
    than the poll interval overlaps with the next one ([resume_pass] and
    [overlapped_world] below). The read of [currentStage] that comes before
    the first pass (lines 82-86) sends requests of its own and, when it
    fails, ends [onModuleInit] before any pass: the passes start from any
    world, hence from the one that it leaves. *)
Definition passes (n : nat) (w : World) : World := Nat.iter n pass w.

End Indexer.

(** ** The stats query, [stats.service.ts] lines 21-79 *)

(** The answer, without the echoed chain id and contract address. *)

Record Stats := {
  stats_stage : number;
  stats_totalVoters : Z;
  stats_totalVotes : Z;
  participationRate : number;
  winner_computed : bool;
  winner_proposalId : number;
  proposals : list (number * string * string);   (* id, name, voteCount *)
  stats_lastIndexedBlock : Z
}.

(** [orderBy: { proposalId: "asc" }]: the order of the rows is the
    database's; the list is sorted here by the numeric order of the ids. *)
Fixpoint insert_by_id (x : number * Proposal) (l : list (number * Proposal))
  : list (number * Proposal) :=
  match l with
  | [] => [x]
  | y :: l' => if ltb (fst y) (fst x) then y :: insert_by_id x l' else x :: l
  end.

Definition proposals_asc (m : gmap number Proposal) : list (number * Proposal) :=
  foldr insert_by_id [] (map_to_list m).

Definition getStats (d : Db) : Stats :=
  let snapshot := ballotSnapshot d in
  let proposals := proposals_asc (proposal d) in
  let totalVoters := default 0 (totalVoters <$> snapshot) in
  let totalVotes := default 0 (totalVotes <$> snapshot) in
  let participationRate :=
    if 0 <? totalVoters
    then StringToNumber (toFixed (div (of_Z totalVotes) (of_Z totalVoters)) 4)
    else zero in
  {| stats_stage := default zero (stage <$> snapshot);
     stats_totalVoters := totalVoters;
     stats_totalVotes := totalVotes;
     participationRate := participationRate;
     winner_computed := default false (winnerComputed <$> snapshot);
     winner_proposalId := default zero (winningProposalId <$> snapshot);
     proposals := (fun p => (fst p, name (snd p), voteCount (snd p))) <$> proposals;
     stats_lastIndexedBlock := default 0 (lastIndexedBlock <$> snapshot) |}.

(** ** [GET /events], the clamp of the [limit] query parameter *)

(** [ToBoolean] of a number: [NaN] and the zeros are falsy. *)
Definition truthy_number (x : number) : bool :=
  match x with
  | S754_nan | S754_zero _ => false
  | _ => true
  end.

(** [Math.min] of two numbers. *)
Definition Math_min (x y : number) : number :=
  if isNaN x || isNaN y then nan
  else if ltb x y then x
  else if ltb y x then y
  else match x with S754_zero true => x | _ => y end.

(** [Math.min(Number(limit) || 50, 200)], where [limit] defaults to
    ["50"] when the parameter is absent. *)
Definition events_limit (limit : option string) : number :=
  let n := StringToNumber (default "50" limit) in
  Math_min (if truthy_number n then n else of_Z 50) (of_Z 200).

(** * Specification vocabulary *)

(** What an observer sees of [withRetry] when the first [k] requests are
    rate-limited: request, wait [min(base * 2^a, cap)], request, ... *)
Fixpoint retry_trace (cfg : Config) (r : Request) (attempt : Z) (k : nat)
  : list Obs :=
  match k with
  | O => [Called r]
  | S k' =>
      Called r
      :: Slept (Z.min (RPC_BACKOFF_BASE_MS cfg * 2 ^ attempt)
                      (RPC_BACKOFF_CAP_MS cfg))
      :: retry_trace cfg r (attempt + 1) k'
  end.

Definition after_calls (w : World) (k : nat) (obs : list Obs) : World :=
  {| db := db w; rpc_calls := rpc_calls w + k; trace := trace w ++ obs |}.

Definition rate_limited {A} (outcome : nat → JsError + A) (n : nat) : Prop :=
  ∃ e, outcome n = inl e ∧ isRateLimitError e = true.

(** A provider answer with HTTP status 429, and a malformed-range error. *)
Definition error_429 : JsError :=
  {| error := Some {| code := Some (CodeNum 429);
                      message := Some "Too Many Requests" |};
     own := {| code := Some (CodeStr "SERVER_ERROR"); message := None |} |}.

Definition error_bad_range : JsError :=
  {| error := None;
     own := {| code := Some (CodeStr "INVALID_ARGUMENT");
               message := Some "invalid block range" |} |}.

Definition default_config : Config :=
  {| MAX_LOG_BLOCK_RANGE := 10; CONFIRMATIONS := 2; RPC_THROTTLE_MS := 400;
     RPC_MAX_RETRIES := 8; RPC_BACKOFF_BASE_MS := 1500;
     RPC_BACKOFF_CAP_MS := 30000; DEPLOYMENT_BLOCK := 100 |}.

Definition fresh_world : World :=
  {| db := empty_db; rpc_calls := 0; trace := [] |}.

(** Two rate-limited answers, then block 130. *)
Definition flaky_tip (n : nat) : JsError + Z :=
  if (n <? 2)%nat then inl error_429 else inr 130.

(** A run of store writes that leaves the cursor at [c]: nothing is sent to
    the RPC endpoint and every database an observer sees has cursor [c]. *)
Definition keeps_cursor (c : option Z) (o : Obs) : Prop :=
  match o with
  | Wrote d => contractSyncState d = c
  | _ => False
  end.

Definition quiet (w w' : World) : Prop :=
  rpc_calls w' = rpc_calls w ∧
  contractSyncState (db w') = contractSyncState (db w) ∧
  ∃ obs, trace w' = trace w ++ obs ∧
         Forall (keeps_cursor (contractSyncState (db w))) obs.

Definition log_key (ev : Log) : string * Z := (transactionHash ev, index ev).

(** The ledger row written for a log, and the ledger after recording it. *)
Definition ledger_row (parseLog : list string → string → ParseOutcome)
  (ev : Log) : OnChainEvent :=
  {| ev_blockNumber := blockNumber ev; ev_blockHash := blockHash ev;
     eventName := fst (decodeLog parseLog ev);
     argsJson := snd (decodeLog parseLog ev) |}.

Definition record_event (parseLog : list string → string → ParseOutcome)
  (ev : Log) (d : Db) : Db :=
  set_onChainEvent (<[log_key ev := ledger_row parseLog ev]> (onChainEvent d)) d.

Definition recorded (d : Db) (ev : Log) : Prop :=
  is_Some (onChainEvent d !! log_key ev).

(** Replaying a fetched range: the loop body run once more on the same logs. *)
Definition replay (parseLog : list string → string → ParseOutcome)
  (logs : list Log) (toBlock : Z) (w : World) : World :=
  fst (indexRange parseLog logs toBlock w).

(** The snapshot row the projection works on: the stored row, or the row of
    zeros that its first step creates. *)
Definition snapshot_or_default (d : Db) : BallotSnapshot :=
  default {| lastIndexedBlock := 0; stage := zero; totalVoters := 0;
             totalVotes := 0; winnerComputed := false;
             winningProposalId := zero |} (ballotSnapshot d).

(** The database after projecting one event. *)
Definition projected (eventName : string) (a : ArgsJson) (bn : Z) (tx : string)
  (w : World) : Db :=
  db (fst (applyReadModelProjection eventName a bn tx w)).

Definition known_kind (n : string) : Prop :=
  n = "StageChanged" ∨ n = "VoterRegistered" ∨ n = "VoteCast" ∨ n = "Finalized".

(** Sample decoded events: the argument objects carry positional fields
    only, as ethers delivers them. *)
Definition args_of (values : list ArgValue) : ArgsJson :=
  {| named := ∅;
     positional := list_to_map (zip (N.of_nat <$> seq 0 (length values))
                                    (arg_text <$> values)) |}.

Definition alice : string := "0xA11CE00000000000000000000000000000000001".

Definition seeded_world : World :=
  {| db := set_contractSyncState (Some 99) empty_db; rpc_calls := 0;
     trace := [] |}.

(** Two stats answers that differ at most in [lastIndexedBlock]. *)
Definition same_aggregates (s s' : Stats) : Prop :=
  stats_stage s' = stats_stage s ∧
  stats_totalVoters s' = stats_totalVoters s ∧
  stats_totalVotes s' = stats_totalVotes s ∧
  participationRate s' = participationRate s ∧
  winner_computed s' = winner_computed s ∧
  winner_proposalId s' = winner_proposalId s ∧
  proposals s' = proposals s.

(** An ABI that knows no event at all. *)
Definition no_abi (topics : list string) (data : string) : ParseOutcome :=
  ParseThrows.

Definition event_log (bn : Z) (tx : string) (i : Z) (kind : string)
  (values : list ArgValue) : Log :=
  {| blockNumber := bn; blockHash := "0xb10c"; transactionHash := tx;
     index := i;
     body := EventLog (Some kind)
               (Some (zip (digits <$> (Z.of_nat <$> seq 0 (length values)))
                          values)) |}.

Definition raw_log (bn : Z) (tx : string) (i : Z) : Log :=
  {| blockNumber := bn; blockHash := "0xb10c"; transactionHash := tx;
     index := i; body := RawLog ["0xdeadbeef"] "0x" |}.

Definition bob : string := "0xB0B0000000000000000000000000000000000002".

(** The seeded database after the indexer has taken one [VoteCast] of weight
    2^53 for proposal 0. The decoder takes any [uint256] weight; the Ballot
    contract of the repository itself gives out the weights 1 and 2 only. *)
Definition heavy_world : World :=
  fst (indexLog no_abi
         (event_log 106 "0xt0" 0 "VoteCast"
            [ArgText alice; ArgBigInt 0; ArgBigInt 9007199254740992])
         seeded_world).

(** The cursor never moves backward: [None] is the state before the row
    is created. *)
Definition cursor_le (c c' : option Z) : Prop :=
  match c, c' with
  | None, _ => True
  | Some x, Some y => x ≤ y
  | Some _, None => False
  end.

(** Starting from cursor [c], the databases an observer sees in [obs] show a
    cursor that never decreases and ends at [c']. *)
Fixpoint advancing (c : option Z) (obs : list Obs) (c' : option Z) : Prop :=
  match obs with
  | [] => c' = c
  | Wrote d :: rest =>
      cursor_le c (contractSyncState d) ∧
      advancing (contractSyncState d) rest c'
  | _ :: rest => advancing c rest c'
  end.

Definition advances (w w' : World) : Prop :=
  ∃ obs, trace w' = trace w ++ obs ∧
         advancing (contractSyncState (db w)) obs (contractSyncState (db w')).

Definition not_write (o : Obs) : Prop :=
  match o with
  | Wrote _ => False
  | _ => True
  end.

(** The block ranges requested from the endpoint, in order. *)
Fixpoint fetched_ranges (obs : list Obs) : list (Z * Z) :=
  match obs with
  | [] => []
  | Called (ReqLogs f t) :: rest => (f, t) :: fetched_ranges rest
  | _ :: rest => fetched_ranges rest
  end.

(** The [i]-th range of a backlog that starts at [from]. *)
Definition range_at (width from safe : Z) (i : nat) : Z * Z :=
  (from + Z.of_nat i * width,
   Z.min (from + Z.of_nat i * width + width - 1) safe).

Definition backlog_ranges (width from safe : Z) : list (Z * Z) :=
  range_at width from safe <$> seq 0 (Z.to_nat ((safe - from) / width + 1)).

(** An endpoint that always answers: tip [t], and some logs for any range. *)
Definition steady (chain : Chain) (t : Z) : Prop :=
  (∀ n, getBlockNumber chain n = inr t) ∧
  (∀ n f t', ∃ logs, queryFilter chain n f t' = inr logs).

(** The scenario of the specification: tip 130, a stage change at block 105
    and a registration at block 107. *)
Definition scenario_logs : list Log :=
  [event_log 105 "0xt1" 0 "StageChanged" [ArgBigInt 1; ArgBigInt 1700000000];
   event_log 107 "0xt2" 0 "VoterRegistered" [ArgText alice; ArgBigInt 1]].

Definition scenario_chain : Chain :=
  {| getBlockNumber := fun _ => inr 130;
     queryFilter := fun _ f t =>
       inr (List.filter (fun l => (f <=? blockNumber l) && (blockNumber l <=? t))
                        scenario_logs) |}.

(** The database an observer sees at position [k] of the trace. *)
Definition seen (w : World) (k : nat) : option Db :=
  match nth_error (trace w) k with
  | Some (Wrote d) => Some d
  | _ => None
  end.

Definition backward_config : Config :=
  {| MAX_LOG_BLOCK_RANGE := -5; CONFIRMATIONS := 2; RPC_THROTTLE_MS := 0;
     RPC_MAX_RETRIES := 8; RPC_BACKOFF_BASE_MS := 1500;
     RPC_BACKOFF_CAP_MS := 30000; DEPLOYMENT_BLOCK := 100 |}.


(** An ASCII character that is not white space. *)
Definition plain_char (c : ascii) : bool :=
  (N_of_ascii c <? 128)%N && negb (is_ws c).

(** The characters of a decimal numeral of the Standard Library, which is
    what [digits] prints. *)
Definition uint_chars (d : Decimal.uint) : list ascii :=
  list_ascii_of_string (NilEmpty.string_of_uint d).

(** The keys "s", "s+1", ... of [n] array-like entries. *)
Definition index_keys (s n : nat) : list string :=
  digits <$> (Z.of_nat <$> seq s n).

(** A key that [decodeLog] stores as a named field: not numeric, and
    neither of the two names with a special treatment. *)
Definition plain_name (k : string) : Prop :=
  isNaN (StringToNumber k) = true ∧ k ≠ "__proto__" ∧ k ≠ "__positional".


(** An error that the endpoint returned to some request. *)
Definition endpoint_error (chain : Chain) (e : JsError) : Prop :=
  (∃ n, getBlockNumber chain n = inl e) ∨
  (∃ n f t, queryFilter chain n f t = inl e).

(** A log that the endpoint returned in answer to some request. *)
Definition served_log (chain : Chain) (ev : Log) : Prop :=
  ∃ n f t logs, queryFilter chain n f t = inr logs ∧ ev ∈ logs.

(** [ballotSnapshot.update] on a database. *)
Definition with_snapshot (f : BallotSnapshot → BallotSnapshot) (d : Db) : Db :=
  set_ballotSnapshot (f <$> ballotSnapshot d) d.

(** What the projection of one event can do to the read model once the
    snapshot row exists. *)
Inductive projection_effect (bn : Z) (tx : string) (d : Db) : Db → Prop :=
| effect_none : projection_effect bn tx d d
| effect_stage x :
    isFinite x = true → projection_effect bn tx d (with_snapshot (set_stage x) d)
| effect_winner x :
    isFinite x = true → projection_effect bn tx d (with_snapshot (set_winner x) d)
| effect_register v wt :
    v ≠ "" →
    projection_effect bn tx d
      (with_snapshot increment_totalVoters
         (register_voter (toLowerCase v) wt bn d))
| effect_vote v p wt :
    isFinite p = true →
    projection_effect bn tx d
      (with_snapshot increment_totalVotes
         (upsert_proposal p (next_voteCount (proposal d !! p) wt)
            (mark_voted (toLowerCase v) wt bn
               (upsert_vote (toLowerCase v) p wt tx bn d)))).

(** Referential integrity of the read model. *)
Record consistent (d : Db) : Prop := {
  voted_has_vote :
    ∀ k v, voter d !! k = Some v → hasVoted v = true → is_Some (vote d !! k);
  vote_has_voter :
    ∀ k, is_Some (vote d !! k) → ∃ v, voter d !! k = Some v ∧ hasVoted v = true;
  vote_has_proposal :
    ∀ k r, vote d !! k = Some r → is_Some (proposal d !! vote_proposalId r);
  proposal_id_finite :
    ∀ p, is_Some (proposal d !! p) → isFinite p = true;
  voter_key_lower :
    ∀ k, is_Some (voter d !! k) → toLowerCase k = k;
  votes_counted :
    Z.of_nat (size (vote d)) ≤ totalVotes (snapshot_or_default d);
  proposals_counted :
    Z.of_nat (size (proposal d)) ≤ totalVotes (snapshot_or_default d);
  voters_counted :
    Z.of_nat (size (voter d)) ≤
    totalVoters (snapshot_or_default d) + totalVotes (snapshot_or_default d);
  registrations_counted : 0 ≤ totalVoters (snapshot_or_default d)
}.

(** What later events never take back from the read model. *)
Record grows (d0 d : Db) : Prop := {
  voters_kept : ∀ k, is_Some (voter d0 !! k) → is_Some (voter d !! k);
  voted_kept :
    ∀ k v0, voter d0 !! k = Some v0 → hasVoted v0 = true →
            ∃ v, voter d !! k = Some v ∧ hasVoted v = true;
  votes_kept : ∀ k, is_Some (vote d0 !! k) → is_Some (vote d !! k);
  proposals_kept :
    ∀ p r0, proposal d0 !! p = Some r0 →
            ∃ r, proposal d !! p = Some r ∧ name r = name r0;
  snapshot_kept : is_Some (ballotSnapshot d0) → is_Some (ballotSnapshot d);
  totalVoters_kept :
    totalVoters (snapshot_or_default d0) ≤ totalVoters (snapshot_or_default d);
  totalVotes_kept :
    totalVotes (snapshot_or_default d0) ≤ totalVotes (snapshot_or_default d);
  winner_kept :
    winnerComputed (snapshot_or_default d0) = true →
    winnerComputed (snapshot_or_default d) = true
}.

(** The recorded events that the projection counts: a registration with a
    voter, a vote with a voter and a finite proposal id. *)
Definition counts_as_registration (n : string) (a : ArgsJson) : bool :=
  bool_decide (n = "VoterRegistered") &&
  match getArg a "voter" 0 with
  | Some v => negb (bool_decide (v = ""))
  | None => false
  end.

Definition counts_as_vote (n : string) (a : ArgsJson) : bool :=
  bool_decide (n = "VoteCast") &&
  match getArg a "voter" 0 with
  | Some _ => isFinite (Number_of (getArg a "proposalId" 1))
  | None => false
  end.

(** The number of ledger rows that [f] counts. *)
Definition tally (f : string → ArgsJson → bool)
  (m : gmap (string * Z) OnChainEvent) : Z :=
  Z.of_nat (size (filter (λ kv, f (eventName (snd kv)) (argsJson (snd kv)) = true) m)).

Definition one_if (b : bool) : Z := if b then 1 else 0.

(** The counters of the snapshot are the numbers of recorded events. *)
Definition tallied (d : Db) : Prop :=
  totalVoters (snapshot_or_default d) = tally counts_as_registration (onChainEvent d) ∧
  totalVotes (snapshot_or_default d) = tally counts_as_vote (onChainEvent d).

(** The voters, votes and proposals that the recorded events name. *)
Definition names_voter (n : string) (a : ArgsJson) (k : string) : Prop :=
  (counts_as_registration n a || counts_as_vote n a = true) ∧
  ∃ v, getArg a "voter" 0 = Some v ∧ k = toLowerCase v.

Definition names_vote (n : string) (a : ArgsJson) (k : string) : Prop :=
  counts_as_vote n a = true ∧
  ∃ v, getArg a "voter" 0 = Some v ∧ k = toLowerCase v.

Definition names_proposal (n : string) (a : ArgsJson) (p : number) : Prop :=
  counts_as_vote n a = true ∧ p = Number_of (getArg a "proposalId" 1).

Definition in_ledger {K} (names : string → ArgsJson → K → Prop)
  (m : gmap (string * Z) OnChainEvent) (k : K) : Prop :=
  ∃ key row, m !! key = Some row ∧ names (eventName row) (argsJson row) k.

(** The tables hold the rows of the recorded events, and no others. *)
Record reflects_ledger (d : Db) : Prop := {
  voters_of_ledger :
    ∀ k, is_Some (voter d !! k) ↔ in_ledger names_voter (onChainEvent d) k;
  votes_of_ledger :
    ∀ k, is_Some (vote d !! k) ↔ in_ledger names_vote (onChainEvent d) k;
  proposals_of_ledger :
    ∀ p, is_Some (proposal d !! p) ↔ in_ledger names_proposal (onChainEvent d) p
}.


(** The registration of the scenario, with named fields as well. *)
Definition registration_entries : list (string * ArgValue) :=
  [("voter", ArgText alice); ("weight", ArgBigInt 1)].

(** The double of value [z], for [0 < z < 2^53]: a mantissa of 53 bits. *)
Definition canonical (z : Z) : number :=
  let d := Zdigits2 z in
  S754_finite false (Z.to_pos (z * 2 ^ (53 - d))) (d - 53).

(** The count stored for proposal [p]: the integer [a] in decimal, or no row
    and [a = 0]. *)
Definition stored_count (d : Db) (p : number) (a : Z) : Prop :=
  match proposal d !! p with
  | Some row => voteCount row = digits a
  | None => a = 0
  end.

(** The seeded database after a vote of weight 2, the chairperson's
    weight, for proposal 0. *)
Definition chair_voted_world : World :=
  fst (indexLog no_abi
         (event_log 106 "0xt0" 0 "VoteCast"
            [ArgText alice; ArgBigInt 0; ArgBigInt 2]) seeded_world).

(** The store writes of the projection of one event, in the order in which
    the source makes them (lines 458-646). *)
Definition projection_writes (eventName : string) (a : ArgsJson) (bn : Z)
  (tx : string) : list (Db → Db) :=
  snapshot_upsert bn ::
  if bool_decide (eventName = "StageChanged") then
    let newStage := Number_of (getArg a "newStage" 0) in
    if isFinite newStage then [with_snapshot (set_stage newStage)] else []
  else if bool_decide (eventName = "VoterRegistered") then
    let weight := match getArg a "weight" 1 with
                  | Some s => StringToNumber s
                  | None => one
                  end in
    match getArg a "voter" 0 with
    | Some v =>
        if bool_decide (v = "") then []
        else [register_voter (toLowerCase v) weight bn;
              with_snapshot increment_totalVoters]
    | None => []
    end
  else if bool_decide (eventName = "VoteCast") then
    let proposalId := Number_of (getArg a "proposalId" 1) in
    let weight := Number_of (getArg a "weight" 2) in
    match getArg a "voter" 0 with
    | Some v =>
        if isFinite proposalId then
          [upsert_vote (toLowerCase v) proposalId weight tx bn;
           mark_voted (toLowerCase v) weight bn;
           (fun d => upsert_proposal proposalId
                       (next_voteCount (proposal d !! proposalId) weight) d);
           with_snapshot increment_totalVotes]
        else []
    | None => []
    end
  else if bool_decide (eventName = "Finalized") then
    let winningProposalId := Number_of (getArg a "winningProposalId" 0) in
    if isFinite winningProposalId
    then [with_snapshot (set_winner winningProposalId)] else []
  else [].

(** The writes of the loop body for a log whose key is new: the ledger row,
    then the projection. *)
Definition event_writes (parseLog : list string → string → ParseOutcome)
  (ev : Log) : list (Db → Db) :=
  record_event parseLog ev ::
  projection_writes (fst (decodeLog parseLog ev)) (snd (decodeLog parseLog ev))
                    (blockNumber ev) (transactionHash ev).

(** The databases that a list of writes shows one after the other. *)
Fixpoint run_writes (fs : list (Db → Db)) (d : Db) : list Db :=
  match fs with
  | [] => []
  | f :: rest => f d :: run_writes rest (f d)
  end.

(** The databases that readers see while a log is indexed: none for a log
    that is already in the ledger. *)
Definition event_dbs (parseLog : list string → string → ParseOutcome)
  (ev : Log) (d : Db) : list Db :=
  match onChainEvent d !! log_key ev with
  | Some _ => []
  | None => run_writes (event_writes parseLog ev) d
  end.

Fixpoint range_dbs (parseLog : list string → string → ParseOutcome)
  (logs : list Log) (d : Db) : list Db :=
  match logs with
  | [] => []
  | ev :: rest =>
      event_dbs parseLog ev d ++
      range_dbs parseLog rest (List.last (event_dbs parseLog ev d) d)
  end.

(** The world after one observable step, and after a list of them. *)
Definition after_step (w : World) (o : Obs) : World :=
  match o with
  | Called _ =>
      {| db := db w; rpc_calls := S (rpc_calls w); trace := trace w ++ [o] |}
  | Slept _ =>
      {| db := db w; rpc_calls := rpc_calls w; trace := trace w ++ [o] |}
  | Wrote d =>
      {| db := d; rpc_calls := rpc_calls w; trace := trace w ++ [o] |}
  end.

Definition after_steps (obs : list Obs) (w : World) : World :=
  fold_left after_step obs w.

(** Every database that the steps show has the property [P]. *)
Definition shows (P : Db → Prop) (o : Obs) : Prop :=
  match o with
  | Wrote d => P d
  | _ => True
  end.

(** A computation that, started where [P] holds, moves the world by
    observable steps only and never shows a database without [P]. *)
Definition stepwise {A} (P : Db → Prop) (m : M A) : Prop :=
  ∀ w, P (db w) → ∃ obs, fst (m w) = after_steps obs w ∧ Forall (shows P) obs.

(** The observable steps of the pass started in [w]. *)
Definition steps_of_pass (cfg : Config) (chain : Chain)
  (parseLog : list string → string → ParseOutcome) (w : World) : list Obs :=
  drop (length (trace w)) (trace (pass cfg chain parseLog w)).

(** The pass started in [w], cut short after [j] of its steps: the process
    stops there, or the store rejects the call that comes next (only the
    duplicate key of [onChainEvent.create] is caught; any other rejection
    ends the pass, and the timer starts the next one from what is stored). *)
Definition stopped (cfg : Config) (chain : Chain)
  (parseLog : list string → string → ParseOutcome) (j : nat) (w : World) : World :=
  after_steps (take j (steps_of_pass cfg chain parseLog w)) w.

(** The worlds reached from [w0] by passes that run one after the other,
    each to its end or cut short. *)
Inductive history (cfg : Config) (chain : Chain)
  (parseLog : list string → string → ParseOutcome) (w0 : World) : World → Prop :=
| history_start : history cfg chain parseLog w0 w0
| history_pass w :
    history cfg chain parseLog w0 w →
    history cfg chain parseLog w0 (pass cfg chain parseLog w)
| history_cut w j :
    history cfg chain parseLog w0 w →
    history cfg chain parseLog w0 (stopped cfg chain parseLog j w).

(** The counters lag behind the ledger by at least [a] registrations and
    [b] votes. *)
Definition lagging (a b : Z) (d : Db) : Prop :=
  0 ≤ totalVoters (snapshot_or_default d) ∧
  totalVoters (snapshot_or_default d) + a ≤
    tally counts_as_registration (onChainEvent d) ∧
  0 ≤ totalVotes (snapshot_or_default d) ∧
  totalVotes (snapshot_or_default d) + b ≤ tally counts_as_vote (onChainEvent d).

(** The counters never run ahead of the ledger: no event is counted that is
    not recorded, and none is counted twice. *)
Definition no_overcount (d : Db) : Prop := lagging 0 0 d.



(** The worlds reached from [w0] by passes that run one after the other and
    all complete. *)
Inductive completed (cfg : Config) (chain : Chain)
  (parseLog : list string → string → ParseOutcome) (w0 : World) : World → Prop :=
| completed_start : completed cfg chain parseLog w0 w0
| completed_pass w :
    completed cfg chain parseLog w0 w →
    snd (catchUpOnce cfg chain parseLog w) = Ok tt →
    completed cfg chain parseLog w0 (pass cfg chain parseLog w).

(** The pass of the scenario, cut after the second event has been recorded
    and before its voter row is written. *)
Definition cut_world : World :=
  stopped default_config scenario_chain no_abi 9 fresh_world.

(** What is left of a pass whose request for the logs from [fromBlock] on
    waits in its backoff before attempt number [attempt]: the remaining
    attempts, the rest of the loop turn, and the rest of the loop. The
    range, [safeLatest] and the counters live in local variables of the
    pass: what another pass stores meanwhile does not change them. *)
Definition resume_pass (cfg : Config) (chain : Chain)
  (parseLog : list string → string → ParseOutcome)
  (retries loop_fuel : nat) (attempt fromBlock safeLatest : Z) : M unit :=
  let toBlock := Z.min (fromBlock + MAX_LOG_BLOCK_RANGE cfg - 1) safeLatest in
  let! logs :=
    withRetry_loop cfg retries
      (rpc (ReqLogs fromBlock toBlock)
           (fun n => queryFilter chain n fromBlock toBlock)) attempt in
  do! indexRange parseLog logs toBlock in
  do! (if 0 <? RPC_THROTTLE_MS cfg then sleep (RPC_THROTTLE_MS cfg)
       else ret tt) in
  catchUp_loop cfg chain parseLog loop_fuel (toBlock + 1) safeLatest.

(** An endpoint that answers the requests number 2 to 5 with a rate-limit
    error and all the others like the scenario. *)
Definition busy_chain : Chain :=
  {| getBlockNumber := getBlockNumber scenario_chain;
     queryFilter := fun n f t =>
       if (2 <=? n)%nat && (n <=? 5)%nat then inl error_429
       else queryFilter scenario_chain n f t |}.

(** The pass started on the seeded database with that endpoint, when it
    goes to sleep for the fourth time, having slept 10.5 seconds: the timer
    (15 seconds) starts the next pass during this sleep of 12 seconds. *)
Definition asleep_world : World :=
  after_steps
    [Called ReqBlockNumber; Called ReqBlockNumber;
     Called (ReqLogs 100 109); Slept 1500;
     Called (ReqLogs 100 109); Slept 3000;
     Called (ReqLogs 100 109); Slept 6000;
     Called (ReqLogs 100 109); Slept 12000]
    seeded_world.

(** The two passes overlapped: the second one runs to its end while the
    first one sleeps, then the first one wakes up. *)
Definition overlapped_world : World :=
  fst (resume_pass default_config busy_chain no_abi 4 28 4 100 128
         (pass default_config busy_chain no_abi asleep_world)).

(** The field names that the projection asks [getArg] for. *)
Definition projection_fields : list string :=
  ["newStage"; "voter"; "weight"; "proposalId"; "winningProposalId"].

(** The text U+00A0 "7": a no-break space, then the digit. *)
Definition nbsp_seven : string :=
  String (ascii_of_N 194) (String (ascii_of_N 160) "7").

(** * Properties *)

(** ** JavaScript numbers: known values *)

Example number_of_decimal_text :
  StringToNumber "9007199254740993" = of_Z 9007199254740992 ∧
  StringToNumber " 12 " = of_Z 12 ∧
  StringToNumber "0x1F" = of_Z 31 ∧
  StringToNumber "" = zero ∧
  StringToNumber "1e3" = of_Z 1000 ∧
  StringToNumber "abc" = nan ∧
  StringToNumber "." = nan ∧
  StringToNumber "0.5" = div one (of_Z 2).
Proof. vm_compute. repeat split. Qed.

Example number_toString :
  toString (add (StringToNumber "0.1") (StringToNumber "0.2")) =
    "0.30000000000000004" ∧
  toString (of_Z (2 ^ 53)) = "9007199254740992" ∧
  toString (of_Z (2 ^ 64)) = "18446744073709552000" ∧
  toString (of_Z (2 ^ 70)) = "1.1805916207174113e+21" ∧
  toString (StringToNumber "5e-324") = "5e-324" ∧
  toString (StringToNumber "0.000001") = "0.000001" ∧
  toString (StringToNumber "1e-7") = "1e-7" ∧
  toString (div one (of_Z 3)) = "0.3333333333333333" ∧
  toString (StringToNumber "-1.5e3") = "-1500" ∧
  toString nan = "NaN".
Proof. vm_compute. repeat split. Qed.

Example number_toFixed :
  toFixed (div one (of_Z 3)) 4 = "0.3333" ∧
  toFixed (div (of_Z 2) (of_Z 3)) 4 = "0.6667" ∧
  toFixed (div one (of_Z 20000)) 4 = "0.0001" ∧
  toFixed (div one (of_Z 32)) 4 = "0.0313" ∧
  toFixed one 4 = "1.0000" ∧
  toFixed zero 4 = "0.0000" ∧
  toFixed (StringToNumber "1.005") 2 = "1.00".
Proof. vm_compute. repeat split. Qed.

Example rate_limit_signals :
  isRateLimitError error_429 = true ∧
  isRateLimitError error_bad_range = false ∧
  isRateLimitError
    {| error := None;
       own := {| code := None;
                 message := Some "exceeded its compute units per second capacity" |} |}
  = true ∧
  isRateLimitError (prisma_error "P2002") = false.
Proof. vm_compute. repeat split. Qed.

(** *** Integers below 2^53 are exact doubles *)

Lemma digits2_pos_bounds (p : positive) :
  2 ^ (Zpos (digits2_pos p) - 1) ≤ Zpos p < 2 ^ Zpos (digits2_pos p).
Proof.
  induction p as [p IH | p IH |]; simpl digits2_pos.
  - rewrite Pos2Z.inj_succ.
    replace (Z.succ (Zpos (digits2_pos p)) - 1)
      with (Z.succ (Zpos (digits2_pos p) - 1)) by lia.
    rewrite !Z.pow_succ_r by lia. lia.
  - rewrite Pos2Z.inj_succ.
    replace (Z.succ (Zpos (digits2_pos p)) - 1)
      with (Z.succ (Zpos (digits2_pos p) - 1)) by lia.
    rewrite !Z.pow_succ_r by lia. lia.
  - simpl. lia.
Qed.

Lemma digits2_pos_small (p : positive) :
  Zpos p < 2 ^ 53 → Zpos (digits2_pos p) ≤ 53.
Proof.
  intros H. pose proof (digits2_pos_bounds p) as [Hlo _].
  destruct (Z_le_gt_dec (Zpos (digits2_pos p)) 53) as [|Hgt]; [assumption |].
  exfalso.
  assert (2 ^ 53 ≤ 2 ^ (Zpos (digits2_pos p) - 1))
    by (apply Z.pow_le_mono_r; lia).
  lia.
Qed.

Lemma digits2_pos_iter (n p : positive) :
  digits2_pos (Pos.iter xO p n) = (digits2_pos p + n)%positive.
Proof.
  induction n as [|n IH] using Pos.peano_ind.
  - simpl. lia.
  - rewrite Pos.iter_succ. simpl. rewrite IH. lia.
Qed.

(** A 53-bit mantissa with an exponent in range is not rounded. *)
Lemma binary_round_aux_exact (s : bool) (m : positive) (e : Z) :
  Zpos (digits2_pos m) = 53 → -1074 ≤ e ≤ 971 →
  binary_round_aux 53 1024 s (Zpos m) e loc_Exact = S754_finite s m e.
Proof.
  intros Hd He.
  assert (Hshift : fexp 53 1024 (Zdigits2 (Zpos m) + e) - e = 0).
  { unfold fexp, emin. simpl Zdigits2. rewrite Hd.
    change IntDef.Z.max with Z.max. change IntDef.Z.sub with Z.sub. lia. }
  unfold binary_round_aux, shr_fexp. rewrite Hshift.
  cbn [shr shr_record_of_loc shr_m loc_of_shr_record round_nearest_even].
  rewrite Hshift. cbn [shr shr_record_of_loc shr_m].
  replace (e <=? 1024 - 53) with true by (symmetry; apply Z.leb_le; lia).
  reflexivity.
Qed.

(** [of_Z z] for [0 < z < 2^53] is a finite double of value exactly [z]. *)
Lemma of_Z_exact (z : Z) :
  0 < z < 2 ^ 53 →
  ∃ m e, of_Z z = S754_finite false m e ∧ Zpos m = z * 2 ^ (- e) ∧ e ≤ 0.
Proof.
  intros [Hpos Hlt]. destruct z as [|p|p]; try lia.
  pose proof (digits2_pos_small p Hlt) as Hd.
  unfold of_Z, prec, emax, binary_normalize, binary_round, shl_align, fexp, emin.
  set (d := digits2_pos p) in *.
  replace (Z.max (Zpos d + 0 - 53) (3 - 1024 - 53)) with (Zpos d - 53) by lia.
  destruct (Zpos d - 53 - 0) as [|q|q] eqn:Hq; [ | lia | ].
  - exists p, 0. split; [| split; [simpl; lia | lia]].
    apply binary_round_aux_exact; [fold d; lia | lia].
  - exists (Pos.iter xO p q), (Zpos d - 53). split; [| split; [| lia]].
    + apply binary_round_aux_exact; [| lia].
      rewrite digits2_pos_iter. fold d. lia.
    + replace (- (Zpos d - 53)) with (Zpos q) by lia.
      change (Pos.iter xO p q) with (shift_pos q p).
      rewrite shift_pos_correct, Zpower_pos_nat, Zpower_nat_Z, positive_nat_Z.
      lia.
Qed.

(** ** The retry wrapper *)

Lemma withRetry_loop_policy cfg {T} (r : Request) (outcome : nat → JsError + T) :
  ∀ (k fuel : nat) (a : Z) (w : World),
    a + Z.of_nat fuel = RPC_MAX_RETRIES cfg →
    (k ≤ fuel)%nat →
    (∀ i, (i < k)%nat → rate_limited outcome (rpc_calls w + i)) →
    let w' := after_calls w (S k) (retry_trace cfg r a k) in
    (∀ v, outcome (rpc_calls w + k)%nat = inr v →
          withRetry_loop cfg fuel (rpc r outcome) a w = (w', Ok v)) ∧
    (∀ e, outcome (rpc_calls w + k)%nat = inl e →
          isRateLimitError e = false ∨ k = fuel →
          withRetry_loop cfg fuel (rpc r outcome) a w = (w', Throw e)).
Proof.
  induction k as [|k IH]; intros fuel a w Hmax Hk Hrl w'.
  - assert (Hw : w' = {| db := db w; rpc_calls := S (rpc_calls w);
                         trace := trace w ++ [Called r] |}).
    { unfold w', after_calls. f_equal. lia. }
    rewrite Hw. replace (rpc_calls w + 0)%nat with (rpc_calls w) by lia.
    split.
    + intros v Hv. destruct fuel; simpl; unfold rpc; rewrite Hv; reflexivity.
    + intros e He Hstop.
      destruct fuel as [|fuel]; simpl; unfold rpc; rewrite He.
      * replace (RPC_MAX_RETRIES cfg <=? a) with true
          by (symmetry; apply Z.leb_le; lia).
        rewrite orb_true_r. reflexivity.
      * destruct Hstop as [Hn|Hn]; [|discriminate]. rewrite Hn. reflexivity.
  - destruct fuel as [|fuel]; [lia|].
    destruct (Hrl 0%nat) as (e0 & He0 & Hlim); [lia|].
    replace (rpc_calls w + 0)%nat with (rpc_calls w) in He0 by lia.
    set (w1 := observe (Slept (waitMs cfg a))
                 {| db := db w; rpc_calls := S (rpc_calls w);
                    trace := trace w ++ [Called r] |}).
    assert (Hstep : ∀ res,
               withRetry_loop cfg fuel (rpc r outcome) (a + 1) w1 = res →
               withRetry_loop cfg (S fuel) (rpc r outcome) a w = res).
    { intros res <-. simpl. unfold rpc at 1. rewrite He0, Hlim. simpl.
      replace (RPC_MAX_RETRIES cfg <=? a) with false
        by (symmetry; apply Z.leb_gt; lia).
      reflexivity. }
    assert (Hw : w' = after_calls w1 (S k) (retry_trace cfg r (a + 1) k)).
    { unfold w', w1, after_calls, observe. simpl. f_equal; [lia|].
      rewrite <- !app_assoc. reflexivity. }
    destruct (IH fuel (a + 1) w1) as [IHok IHerr]; [lia | lia | |].
    { intros i Hi. specialize (Hrl (S i) ltac:(lia)).
      unfold w1, observe. simpl.
      replace (S (rpc_calls w + i)) with (rpc_calls w + S i)%nat by lia.
      exact Hrl. }
    rewrite Hw. split.
    + intros v Hv. apply Hstep, IHok. unfold w1, observe. simpl.
      replace (S (rpc_calls w + k)) with (rpc_calls w + S k)%nat by lia.
      exact Hv.
    + intros e He Hstop. apply Hstep, IHerr.
      * unfold w1, observe. simpl.
        replace (S (rpc_calls w + k)) with (rpc_calls w + S k)%nat by lia.
        exact He.
      * destruct Hstop as [Hn|Hn]; [left; exact Hn | right; lia].
Qed.

(** C6. Retry policy of [withRetry]. When the first [k] requests
    ([k <= RPC_MAX_RETRIES]) fail with a rate-limit error, request number [a]
    (from 0) is followed by a sleep of [min(base * 2^a, cap)] and a retry.
    Then: a success at request [k] is returned unchanged; an error that is
    not a rate-limit signal propagates at once (for [k = 0]: with no retry
    and no sleep at all); and when [k] is the retry cap, the rate-limit
    error of the last request propagates. *)
Theorem withRetry_policy cfg {T} (r : Request) (outcome : nat → JsError + T)
    (w : World) (k : nat) :
  Z.of_nat k ≤ RPC_MAX_RETRIES cfg →
  (∀ i, (i < k)%nat → rate_limited outcome (rpc_calls w + i)) →
  let w' := after_calls w (S k) (retry_trace cfg r 0 k) in
  (∀ v, outcome (rpc_calls w + k)%nat = inr v →
        withRetry cfg (rpc r outcome) w = (w', Ok v)) ∧
  (∀ e, outcome (rpc_calls w + k)%nat = inl e →
        isRateLimitError e = false →
        withRetry cfg (rpc r outcome) w = (w', Throw e)) ∧
  (∀ e, outcome (rpc_calls w + k)%nat = inl e →
        Z.of_nat k = RPC_MAX_RETRIES cfg →
        withRetry cfg (rpc r outcome) w = (w', Throw e)).
Proof.
  intros Hk Hrl w'. unfold withRetry.
  destruct (withRetry_loop_policy cfg r outcome k
              (Z.to_nat (RPC_MAX_RETRIES cfg)) 0 w) as [Hok Herr];
    [lia | lia | exact Hrl |].
  split; [exact Hok | split].
  - intros e He Hn. apply Herr; [exact He | left; exact Hn].
  - intros e He Hn. apply Herr; [exact He | right; lia].
Qed.

Lemma withRetry_policy_witness :
  withRetry default_config (rpc ReqBlockNumber flaky_tip) fresh_world =
  ({| db := empty_db; rpc_calls := 3;
      trace := [Called ReqBlockNumber; Slept 1500;
                Called ReqBlockNumber; Slept 3000;
                Called ReqBlockNumber] |}, Ok 130).
Proof.
  apply (withRetry_policy default_config ReqBlockNumber flaky_tip fresh_world 2).
  - simpl. lia.
  - intros i Hi. exists error_429. split; [|reflexivity].
    destruct i as [|[|i]]; [reflexivity | reflexivity | lia].
  - reflexivity.
Defined.

(** ** Store writes *)

Arguments StringToNumber : simpl never.
Arguments toString : simpl never.
Arguments toLowerCase : simpl never.
Arguments add : simpl never.
Arguments of_Z : simpl never.

Lemma quiet_refl w : quiet w w.
Proof.
  repeat split. exists []. rewrite app_nil_r. split; [reflexivity | constructor].
Qed.

Lemma quiet_trans w1 w2 w3 : quiet w1 w2 → quiet w2 w3 → quiet w1 w3.
Proof.
  intros (Hc1 & Hk1 & o1 & Ht1 & Hf1) (Hc2 & Hk2 & o2 & Ht2 & Hf2).
  repeat split; [congruence | congruence |].
  exists (o1 ++ o2). split.
  - rewrite Ht2, Ht1, app_assoc. reflexivity.
  - apply Forall_app. split; [exact Hf1 | rewrite <- Hk1; exact Hf2].
Qed.

Lemma quiet_write (f : Db → Db) w :
  contractSyncState (f (db w)) = contractSyncState (db w) →
  quiet w (fst (write f w)).
Proof.
  intros Hf. repeat split; [exact Hf |].
  exists [Wrote (f (db w))]. split; [reflexivity |].
  constructor; [exact Hf | constructor].
Qed.

(** Splits the projection into its branches: the event kind, then every
    guard on a field ([Number.isFinite], the voter being present and not
    empty), and runs the writes of the branch. *)
Ltac projection_cases a :=
  repeat case_bool_decide;
  repeat (simpl;
          match goal with
          | |- context [isFinite ?x] => destruct (isFinite x) eqn:?
          | |- context [getArg a "voter" 0] =>
              destruct (getArg a "voter" 0) eqn:?
          | |- context [bool_decide ?P] => destruct (bool_decide P) eqn:?
          end);
  simpl.

(** The projection always completes, touches neither the ledger nor the
    cursor, and talks to the store only. *)
Lemma applyReadModelProjection_quiet n a bn tx w :
  ∃ w', applyReadModelProjection n a bn tx w = (w', Ok tt) ∧
        quiet w w' ∧ onChainEvent (db w') = onChainEvent (db w).
Proof.
  unfold applyReadModelProjection, quiet.
  projection_cases a;
    (eexists; split; [reflexivity |]; simpl; repeat split;
     eexists; split; [rewrite <- ?app_assoc; reflexivity |];
     repeat constructor).
Qed.

(** ** Recording a log *)

Section Recording.

Variable parseLog : list string → string → ParseOutcome.

Lemma indexLog_duplicate ev w :
  recorded (db w) ev → indexLog parseLog ev w = (w, Ok tt).
Proof.
  intros [row Hrow]. unfold indexLog, catch, bind, onChainEvent_create.
  destruct (decodeLog parseLog ev) as [n a]. unfold log_key in Hrow.
  rewrite Hrow. reflexivity.
Qed.

Lemma indexLog_new ev w :
  onChainEvent (db w) !! log_key ev = None →
  indexLog parseLog ev w =
  applyReadModelProjection (fst (decodeLog parseLog ev))
    (snd (decodeLog parseLog ev)) (blockNumber ev) (transactionHash ev)
    (fst (write (record_event parseLog ev) w)).
Proof.
  intros Hnone. unfold indexLog, catch, bind, onChainEvent_create.
  unfold record_event, ledger_row.
  destruct (decodeLog parseLog ev) as [n a]. unfold log_key in Hnone.
  rewrite Hnone. reflexivity.
Qed.

Lemma indexLog_quiet ev w :
  ∃ w', indexLog parseLog ev w = (w', Ok tt) ∧ quiet w w' ∧
        onChainEvent (db w) ⊆ onChainEvent (db w') ∧ recorded (db w') ev.
Proof.
  destruct (onChainEvent (db w) !! log_key ev) as [row|] eqn:Hk.
  - exists w. split; [apply indexLog_duplicate; eexists; exact Hk |].
    split; [apply quiet_refl |]. split; [reflexivity | eexists; exact Hk].
  - rewrite (indexLog_new _ _ Hk).
    set (w1 := fst (write (record_event parseLog ev) w)).
    destruct (applyReadModelProjection_quiet
                (fst (decodeLog parseLog ev)) (snd (decodeLog parseLog ev))
                (blockNumber ev) (transactionHash ev) w1)
      as (w' & Hrun & Hq & Hledger).
    exists w'. split; [exact Hrun |]. split; [| split].
    + eapply quiet_trans; [| exact Hq]. apply quiet_write. reflexivity.
    + rewrite Hledger. simpl. apply insert_subseteq. exact Hk.
    + unfold recorded. rewrite Hledger. simpl. rewrite lookup_insert_eq.
      eexists; reflexivity.
Qed.

Lemma forLogs_quiet logs : ∀ w,
  ∃ w', forLogs parseLog logs w = (w', Ok tt) ∧ quiet w w' ∧
        onChainEvent (db w) ⊆ onChainEvent (db w') ∧
        Forall (recorded (db w')) logs.
Proof.
  induction logs as [|ev logs IH]; intros w.
  - exists w. split; [reflexivity |]. split; [apply quiet_refl |].
    split; [reflexivity | constructor].
  - destruct (indexLog_quiet ev w) as (w1 & Hrun1 & Hq1 & Hsub1 & Hrec1).
    destruct (IH w1) as (w2 & Hrun2 & Hq2 & Hsub2 & Hrec2).
    exists w2. split; [| split; [| split]].
    + simpl. unfold bind. rewrite Hrun1. exact Hrun2.
    + eapply quiet_trans; eassumption.
    + etransitivity; eassumption.
    + constructor; [| exact Hrec2].
      destruct Hrec1 as [row Hrow]. exists row.
      eapply lookup_weaken; eassumption.
Qed.

Lemma forLogs_replay logs : ∀ w,
  Forall (recorded (db w)) logs → forLogs parseLog logs w = (w, Ok tt).
Proof.
  induction logs as [|ev logs IH]; intros w Hall; [reflexivity |].
  inversion Hall as [|? ? Hev Hrest]; subst.
  simpl. unfold bind. rewrite (indexLog_duplicate _ _ Hev). apply IH, Hrest.
Qed.

Lemma set_contractSyncState_same d c :
  contractSyncState d = c → set_contractSyncState c d = d.
Proof. intros <-. destruct d; reflexivity. Qed.

(** After one replay every log of the range is in the ledger and the cursor
    row, when there is one, holds [toBlock]. *)
Lemma replay_done logs toBlock w :
  let w1 := replay parseLog logs toBlock w in
  Forall (recorded (db w1)) logs ∧
  (contractSyncState (db w1) = Some toBlock ∨ contractSyncState (db w1) = None).
Proof.
  unfold replay, indexRange, bind.
  destruct (forLogs_quiet logs w) as (w1 & Hrun & Hq & Hsub & Hrec).
  rewrite Hrun. unfold contractSyncState_update.
  destruct (contractSyncState (db w1)) as [c|] eqn:Hc; simpl.
  - split; [exact Hrec | left; reflexivity].
  - split; [exact Hrec | right; exact Hc].
Qed.

Lemma replay_again logs toBlock w :
  Forall (recorded (db w)) logs →
  contractSyncState (db w) = Some toBlock ∨ contractSyncState (db w) = None →
  db (replay parseLog logs toBlock w) = db w.
Proof.
  intros Hrec Hc. unfold replay, indexRange, bind.
  rewrite (forLogs_replay _ _ Hrec). unfold contractSyncState_update.
  destruct Hc as [Hc|Hc]; rewrite Hc; simpl; [| reflexivity].
  apply set_contractSyncState_same, Hc.
Qed.

(** C1. Idempotent apply. A log whose key is already in the ledger is a
    no-op of [indexLog] (the duplicate-key conflict is swallowed, nothing is
    projected); a log with a fresh key is recorded and then projected. So
    replaying the same range any number of times leaves the whole database,
    hence the snapshot, voter, vote and proposal tables, as one replay
    leaves it. *)
Theorem replay_idempotent :
  (∀ ev w, recorded (db w) ev → indexLog parseLog ev w = (w, Ok tt)) ∧
  (∀ ev w, onChainEvent (db w) !! log_key ev = None →
     indexLog parseLog ev w =
     applyReadModelProjection (fst (decodeLog parseLog ev))
       (snd (decodeLog parseLog ev)) (blockNumber ev) (transactionHash ev)
       (fst (write (record_event parseLog ev) w))) ∧
  (∀ logs toBlock w n,
     db (Nat.iter (S n) (replay parseLog logs toBlock) w) =
     db (replay parseLog logs toBlock w)).
Proof.
  split; [exact indexLog_duplicate |]. split; [exact indexLog_new |].
  intros logs toBlock w n.
  destruct (replay_done logs toBlock w) as [Hrec Hc].
  set (w1 := replay parseLog logs toBlock w) in *.
  induction n as [|n IH]; [reflexivity |].
  change (Nat.iter (S (S n)) (replay parseLog logs toBlock) w)
    with (replay parseLog logs toBlock
            (Nat.iter (S n) (replay parseLog logs toBlock) w)).
  rewrite replay_again; [exact IH | rewrite IH; exact Hrec | rewrite IH; exact Hc].
Qed.

End Recording.

(** ** The projection *)

Lemma projection_completes n a bn tx w :
  snd (applyReadModelProjection n a bn tx w) = Ok tt.
Proof.
  destruct (applyReadModelProjection_quiet n a bn tx w) as (w' & Hrun & _).
  rewrite Hrun. reflexivity.
Qed.

Lemma projection_lastIndexedBlock n a bn tx w :
  lastIndexedBlock <$> ballotSnapshot (projected n a bn tx w) = Some bn.
Proof.
  unfold projected, applyReadModelProjection.
  projection_cases a; destruct (ballotSnapshot (db w)); reflexivity.
Qed.

Lemma projected_StageChanged a bn tx w v :
  getArg a "newStage" 0 = Some v →
  isFinite (StringToNumber v) = true →
  let s := snapshot_or_default (db w) in
  projected "StageChanged" a bn tx w =
  set_ballotSnapshot
    (Some {| lastIndexedBlock := bn; stage := StringToNumber v;
             totalVoters := totalVoters s; totalVotes := totalVotes s;
             winnerComputed := winnerComputed s;
             winningProposalId := winningProposalId s |}) (db w).
Proof.
  intros Hv Hfin. unfold projected, applyReadModelProjection, snapshot_or_default.
  simpl. rewrite Hv. simpl. rewrite Hfin. simpl.
  destruct (ballotSnapshot (db w)); reflexivity.
Qed.

Lemma projected_Finalized a bn tx w v :
  getArg a "winningProposalId" 0 = Some v →
  isFinite (StringToNumber v) = true →
  let s := snapshot_or_default (db w) in
  projected "Finalized" a bn tx w =
  set_ballotSnapshot
    (Some {| lastIndexedBlock := bn; stage := stage s;
             totalVoters := totalVoters s; totalVotes := totalVotes s;
             winnerComputed := true;
             winningProposalId := StringToNumber v |}) (db w).
Proof.
  intros Hv Hfin. unfold projected, applyReadModelProjection, snapshot_or_default.
  simpl. rewrite Hv. simpl. rewrite Hfin. simpl.
  destruct (ballotSnapshot (db w)); reflexivity.
Qed.

Lemma projected_unknown n a bn tx w :
  ¬ known_kind n →
  let s := snapshot_or_default (db w) in
  projected n a bn tx w =
  set_ballotSnapshot
    (Some {| lastIndexedBlock := bn; stage := stage s;
             totalVoters := totalVoters s; totalVotes := totalVotes s;
             winnerComputed := winnerComputed s;
             winningProposalId := winningProposalId s |}) (db w).
Proof.
  intros Hn. unfold known_kind in Hn.
  unfold projected, applyReadModelProjection, snapshot_or_default.
  repeat case_bool_decide; try tauto.
  simpl. unfold snapshot_upsert. destruct (ballotSnapshot (db w)); reflexivity.
Qed.

Lemma projected_VoterRegistered a bn tx w v :
  getArg a "voter" 0 = Some v → v ≠ "" →
  let s := snapshot_or_default (db w) in
  let wt := match getArg a "weight" 1 with
            | Some x => StringToNumber x
            | None => one
            end in
  projected "VoterRegistered" a bn tx w =
  set_ballotSnapshot
    (Some {| lastIndexedBlock := bn; stage := stage s;
             totalVoters := totalVoters s + 1; totalVotes := totalVotes s;
             winnerComputed := winnerComputed s;
             winningProposalId := winningProposalId s |})
    (register_voter (toLowerCase v) wt bn (db w)).
Proof.
  intros Hv Hne. unfold projected, applyReadModelProjection, snapshot_or_default.
  simpl. rewrite Hv. rewrite bool_decide_eq_false_2 by exact Hne. simpl.
  destruct (ballotSnapshot (db w)); reflexivity.
Qed.

Lemma projected_VoteCast a bn tx w v :
  getArg a "voter" 0 = Some v →
  isFinite (Number_of (getArg a "proposalId" 1)) = true →
  let s := snapshot_or_default (db w) in
  let p := Number_of (getArg a "proposalId" 1) in
  let wt := Number_of (getArg a "weight" 2) in
  projected "VoteCast" a bn tx w =
  set_ballotSnapshot
    (Some {| lastIndexedBlock := bn; stage := stage s;
             totalVoters := totalVoters s; totalVotes := totalVotes s + 1;
             winnerComputed := winnerComputed s;
             winningProposalId := winningProposalId s |})
    (upsert_proposal p (next_voteCount (proposal (db w) !! p) wt)
       (mark_voted (toLowerCase v) wt bn
          (upsert_vote (toLowerCase v) p wt tx bn (db w)))).
Proof.
  intros Hv Hfin. unfold projected, applyReadModelProjection, snapshot_or_default.
  simpl. rewrite Hv. simpl. rewrite Hfin. simpl.
  destruct (ballotSnapshot (db w)); reflexivity.
Qed.

(** C2. The transition recipe of the projection, for a decoded event with
    arguments [a] at block [bn] in transaction [tx]. Every kind completes and
    leaves [lastIndexedBlock = bn]. [StageChanged] sets the stage;
    [VoterRegistered] upserts the voter row and adds 1 to [totalVoters];
    [VoteCast] upserts the voter's vote row, sets [hasVoted], adds the weight
    to the proposal's [voteCount] (a JavaScript number addition, written back
    as text) and adds 1 to [totalVotes]; [Finalized] sets the winner; any
    other kind changes nothing but [lastIndexedBlock]. *)
Theorem projection_recipe (a : ArgsJson) (bn : Z) (tx : string) (w : World) :
  let d := db w in
  let s := snapshot_or_default d in
  let after n := projected n a bn tx w in
  (∀ n, snd (applyReadModelProjection n a bn tx w) = Ok tt ∧
        lastIndexedBlock <$> ballotSnapshot (after n) = Some bn) ∧
  (∀ v, getArg a "newStage" 0 = Some v →
        isFinite (StringToNumber v) = true →
        after "StageChanged" =
        set_ballotSnapshot
          (Some {| lastIndexedBlock := bn; stage := StringToNumber v;
                   totalVoters := totalVoters s; totalVotes := totalVotes s;
                   winnerComputed := winnerComputed s;
                   winningProposalId := winningProposalId s |}) d) ∧
  (∀ v, getArg a "voter" 0 = Some v → v ≠ "" →
        let wt := match getArg a "weight" 1 with
                  | Some x => StringToNumber x
                  | None => one
                  end in
        let d' := after "VoterRegistered" in
        voter d' =
        <[toLowerCase v :=
            {| weight := wt;
               hasVoted := default false (hasVoted <$> voter d !! toLowerCase v);
               registeredAtBlock := Some bn; lastUpdatedBlock := bn |}]>
          (voter d) ∧
        ballotSnapshot d' =
        Some {| lastIndexedBlock := bn; stage := stage s;
                totalVoters := totalVoters s + 1; totalVotes := totalVotes s;
                winnerComputed := winnerComputed s;
                winningProposalId := winningProposalId s |} ∧
        vote d' = vote d ∧ proposal d' = proposal d) ∧
  (∀ v, getArg a "voter" 0 = Some v →
        let p := Number_of (getArg a "proposalId" 1) in
        let wt := Number_of (getArg a "weight" 2) in
        isFinite p = true →
        let d' := after "VoteCast" in
        vote d' =
        <[toLowerCase v :=
            {| vote_proposalId := p; vote_weight := wt; vote_txHash := tx;
               vote_blockNumber := bn |}]> (vote d) ∧
        hasVoted <$> voter d' !! toLowerCase v = Some true ∧
        (∀ k, k ≠ toLowerCase v → voter d' !! k = voter d !! k) ∧
        voteCount <$> proposal d' !! p =
        Some (toString
                (add (match proposal d !! p with
                      | Some old => StringToNumber (voteCount old)
                      | None => zero
                      end)
                     (if isFinite wt then wt else zero))) ∧
        (∀ q, q ≠ p → proposal d' !! q = proposal d !! q) ∧
        ballotSnapshot d' =
        Some {| lastIndexedBlock := bn; stage := stage s;
                totalVoters := totalVoters s; totalVotes := totalVotes s + 1;
                winnerComputed := winnerComputed s;
                winningProposalId := winningProposalId s |}) ∧
  (∀ v, getArg a "winningProposalId" 0 = Some v →
        isFinite (StringToNumber v) = true →
        after "Finalized" =
        set_ballotSnapshot
          (Some {| lastIndexedBlock := bn; stage := stage s;
                   totalVoters := totalVoters s; totalVotes := totalVotes s;
                   winnerComputed := true;
                   winningProposalId := StringToNumber v |}) d) ∧
  (∀ n, ¬ known_kind n →
        after n =
        set_ballotSnapshot
          (Some {| lastIndexedBlock := bn; stage := stage s;
                   totalVoters := totalVoters s; totalVotes := totalVotes s;
                   winnerComputed := winnerComputed s;
                   winningProposalId := winningProposalId s |}) d).
Proof.
  intros d s after. unfold after.
  split; [intros n; split;
          [apply projection_completes | apply projection_lastIndexedBlock] |].
  split; [intros v Hv Hfin; apply projected_StageChanged; assumption |].
  split.
  { intros v Hv Hne.
    rewrite (projected_VoterRegistered a bn tx w v Hv Hne). simpl.
    repeat split. fold d.
    destruct (voter d !! toLowerCase v); reflexivity. }
  split.
  { intros v Hv Hfin.
    rewrite (projected_VoteCast a bn tx w v Hv Hfin). simpl. fold d.
    set (p := Number_of (getArg a "proposalId" 1)).
    split; [reflexivity |]. split.
    { rewrite lookup_insert_eq. simpl.
      destruct (voter d !! toLowerCase v); reflexivity. }
    split; [intros k Hk; apply lookup_insert_ne; congruence |].
    split.
    { rewrite lookup_insert_eq. unfold next_voteCount.
      destruct (proposal d !! p); reflexivity. }
    split; [intros q Hq; apply lookup_insert_ne; congruence | reflexivity]. }
  split; [intros v Hv Hfin; apply projected_Finalized; assumption |].
  intros n Hn. apply projected_unknown; assumption.
Qed.

Lemma projection_recipe_witness :
  stage <$> ballotSnapshot
              (projected "StageChanged"
                 (args_of [ArgBigInt 1; ArgBigInt 1700000000]) 105 "0xt1"
                 seeded_world) = Some one ∧
  totalVoters <$> ballotSnapshot
              (projected "VoterRegistered" (args_of [ArgText alice; ArgBigInt 1])
                 107 "0xt2" seeded_world) = Some 1 ∧
  voteCount <$> proposal
              (projected "VoteCast"
                 (args_of [ArgText alice; ArgBigInt 0; ArgBigInt 2]) 108 "0xt3"
                 seeded_world) !! zero = Some "2" ∧
  winnerComputed <$> ballotSnapshot
              (projected "Finalized"
                 (args_of [ArgBigInt 0; ArgBigInt 2; ArgBigInt 1700000000])
                 120 "0xt4" seeded_world) = Some true ∧
  ballotSnapshot (projected "Paused" (args_of []) 121 "0xt5" seeded_world) =
  Some {| lastIndexedBlock := 121; stage := zero; totalVoters := 0;
          totalVotes := 0; winnerComputed := false;
          winningProposalId := zero |}.
Proof.
  repeat apply conj.
  - destruct (projection_recipe (args_of [ArgBigInt 1; ArgBigInt 1700000000])
                105 "0xt1" seeded_world) as (_ & Hstage & _).
    rewrite (Hstage "1"); reflexivity.
  - destruct (projection_recipe (args_of [ArgText alice; ArgBigInt 1])
                107 "0xt2" seeded_world) as (_ & _ & Hreg & _).
    destruct (Hreg alice) as (_ & Hsnap & _);
      [reflexivity | discriminate |].
    rewrite Hsnap. reflexivity.
  - destruct (projection_recipe
                (args_of [ArgText alice; ArgBigInt 0; ArgBigInt 2])
                108 "0xt3" seeded_world) as (_ & _ & _ & Hvote & _).
    destruct (Hvote alice) as (_ & _ & _ & Hcount & _);
      [reflexivity | reflexivity |].
    refine (eq_trans Hcount _). vm_compute. reflexivity.
  - destruct (projection_recipe
                (args_of [ArgBigInt 0; ArgBigInt 2; ArgBigInt 1700000000])
                120 "0xt4" seeded_world) as (_ & _ & _ & _ & Hfin & _).
    rewrite (Hfin "0"); reflexivity.
  - destruct (projection_recipe (args_of []) 121 "0xt5" seeded_world)
      as (_ & _ & _ & _ & _ & Hunk).
    rewrite Hunk; [reflexivity |].
    unfold known_kind. intros [H|[H|[H|H]]]; discriminate.
Defined.

(** C9. A vote seen before the registration of its voter: when the voter has
    no row, [VoteCast] creates it with [hasVoted = true], no
    [registeredAtBlock], [lastUpdatedBlock] the event's block, and the
    vote's weight when that is finite, else 1. *)
Theorem vote_before_registration (a : ArgsJson) (bn : Z) (tx : string)
    (w : World) (v : string) :
  getArg a "voter" 0 = Some v →
  isFinite (Number_of (getArg a "proposalId" 1)) = true →
  voter (db w) !! toLowerCase v = None →
  let wt := Number_of (getArg a "weight" 2) in
  snd (applyReadModelProjection "VoteCast" a bn tx w) = Ok tt ∧
  voter (projected "VoteCast" a bn tx w) !! toLowerCase v =
  Some {| weight := if isFinite wt then wt else one; hasVoted := true;
          registeredAtBlock := None; lastUpdatedBlock := bn |}.
Proof.
  intros Hv Hfin Hrow wt. split; [apply projection_completes |].
  rewrite (projected_VoteCast a bn tx w v Hv Hfin). simpl.
  rewrite lookup_insert_eq, Hrow. reflexivity.
Qed.

Lemma vote_before_registration_witness :
  voter (projected "VoteCast"
           (args_of [ArgText alice; ArgBigInt 0; ArgBigInt 2]) 108 "0xt3"
           seeded_world) !! toLowerCase alice =
  Some {| weight := of_Z 2; hasVoted := true; registeredAtBlock := None;
          lastUpdatedBlock := 108 |}.
Proof.
  apply (vote_before_registration
           (args_of [ArgText alice; ArgBigInt 0; ArgBigInt 2]) 108 "0xt3"
           seeded_world alice); reflexivity.
Defined.

(** C5 (counterexample). The indexer takes a [VoteCast] of weight 2^53 for
    proposal 0 and then a [VoteCast] of weight 1 for it: the decoder keeps
    the weight as the text "1", the projection adds through [Number], and the
    stored count stays at 2^53 while the exact sum is 2^53 + 1. *)
Theorem voteCount_precision_lost :
  let ev := event_log 108 "0xt3" 0 "VoteCast"
              [ArgText bob; ArgBigInt 0; ArgBigInt 1] in
  let d' := db (fst (indexLog no_abi ev heavy_world)) in
  voteCount <$> proposal (db heavy_world) !! zero = Some "9007199254740992" ∧
  getArg (snd (decodeLog no_abi ev)) "weight" 2 = Some "1" ∧
  voteCount <$> proposal d' !! zero = Some "9007199254740992" ∧
  bigint_toString (9007199254740992 + 1) = "9007199254740993".
Proof. vm_compute. repeat split. Qed.

(** ** Undecodable logs *)

(** C7. A raw log that the contract interface cannot parse ([parseLog]
    throws or returns null) decodes to the kind "UnknownEvent" with an empty
    argument object; indexing it completes, the entry is in the ledger
    afterwards (under that kind when its key was new), the voter, vote and
    proposal tables are untouched and the stats answer changes at most in
    [lastIndexedBlock]. *)
Theorem decode_failure_not_fatal
    (parseLog : list string → string → ParseOutcome) (ev : Log)
    (topics : list string) (data : string) (w : World) :
  body ev = RawLog topics data →
  parseLog topics data = ParseThrows ∨ parseLog topics data = ParseNull →
  decodeLog parseLog ev = ("UnknownEvent", no_args) ∧
  ∃ w', indexLog parseLog ev w = (w', Ok tt) ∧
        recorded (db w') ev ∧
        (onChainEvent (db w) !! log_key ev = None →
         onChainEvent (db w') !! log_key ev =
         Some {| ev_blockNumber := blockNumber ev;
                 ev_blockHash := blockHash ev;
                 eventName := "UnknownEvent"; argsJson := no_args |}) ∧
        voter (db w') = voter (db w) ∧
        vote (db w') = vote (db w) ∧
        proposal (db w') = proposal (db w) ∧
        same_aggregates (getStats (db w)) (getStats (db w')).
Proof.
  intros Hbody Hparse.
  assert (Hdec : decodeLog parseLog ev = ("UnknownEvent", no_args)).
  { unfold decodeLog. rewrite Hbody. destruct Hparse as [-> | ->]; reflexivity. }
  split; [exact Hdec |].
  destruct (onChainEvent (db w) !! log_key ev) as [row|] eqn:Hk.
  - exists w. split; [apply indexLog_duplicate; eexists; exact Hk |].
    split; [eexists; exact Hk |]. split; [discriminate |].
    repeat split.
  - pose proof (indexLog_new parseLog ev w Hk) as Hrun.
    rewrite Hdec in Hrun. cbn [fst snd] in Hrun.
    set (w1 := fst (write (record_event parseLog ev) w)) in *.
    assert (Hunk : ¬ known_kind "UnknownEvent").
    { unfold known_kind. intros [H|[H|[H|H]]]; discriminate. }
    pose proof (projected_unknown "UnknownEvent" no_args (blockNumber ev)
                  (transactionHash ev) w1 Hunk) as Hdb.
    unfold projected in Hdb.
    pose proof (projection_completes "UnknownEvent" no_args (blockNumber ev)
                  (transactionHash ev) w1) as Hok.
    set (run := applyReadModelProjection "UnknownEvent" no_args
                  (blockNumber ev) (transactionHash ev) w1) in *.
    set (w' := fst run) in *.
    exists w'. split.
    { rewrite Hrun. fold run. rewrite (surjective_pairing run). rewrite Hok.
      reflexivity. }
    assert (Hrow : onChainEvent (db w') !! log_key ev =
                   Some {| ev_blockNumber := blockNumber ev;
                           ev_blockHash := blockHash ev;
                           eventName := "UnknownEvent"; argsJson := no_args |}).
    { rewrite Hdb. unfold w1. simpl. rewrite lookup_insert_eq.
      unfold ledger_row. rewrite Hdec. reflexivity. }
    split; [eexists; exact Hrow |]. split; [intros _; exact Hrow |].
    rewrite Hdb.
    unfold w1, same_aggregates, getStats, snapshot_or_default, record_event.
    simpl. destruct (ballotSnapshot (db w)); simpl; repeat split.
Qed.

Lemma decode_failure_not_fatal_witness :
  decodeLog no_abi (raw_log 109 "0xt9" 3) = ("UnknownEvent", no_args) ∧
  ∃ w', indexLog no_abi (raw_log 109 "0xt9" 3) heavy_world = (w', Ok tt) ∧
        recorded (db w') (raw_log 109 "0xt9" 3) ∧
        proposal (db w') = proposal (db heavy_world).
Proof.
  destruct (decode_failure_not_fatal no_abi (raw_log 109 "0xt9" 3)
              ["0xdeadbeef"] "0x" heavy_world)
    as (Hdec & w' & Hrun & Hrec & _ & _ & _ & Hprop & _);
    [reflexivity | left; reflexivity |].
  split; [exact Hdec |]. exists w'. repeat split; assumption.
Defined.

(** ** The cursor along a run *)

Lemma cursor_le_refl c : cursor_le c c.
Proof. destruct c; simpl; [lia | exact I]. Qed.

Lemma advancing_app c o1 : ∀ c1 o2 c2,
  advancing c o1 c1 → advancing c1 o2 c2 → advancing c (o1 ++ o2) c2.
Proof.
  revert c. induction o1 as [|o o1 IH]; intros c c1 o2 c2 H1 H2; simpl in *.
  - subst c1. exact H2.
  - destruct o; [eapply IH; eassumption | eapply IH; eassumption |].
    destruct H1 as [Hle H1]. split; [exact Hle | eapply IH; eassumption].
Qed.

Lemma advancing_not_write c obs : Forall not_write obs → advancing c obs c.
Proof.
  induction 1 as [|o obs Ho _ IH]; simpl; [reflexivity |].
  destruct o; [exact IH | exact IH | destruct Ho].
Qed.

Lemma advancing_keeps c obs : Forall (keeps_cursor c) obs → advancing c obs c.
Proof.
  induction 1 as [|o obs Ho _ IH]; simpl; [reflexivity |].
  destruct o; simpl in Ho; try contradiction.
  rewrite Ho. split; [apply cursor_le_refl | exact IH].
Qed.

Lemma advances_refl w : advances w w.
Proof. exists []. rewrite app_nil_r. split; reflexivity. Qed.

Lemma advances_trans w1 w2 w3 : advances w1 w2 → advances w2 w3 → advances w1 w3.
Proof.
  intros (o1 & Ht1 & Ha1) (o2 & Ht2 & Ha2). exists (o1 ++ o2). split.
  - rewrite Ht2, Ht1, app_assoc. reflexivity.
  - eapply advancing_app; eassumption.
Qed.

Lemma quiet_advances w w' : quiet w w' → advances w w'.
Proof.
  intros (_ & Hc & obs & Ht & Hall). exists obs. split; [exact Ht |].
  rewrite Hc. apply advancing_keeps, Hall.
Qed.

(** Talking to the RPC endpoint, with any outcomes, leaves the store alone. *)
Lemma withRetry_loop_db cfg {T} (r : Request) (outcome : nat → JsError + T) :
  ∀ fuel a w w' res,
    withRetry_loop cfg fuel (rpc r outcome) a w = (w', res) →
    db w' = db w ∧ ∃ obs, trace w' = trace w ++ obs ∧ Forall not_write obs.
Proof.
  induction fuel as [|fuel IH]; intros a w w' res; simpl; unfold rpc at 1;
    destruct (outcome (rpc_calls w)) as [e|v];
    try (intros [= <- <-]; simpl; split; [reflexivity |];
         exists [Called r]; split; [reflexivity | repeat constructor]).
  - destruct (negb (isRateLimitError e) || (RPC_MAX_RETRIES cfg <=? a));
      intros [= <- <-]; simpl; (split; [reflexivity |]);
      exists [Called r]; (split; [reflexivity | repeat constructor]).
  - destruct (negb (isRateLimitError e) || (RPC_MAX_RETRIES cfg <=? a)).
    + intros [= <- <-]; simpl. split; [reflexivity |].
      exists [Called r]. split; [reflexivity | repeat constructor].
    + unfold bind, sleep. intros Hrun. apply IH in Hrun.
      destruct Hrun as (Hdb & obs & Ht & Hall). simpl in *.
      split; [exact Hdb |].
      exists (Called r :: Slept (waitMs cfg a) :: obs). split.
      * rewrite Ht, <- !app_assoc. reflexivity.
      * repeat constructor. exact Hall.
Qed.

Lemma withRetry_rpc_advances cfg {T} (r : Request) (outcome : nat → JsError + T)
    w w' res :
  withRetry cfg (rpc r outcome) w = (w', res) →
  db w' = db w ∧ advances w w'.
Proof.
  intros Hrun. apply withRetry_loop_db in Hrun.
  destruct Hrun as (Hdb & obs & Ht & Hall). split; [exact Hdb |].
  exists obs. split; [exact Ht |]. rewrite Hdb. apply advancing_not_write, Hall.
Qed.

Section Passes.

Variable cfg : Config.
Variable chain : Chain.
Variable parseLog : list string → string → ParseOutcome.

Lemma write_cursor_advances c w :
  cursor_le (contractSyncState (db w)) (Some c) →
  advances w (fst (write (set_contractSyncState (Some c)) w)).
Proof.
  intros Hle. exists [Wrote (set_contractSyncState (Some c) (db w))].
  split; [reflexivity |]. simpl. split; [exact Hle | reflexivity].
Qed.

Lemma getOrCreateSyncState_advances w w' res :
  getOrCreateSyncState cfg chain w = (w', res) →
  advances w w' ∧ ∀ c, res = Ok c → contractSyncState (db w') = Some c.
Proof.
  unfold getOrCreateSyncState, bind.
  destruct (withRetry cfg (rpc ReqBlockNumber (getBlockNumber chain)) w)
    as [w1 [latest|e|]] eqn:Htip;
    apply withRetry_rpc_advances in Htip; destruct Htip as [Hdb Hadv].
  - destruct (contractSyncState (db w1)) as [c|] eqn:Hc.
    + intros [= <- <-]. split; [exact Hadv |]. intros c' [= <-]. exact Hc.
    + simpl. intros [= <- <-]. split.
      * eapply advances_trans; [exact Hadv |].
        apply write_cursor_advances. rewrite Hc. exact I.
      * intros c' [= <-]. reflexivity.
  - intros [= <- <-]. split; [exact Hadv | discriminate].
  - intros [= <- <-]. split; [exact Hadv | discriminate].
Qed.

Lemma indexRange_advances logs toBlock c w :
  contractSyncState (db w) = Some c → c ≤ toBlock →
  ∃ w', indexRange parseLog logs toBlock w = (w', Ok tt) ∧ advances w w' ∧
        contractSyncState (db w') = Some toBlock.
Proof.
  intros Hc Hle. unfold indexRange, bind.
  destruct (forLogs_quiet parseLog logs w) as (w1 & Hrun & Hq & _ & _).
  rewrite Hrun. unfold contractSyncState_update.
  destruct Hq as (Hcalls & Hc1 & obs & Ht & Hall).
  rewrite Hc1, Hc. eexists. split; [reflexivity |]. split; [| reflexivity].
  eapply advances_trans.
  - apply quiet_advances. split; [exact Hcalls |]. split; [exact Hc1 |].
    exists obs. split; [exact Ht | exact Hall].
  - apply write_cursor_advances. rewrite Hc1, Hc. exact Hle.
Qed.

Lemma throttle_advances w :
  advances w (fst ((if 0 <? RPC_THROTTLE_MS cfg
                    then sleep (RPC_THROTTLE_MS cfg) else ret tt) w)) ∧
  snd ((if 0 <? RPC_THROTTLE_MS cfg
        then sleep (RPC_THROTTLE_MS cfg) else ret tt) w) = Ok tt ∧
  db (fst ((if 0 <? RPC_THROTTLE_MS cfg
            then sleep (RPC_THROTTLE_MS cfg) else ret tt) w)) = db w.
Proof.
  destruct (0 <? RPC_THROTTLE_MS cfg); simpl.
  - split; [| split; reflexivity].
    exists [Slept (RPC_THROTTLE_MS cfg)]. split; reflexivity.
  - split; [apply advances_refl | split; reflexivity].
Qed.

Lemma catchUp_loop_advances safeLatest :
  1 ≤ MAX_LOG_BLOCK_RANGE cfg →
  ∀ fuel fromBlock c w w' res,
    contractSyncState (db w) = Some c → c < fromBlock →
    catchUp_loop cfg chain parseLog fuel fromBlock safeLatest w = (w', res) →
    advances w w'.
Proof.
  intros Hwidth.
  induction fuel as [|fuel IH]; intros fromBlock c w w' res Hc Hlt; simpl;
    destruct (fromBlock <=? safeLatest) eqn:Hgo;
    try (intros [= <- <-]; apply advances_refl).
  apply Z.leb_le in Hgo. unfold bind at 1.
  set (toBlock := Z.min (fromBlock + MAX_LOG_BLOCK_RANGE cfg - 1) safeLatest).
  destruct (withRetry cfg
              (rpc (ReqLogs fromBlock toBlock)
                 (λ n, queryFilter chain n fromBlock toBlock)) w)
    as [w1 [logs|e|]] eqn:Hfetch;
    apply withRetry_rpc_advances in Hfetch; destruct Hfetch as [Hdb Hadv];
    try (intros [= <- <-]; exact Hadv).
  destruct (indexRange_advances logs toBlock c w1) as (w2 & Hrun & Hadv2 & Hc2);
    [rewrite Hdb; exact Hc | unfold toBlock; lia |].
  unfold bind at 1. rewrite Hrun. unfold bind at 1.
  destruct (throttle_advances w2) as (Hadv3 & Hok3 & Hdb3).
  destruct ((if 0 <? RPC_THROTTLE_MS cfg
             then sleep (RPC_THROTTLE_MS cfg) else ret tt) w2)
    as [w3 r3] eqn:Hthrottle.
  simpl in Hadv3, Hok3, Hdb3. subst r3.
  intros Hrest. apply IH with (c := toBlock) in Hrest;
    [| rewrite Hdb3; exact Hc2 | lia].
  eapply advances_trans; [exact Hadv |].
  eapply advances_trans; [exact Hadv2 |].
  eapply advances_trans; [exact Hadv3 | exact Hrest].
Qed.

Lemma catchUpOnce_advances w :
  1 ≤ MAX_LOG_BLOCK_RANGE cfg → advances w (pass cfg chain parseLog w).
Proof.
  intros Hwidth. unfold pass, catchUpOnce, bind.
  destruct (getOrCreateSyncState cfg chain w) as [w1 [c|e|]] eqn:Hstate;
    apply getOrCreateSyncState_advances in Hstate;
    destruct Hstate as [Hadv1 Hc1]; try exact Hadv1.
  specialize (Hc1 c eq_refl).
  destruct (withRetry cfg (rpc ReqBlockNumber (getBlockNumber chain)) w1)
    as [w2 [latest|e|]] eqn:Htip;
    apply withRetry_rpc_advances in Htip; destruct Htip as [Hdb2 Hadv2];
    try (simpl; eapply advances_trans; eassumption).
  destruct (Z.max (latest - CONFIRMATIONS cfg) 0 <? c + 1).
  - simpl. eapply advances_trans; eassumption.
  - destruct (catchUp_loop cfg chain parseLog
                (Z.to_nat (Z.max (latest - CONFIRMATIONS cfg) 0 - (c + 1) + 1))
                (c + 1) (Z.max (latest - CONFIRMATIONS cfg) 0) w2)
      as [w3 r3] eqn:Hloop.
    apply catchUp_loop_advances with (c := c) in Hloop;
      [| exact Hwidth | rewrite Hdb2; exact Hc1 | lia].
    simpl. eapply advances_trans; [exact Hadv1 |].
    eapply advances_trans; eassumption.
Qed.

End Passes.

(** Against C3 as stated: the cursor write accepts a block below the
    stored one (with the cursor at 99, storing 5 succeeds and raises
    nothing); and with a negative range width a pass by itself walks the
    cursor back from 99 to 94. *)
Lemma backward_advance_is_silent :
  contractSyncState_update 5 seeded_world =
  ({| db := set_contractSyncState (Some 5) empty_db; rpc_calls := 0;
      trace := [Wrote (set_contractSyncState (Some 5) empty_db)] |}, Ok tt) ∧
  contractSyncState <$>
    seen (pass backward_config scenario_chain no_abi seeded_world) 3 =
  Some (Some 94).
Proof. split; vm_compute; reflexivity. Qed.

(** ** The order of writes within a range *)

Lemma fetched_ranges_app o1 o2 :
  fetched_ranges (o1 ++ o2) = fetched_ranges o1 ++ fetched_ranges o2.
Proof.
  induction o1 as [|o o1 IH]; [reflexivity |].
  destruct o as [[|f t]| |]; simpl; rewrite IH; reflexivity.
Qed.

Lemma fetched_ranges_writes c obs :
  Forall (keeps_cursor c) obs → fetched_ranges obs = [].
Proof.
  induction 1 as [|o obs Ho _ IH]; [reflexivity |].
  destruct o; simpl in Ho; try contradiction. exact IH.
Qed.

(** Against C8 as stated: in the scenario, a reader sees the stage change
    of block 105 (in the ledger and in the stats answer) while the cursor is
    still at 99: the range [100, 109] has not been committed. *)
Lemma uncommitted_range_is_visible :
  match seen (pass default_config scenario_chain no_abi fresh_world) 6 with
  | Some d =>
      contractSyncState d = Some 99 ∧
      ev_blockNumber <$> onChainEvent d !! ("0xt1", 0) = Some 105 ∧
      stats_stage (getStats d) = one ∧
      stats_lastIndexedBlock (getStats d) = 105
  | None => False
  end.
Proof. vm_compute. repeat split. Qed.

Lemma indexRange_trace
    (parseLog : list string → string → ParseOutcome) (logs : list Log)
    (toBlock c : Z) (w : World) :
  contractSyncState (db w) = Some c →
  ∃ w' obs,
    indexRange parseLog logs toBlock w = (w', Ok tt) ∧
    trace w' = trace w ++ obs ∧
    contractSyncState (db w') = Some toBlock ∧
    fetched_ranges obs = [].
Proof.
  intros Hc.
  destruct (forLogs_quiet parseLog logs w)
    as (w1 & Hrun & (Hcalls & Hc1 & obs & Ht & Hall) & _ & _).
  unfold indexRange, bind. rewrite Hrun. unfold contractSyncState_update.
  rewrite Hc1, Hc. unfold write.
  eexists _, (obs ++ [Wrote (set_contractSyncState (Some toBlock) (db w1))]).
  split; [reflexivity |]. simpl. split; [| split; [reflexivity |]].
  - rewrite Ht, <- app_assoc. reflexivity.
  - rewrite fetched_ranges_app, (fetched_ranges_writes _ _ Hall). reflexivity.
Qed.

(** ** The ranges of one pass *)

Section Ranges.

Variable cfg : Config.
Variable chain : Chain.
Variable parseLog : list string → string → ParseOutcome.
Variable tip : Z.
Hypothesis Hwidth : 1 ≤ MAX_LOG_BLOCK_RANGE cfg.
Hypothesis Hsteady : steady chain tip.

Lemma withRetry_first_try {T} (r : Request) (outcome : nat → JsError + T) v w :
  outcome (rpc_calls w) = inr v →
  withRetry cfg (rpc r outcome) w =
  ({| db := db w; rpc_calls := S (rpc_calls w);
      trace := trace w ++ [Called r] |}, Ok v).
Proof.
  intros Hv. unfold withRetry.
  destruct (Z.to_nat (RPC_MAX_RETRIES cfg)); simpl; unfold rpc; rewrite Hv;
    reflexivity.
Qed.

Lemma range_at_next from safe i :
  range_at (MAX_LOG_BLOCK_RANGE cfg) from safe (S i) =
  range_at (MAX_LOG_BLOCK_RANGE cfg) (from + MAX_LOG_BLOCK_RANGE cfg) safe i.
Proof. unfold range_at. f_equal; [lia | f_equal; lia]. Qed.

Lemma catchUp_loop_done fuel from safe w :
  safe < from →
  catchUp_loop cfg chain parseLog fuel from safe w = (w, Ok tt).
Proof.
  intros Hlt. destruct fuel; simpl;
    (replace (from <=? safe) with false by (symmetry; apply Z.leb_gt; lia));
    reflexivity.
Qed.

Lemma catchUp_loop_ranges safe :
  ∀ (k fuel : nat) (from c : Z) (w : World),
    contractSyncState (db w) = Some c →
    from ≤ safe →
    Z.of_nat k = (safe - from) / MAX_LOG_BLOCK_RANGE cfg + 1 →
    (k ≤ fuel)%nat →
    ∃ w' obs,
      catchUp_loop cfg chain parseLog fuel from safe w = (w', Ok tt) ∧
      trace w' = trace w ++ obs ∧
      contractSyncState (db w') = Some safe ∧
      fetched_ranges obs =
      range_at (MAX_LOG_BLOCK_RANGE cfg) from safe <$> seq 0 k.
Proof.
  set (width := MAX_LOG_BLOCK_RANGE cfg) in *.
  induction k as [|k IH]; intros fuel from c w Hc Hle Hk Hfuel.
  { pose proof (Z.div_pos (safe - from) width ltac:(lia) ltac:(lia)). lia. }
  destruct fuel as [|fuel]; [lia |].
  simpl. replace (from <=? safe) with true by (symmetry; apply Z.leb_le; lia).
  fold width. set (toBlock := Z.min (from + width - 1) safe).
  destruct Hsteady as [_ Hlogs].
  destruct (Hlogs (rpc_calls w) from toBlock) as [logs Hfetch].
  unfold bind at 1.
  rewrite (withRetry_first_try (ReqLogs from toBlock)
             (λ n, queryFilter chain n from toBlock) logs w Hfetch).
  set (w1 := {| db := db w; rpc_calls := S (rpc_calls w);
                trace := trace w ++ [Called (ReqLogs from toBlock)] |}).
  destruct (indexRange_trace parseLog logs toBlock c w1 Hc)
    as (w2 & obs2 & Hrun2 & Ht2 & Hc2 & Hquiet2).
  unfold bind at 1. rewrite Hrun2. unfold bind at 1.
  destruct (throttle_advances cfg w2) as (_ & Hok3 & Hdb3).
  destruct ((if 0 <? RPC_THROTTLE_MS cfg
             then sleep (RPC_THROTTLE_MS cfg) else ret tt) w2)
    as [w3 r3] eqn:Hthrottle.
  simpl in Hok3, Hdb3. subst r3.
  assert (Ht3 : ∃ obs3, trace w3 = trace w2 ++ obs3 ∧ fetched_ranges obs3 = []).
  { destruct (0 <? RPC_THROTTLE_MS cfg); injection Hthrottle as <-.
    - exists [Slept (RPC_THROTTLE_MS cfg)]. split; reflexivity.
    - exists []. rewrite app_nil_r. split; reflexivity. }
  destruct Ht3 as (obs3 & Ht3 & Hr3).
  destruct (Z_lt_le_dec (from + width - 1) safe) as [Hmore | Hlast].
  - (* more ranges follow *)
    assert (HtoBlock : toBlock + 1 = from + width) by (unfold toBlock; lia).
    destruct (IH fuel (from + width) toBlock w3) as (w' & obs & Hrun & Ht & Hcur & Hr);
      [rewrite Hdb3; exact Hc2 | lia | | lia |].
    { replace (safe - (from + width)) with (safe - from + (-1) * width) by lia.
      rewrite Z.div_add by lia. lia. }
    rewrite HtoBlock. exists w', (Called (ReqLogs from toBlock) :: obs2 ++ obs3 ++ obs).
    split; [exact Hrun |]. split; [| split; [exact Hcur |]].
    + rewrite Ht, Ht3, Ht2. unfold w1. simpl.
      rewrite <- !app_assoc. reflexivity.
    + simpl. rewrite !fetched_ranges_app, Hquiet2, Hr3, Hr. simpl.
      rewrite <- seq_shift, map_map. f_equal.
      * unfold range_at, toBlock. fold width. f_equal; lia.
      * apply map_ext. intros i. symmetry. apply range_at_next.
  - (* the last range *)
    assert (HtoBlock : toBlock = safe) by (unfold toBlock; lia).
    assert (Hk0 : k = 0%nat).
    { rewrite Z.div_small in Hk by lia. lia. }
    subst k. rewrite catchUp_loop_done by lia.
    exists w3, (Called (ReqLogs from toBlock) :: obs2 ++ obs3).
    split; [reflexivity |]. split; [| split].
    + rewrite Ht3, Ht2. unfold w1. simpl. rewrite <- !app_assoc. reflexivity.
    + rewrite Hdb3, Hc2, HtoBlock. reflexivity.
    + simpl. rewrite fetched_ranges_app, Hquiet2, Hr3. simpl.
      unfold range_at, toBlock. fold width. f_equal. f_equal; lia.
Qed.

End Ranges.

(** C4 (as the code has it). One pass against an endpoint that answers, with
    range width at least 1: [c] is the stored cursor (or the seed written
    when there is none), [fromBlock = c + 1] and
    [safeTip = max(tip - CONFIRMATIONS, 0)]. When [fromBlock > safeTip] the
    pass fetches no logs and leaves the database as it is (but for the
    seeded cursor row). Otherwise it fetches, in order, the ranges
    [fromBlock + i*w, min(fromBlock + i*w + w - 1, safeTip)] for
    [i = 0 .. (safeTip - fromBlock) / w], and the cursor ends at [safeTip]. *)
Theorem pass_ranges (cfg : Config) (chain : Chain)
    (parseLog : list string → string → ParseOutcome) (tip : Z) (w : World) :
  1 ≤ MAX_LOG_BLOCK_RANGE cfg →
  steady chain tip →
  let c := default (defaultStart cfg tip) (contractSyncState (db w)) in
  let fromBlock := c + 1 in
  let safeTip := Z.max (tip - CONFIRMATIONS cfg) 0 in
  ∃ w' obs,
    catchUpOnce cfg chain parseLog w = (w', Ok tt) ∧
    trace w' = trace w ++ obs ∧
    (safeTip < fromBlock →
     db w' = set_contractSyncState (Some c) (db w) ∧ fetched_ranges obs = []) ∧
    (fromBlock ≤ safeTip →
     contractSyncState (db w') = Some safeTip ∧
     fetched_ranges obs =
     backlog_ranges (MAX_LOG_BLOCK_RANGE cfg) fromBlock safeTip).
Proof.
  intros Hwidth Hsteady c fromBlock safeTip.
  pose proof Hsteady as [Htip _].
  unfold catchUpOnce, getOrCreateSyncState. unfold bind at 1. unfold bind at 1.
  rewrite (withRetry_first_try cfg ReqBlockNumber (getBlockNumber chain) tip w
             (Htip _)).
  set (w1 := {| db := db w; rpc_calls := S (rpc_calls w);
                trace := trace w ++ [Called ReqBlockNumber] |}).
  assert (Hseed : ∃ w2 obs2,
             (match contractSyncState (db w1) with
              | Some c0 => (w1, Ok c0)
              | None =>
                  (do! write (set_contractSyncState (Some (defaultStart cfg tip)))
                   in ret (defaultStart cfg tip)) w1
              end) = (w2, Ok c) ∧
             trace w2 = trace w1 ++ obs2 ∧ fetched_ranges obs2 = [] ∧
             db w2 = set_contractSyncState (Some c) (db w) ∧
             contractSyncState (db w2) = Some c).
  { unfold c. simpl. destruct (contractSyncState (db w)) as [c0|] eqn:Hc0; simpl.
    - exists w1, []. rewrite app_nil_r. repeat split; [| exact Hc0].
      simpl. symmetry. apply set_contractSyncState_same, Hc0.
    - eexists _, [Wrote (set_contractSyncState (Some (defaultStart cfg tip)) (db w))].
      repeat split. }
  destruct Hseed as (w2 & obs2 & -> & Ht2 & Hr2 & Hdb2 & Hc2).
  unfold bind at 1.
  rewrite (withRetry_first_try cfg ReqBlockNumber (getBlockNumber chain) tip w2
             (Htip _)).
  set (w3 := {| db := db w2; rpc_calls := S (rpc_calls w2);
                trace := trace w2 ++ [Called ReqBlockNumber] |}).
  fold safeTip fromBlock.
  destruct (safeTip <? fromBlock) eqn:Hgo.
  - apply Z.ltb_lt in Hgo.
    exists w3, (Called ReqBlockNumber :: obs2 ++ [Called ReqBlockNumber]).
    split; [reflexivity |]. split; [| split].
    + unfold w3. simpl. rewrite Ht2. unfold w1. simpl.
      rewrite <- !app_assoc. reflexivity.
    + intros _. split; [exact Hdb2 |].
      simpl. rewrite fetched_ranges_app, Hr2. reflexivity.
    + lia.
  - apply Z.ltb_ge in Hgo.
    pose proof (Z.div_pos (safeTip - fromBlock) (MAX_LOG_BLOCK_RANGE cfg)
                  ltac:(lia) ltac:(lia)) as Hq0.
    assert (Hq : (safeTip - fromBlock) / MAX_LOG_BLOCK_RANGE cfg
                 ≤ safeTip - fromBlock).
    { apply Z.div_le_upper_bound; [lia | nia]. }
    destruct (catchUp_loop_ranges cfg chain parseLog tip Hwidth Hsteady safeTip
                (Z.to_nat ((safeTip - fromBlock) / MAX_LOG_BLOCK_RANGE cfg + 1))
                (Z.to_nat (safeTip - fromBlock + 1)) fromBlock c w3)
      as (w' & obs & Hrun & Ht & Hcur & Hr);
      [exact Hc2 | lia | lia | lia |].
    rewrite Hrun.
    exists w', (Called ReqBlockNumber :: obs2 ++ Called ReqBlockNumber :: obs).
    split; [reflexivity |]. split; [| split].
    + rewrite Ht. unfold w3. simpl. rewrite Ht2. unfold w1. simpl.
      rewrite <- !app_assoc. reflexivity.
    + lia.
    + intros _. split; [exact Hcur |].
      simpl. rewrite fetched_ranges_app, Hr2. simpl. exact Hr.
Qed.

Lemma scenario_chain_steady : steady scenario_chain 130.
Proof. split; [reflexivity |]. intros n f t'. eexists. reflexivity. Qed.

Lemma pass_ranges_witness :
  ∃ w' obs,
    catchUpOnce default_config scenario_chain no_abi fresh_world = (w', Ok tt) ∧
    trace w' = obs ∧
    contractSyncState (db w') = Some 128 ∧
    fetched_ranges obs = [(100, 109); (110, 119); (120, 128)].
Proof.
  destruct (pass_ranges default_config scenario_chain no_abi 130 fresh_world)
    as (w' & obs & Hrun & Ht & _ & Hgo);
    [simpl; lia | exact scenario_chain_steady |].
  destruct Hgo as [Hcur Hr]; [vm_compute; discriminate |].
  exists w', obs. repeat split; assumption.
Defined.

(** Against C4 as stated: with deployment block 100 the cursor is seeded
    to 99 and the pass fetches [100,109], [110,119], [120,128], not
    [101,110], [111,120], [121,128]. *)
Lemma scenario_ranges_start_at_deployment_block :
  let w' := pass default_config scenario_chain no_abi fresh_world in
  contractSyncState <$> seen w' 1 = Some (Some 99) ∧
  fetched_ranges (trace w') = [(100, 109); (110, 119); (120, 128)] ∧
  fetched_ranges (trace w') ≠ [(101, 110); (111, 120); (121, 128)] ∧
  contractSyncState (db w') = Some 128.
Proof. vm_compute. repeat split. discriminate. Qed.

(** ** The stats query *)





Lemma replay_idempotent_witness :
  indexLog no_abi (raw_log 109 "0xt9" 3)
    (replay no_abi [raw_log 109 "0xt9" 3] 109 seeded_world) =
  (replay no_abi [raw_log 109 "0xt9" 3] 109 seeded_world, Ok tt) ∧
  db (Nat.iter 3 (replay no_abi scenario_logs 109) seeded_world) =
  db (replay no_abi scenario_logs 109 seeded_world).
Proof.
  destruct (replay_idempotent no_abi) as (Hdup & _ & Hiter).
  split.
  - apply Hdup. vm_compute. eexists. reflexivity.
  - apply (Hiter scenario_logs 109 seeded_world 2%nat).
Defined.

(** * Further properties of the services *)

(** ** Numbers from decimal text *)

Lemma read_digits_acc (d : Decimal.uint) : ∀ (acc : positive) (cnt : Z),
  ∃ n, read_digits 10 (uint_chars d) (Zpos acc) cnt =
       (Zpos (Pos.of_uint_acc d acc), n, []) ∧ cnt ≤ n.
Proof.
  induction d; intros acc cnt; unfold uint_chars in *;
    [exists cnt; split; [reflexivity | lia] | ..];
    simpl;
    match goal with
    | |- context [Pos.of_uint_acc d ?a] =>
        destruct (IHd a (cnt + 1)) as (n & Hn & Hle); exists n;
        split; [rewrite <- Hn; f_equal; lia | lia]
    end.
Qed.

Lemma read_digits_uint (d : Decimal.uint) : ∀ cnt,
  ∃ n, read_digits 10 (uint_chars d) 0 cnt = (Z.of_N (Pos.of_uint d), n, []) ∧
       (d ≠ Decimal.Nil → cnt < n).
Proof.
  induction d; intros cnt; unfold uint_chars in *;
    [exists cnt; split; [reflexivity | congruence] | ..]; simpl.
  - destruct (IHd (cnt + 1)) as (n & Hn & Hlt). exists n. split; [exact Hn |].
    intros _. destruct d; try (specialize (Hlt ltac:(discriminate)); lia).
    simpl in Hn. injection Hn as <-. lia.
  - destruct (read_digits_acc d 1 (cnt + 1)) as (n & Hn & Hle). exists n. split; [exact Hn | lia].
  - destruct (read_digits_acc d 2 (cnt + 1)) as (n & Hn & Hle). exists n. split; [exact Hn | lia].
  - destruct (read_digits_acc d 3 (cnt + 1)) as (n & Hn & Hle). exists n. split; [exact Hn | lia].
  - destruct (read_digits_acc d 4 (cnt + 1)) as (n & Hn & Hle). exists n. split; [exact Hn | lia].
  - destruct (read_digits_acc d 5 (cnt + 1)) as (n & Hn & Hle). exists n. split; [exact Hn | lia].
  - destruct (read_digits_acc d 6 (cnt + 1)) as (n & Hn & Hle). exists n. split; [exact Hn | lia].
  - destruct (read_digits_acc d 7 (cnt + 1)) as (n & Hn & Hle). exists n. split; [exact Hn | lia].
  - destruct (read_digits_acc d 8 (cnt + 1)) as (n & Hn & Hle). exists n. split; [exact Hn | lia].
  - destruct (read_digits_acc d 9 (cnt + 1)) as (n & Hn & Hle). exists n. split; [exact Hn | lia].
Qed.

Lemma skip_ws_head (c : ascii) (l : list ascii) :
  plain_char c = true → skip_ws (c :: l) = c :: l ∧ skip_ws_back (c :: l) = c :: l.
Proof.
  unfold plain_char. intros H.
  apply andb_true_iff in H as [Hascii Hws]. apply negb_true_iff in Hws.
  apply N.ltb_lt in Hascii.
  assert (H2 : ∀ c2, is_ws2 c c2 = false ∧ is_ws2 c2 c = false).
  { intros c2. unfold is_ws2. split.
    - replace (N_of_ascii c =? 194)%N with false
        by (symmetry; apply N.eqb_neq; lia). reflexivity.
    - replace (N_of_ascii c =? 160)%N with false
        by (symmetry; apply N.eqb_neq; lia). apply andb_false_r. }
  assert (H3 : ∀ c2 c3, is_ws3 c c2 c3 = false ∧ is_ws3 c3 c2 c = false).
  { intros c2 c3. unfold is_ws3. split.
    - replace (N_of_ascii c =? 225)%N with false by (symmetry; apply N.eqb_neq; lia).
      replace (N_of_ascii c =? 226)%N with false by (symmetry; apply N.eqb_neq; lia).
      replace (N_of_ascii c =? 227)%N with false by (symmetry; apply N.eqb_neq; lia).
      replace (N_of_ascii c =? 239)%N with false by (symmetry; apply N.eqb_neq; lia).
      reflexivity.
    - replace (N_of_ascii c =? 128)%N with false by (symmetry; apply N.eqb_neq; lia).
      replace (128 <=? N_of_ascii c)%N with false by (symmetry; apply N.leb_gt; lia).
      replace (N_of_ascii c =? 168)%N with false by (symmetry; apply N.eqb_neq; lia).
      replace (N_of_ascii c =? 169)%N with false by (symmetry; apply N.eqb_neq; lia).
      replace (N_of_ascii c =? 175)%N with false by (symmetry; apply N.eqb_neq; lia).
      replace (N_of_ascii c =? 159)%N with false by (symmetry; apply N.eqb_neq; lia).
      replace (N_of_ascii c =? 191)%N with false by (symmetry; apply N.eqb_neq; lia).
      rewrite !andb_false_r. reflexivity. }
  split; cbn [skip_ws skip_ws_back]; rewrite Hws;
    (destruct l as [|c2 l]; [reflexivity |]);
    rewrite ?(proj1 (H2 c2)), ?(proj2 (H2 c2));
    (destruct l as [|c3 l]; [reflexivity |]);
    rewrite ?(proj1 (H3 c2 c3)), ?(proj2 (H3 c2 c3)); reflexivity.
Qed.

Lemma trim_plain (l : list ascii) :
  Forall (fun c => plain_char c = true) l → trim l = l.
Proof.
  intros Hall. unfold trim.
  assert (Hskip : ∀ k, Forall (fun c => plain_char c = true) k →
                       skip_ws k = k ∧ skip_ws_back k = k).
  { intros k Hk. destruct Hk as [|c k Hc _]; [split; reflexivity |].
    apply skip_ws_head, Hc. }
  rewrite (proj1 (Hskip l Hall)).
  rewrite (proj2 (Hskip (rev l) (Forall_rev Hall))).
  apply rev_involutive.
Qed.

Lemma uint_chars_plain (d : Decimal.uint) :
  Forall (fun c => plain_char c = true) (uint_chars d).
Proof.
  induction d; unfold uint_chars in *; simpl; constructor;
    (reflexivity || assumption).
Qed.

Lemma decimal_literal_uint (neg : bool) (d : Decimal.uint) :
  d ≠ Decimal.Nil →
  decimal_literal neg (uint_chars d) =
  of_decimal neg (Z.of_N (Pos.of_uint d)) 0.
Proof.
  intros Hd. unfold decimal_literal.
  destruct (read_digits_uint d 0) as (n & Hn & Hlt). rewrite Hn.
  specialize (Hlt Hd).
  replace (n + 0 =? 0) with false by (symmetry; apply Z.eqb_neq; lia).
  simpl. reflexivity.
Qed.

Lemma of_decimal_integer (z : Z) : 0 ≤ z → of_decimal false z 0 = of_Z z.
Proof.
  intros Hz. destruct z as [|p|p]; [reflexivity | | lia].
  unfold of_decimal, of_Z. simpl (0 <=? 0). cbn [cond_Zopp].
  rewrite Z.pow_0_r, Z.mul_1_r. reflexivity.
Qed.

Lemma of_decimal_negative (p : positive) : of_decimal true (Zpos p) 0 = of_Z (Zneg p).
Proof.
  unfold of_decimal, of_Z. simpl (0 <=? 0). cbn [cond_Zopp].
  rewrite Z.pow_0_r, Z.mul_1_r. reflexivity.
Qed.

Lemma StringToNumber_uint (d : Decimal.uint) :
  d ≠ Decimal.Nil →
  StringToNumber (NilEmpty.string_of_uint d) =
  of_decimal false (Z.of_N (Pos.of_uint d)) 0.
Proof.
  intros Hd. rewrite <- (decimal_literal_uint false d Hd).
  unfold StringToNumber. fold (uint_chars d).
  rewrite (trim_plain _ (uint_chars_plain d)).
  destruct d as [|d|d|d|d|d|d|d|d|d|d]; [congruence | ..];
    try (unfold uint_chars; simpl list_ascii_of_string; fold (uint_chars d);
         cbn [read_sign]; rewrite bool_decide_eq_false_2 by discriminate;
         reflexivity).
  destruct d as [|d|d|d|d|d|d|d|d|d|d];
    unfold uint_chars; simpl list_ascii_of_string;
    cbn [read_sign]; rewrite bool_decide_eq_false_2 by discriminate;
    reflexivity.
Qed.

Lemma N_to_uint_nonnil (n : N) : N.to_uint n ≠ Decimal.Nil.
Proof.
  destruct n as [|p]; [discriminate |]. apply Unsigned.to_uint_nonnil.
Qed.

Lemma digits_uint (z : Z) :
  digits z = NilEmpty.string_of_uint (N.to_uint (Z.to_N z)).
Proof.
  unfold digits, NilZero.string_of_uint.
  pose proof (N_to_uint_nonnil (Z.to_N z)) as Hnn.
  destruct (N.to_uint (Z.to_N z)); [congruence | reflexivity..].
Qed.

Lemma Pos_of_N_to_uint (n : N) : Pos.of_uint (N.to_uint n) = n.
Proof. exact (DecimalN.Unsigned.of_to n). Qed.

Lemma uint_chars_not_Infinity (d : Decimal.uint) :
  uint_chars d ≠ list_ascii_of_string "Infinity".
Proof. destruct d; unfold uint_chars; simpl; discriminate. Qed.

Lemma StringToNumber_bigint_toString (z : Z) :
  StringToNumber (bigint_toString z) = of_Z z.
Proof.
  unfold bigint_toString. destruct (z <? 0) eqn:Hneg.
  - apply Z.ltb_lt in Hneg. destruct z as [|p|p]; try lia.
    rewrite digits_uint. change (- Z.neg p) with (Zpos p).
    set (d := N.to_uint (Z.to_N (Zpos p))).
    assert (Hd : d ≠ Decimal.Nil) by apply N_to_uint_nonnil.
    unfold StringToNumber.
    change (list_ascii_of_string ("-" +:+ NilEmpty.string_of_uint d))
      with ("-"%char :: uint_chars d).
    rewrite trim_plain
      by (constructor; [reflexivity | apply uint_chars_plain]).
    cbn [read_sign].
    rewrite bool_decide_eq_false_2 by apply uint_chars_not_Infinity.
    rewrite (decimal_literal_uint true d Hd). unfold d.
    rewrite Pos_of_N_to_uint. apply of_decimal_negative.
  - apply Z.ltb_ge in Hneg. rewrite digits_uint.
    rewrite StringToNumber_uint by apply N_to_uint_nonnil.
    rewrite Pos_of_N_to_uint, Z2N.id by exact Hneg.
    apply of_decimal_integer, Hneg.
Qed.

(** ** Decoded arguments *)

Lemma of_Z_small_integer (z : Z) :
  0 ≤ z < 2 ^ 53 →
  isFinite (of_Z z) = true ∧ isNaN (of_Z z) = false ∧ to_integer (of_Z z) = Some z.
Proof.
  intros [Hlo Hhi]. destruct (Z.eq_dec z 0) as [-> | Hz]; [repeat split |].
  destruct (of_Z_exact z ltac:(lia)) as (m & e & -> & Hm & He).
  split; [reflexivity |]. split; [reflexivity |].
  unfold to_integer. destruct (0 <=? e) eqn:Hsign.
  - apply Z.leb_le in Hsign. replace e with 0 in * by lia. simpl in Hm.
    cbn [cond_Zopp]. f_equal. lia.
  - assert (Hpow : 0 < 2 ^ (- e)) by (apply Z.pow_pos_nonneg; lia).
    rewrite Hm, Z.mod_mul by lia. simpl. rewrite Z.div_mul by lia. reflexivity.
Qed.

Lemma array_index_of_nat (i : nat) :
  Z.of_nat i < 2 ^ 32 - 1 →
  array_index (of_Z (Z.of_nat i)) = Some (N.of_nat i).
Proof.
  intros Hi. unfold array_index.
  destruct (of_Z_small_integer (Z.of_nat i)) as (_ & _ & ->); [lia |].
  replace ((0 <=? Z.of_nat i) && (Z.of_nat i <? 2 ^ 32 - 1)) with true
    by (symmetry; apply andb_true_iff; split;
        [apply Z.leb_le | apply Z.ltb_lt]; lia).
  f_equal. lia.
Qed.

Lemma StringToNumber_digits (z : Z) : 0 ≤ z → StringToNumber (digits z) = of_Z z.
Proof.
  intros Hz. rewrite <- (StringToNumber_bigint_toString z). unfold bigint_toString.
  replace (z <? 0) with false by (symmetry; apply Z.ltb_ge; lia). reflexivity.
Qed.

Lemma collect_arg_index (acc : ArgsJson) (i : nat) (v : ArgValue) :
  Z.of_nat i < 2 ^ 32 - 1 →
  collect_arg acc (digits (Z.of_nat i), v) =
  {| named := named acc;
     positional := <[N.of_nat i := arg_text v]> (positional acc) |}.
Proof.
  intros Hi. unfold collect_arg. rewrite StringToNumber_digits by lia.
  destruct (of_Z_small_integer (Z.of_nat i)) as (_ & -> & _); [lia |].
  simpl. rewrite array_index_of_nat by exact Hi. reflexivity.
Qed.

Lemma fold_collect_positional (values : list ArgValue) : ∀ (s : nat) (acc : ArgsJson),
  Z.of_nat (s + length values) < 2 ^ 32 →
  let a := fold_left collect_arg (zip (index_keys s (length values)) values) acc in
  named a = named acc ∧
  ∀ j : nat, positional a !! N.of_nat j =
             if decide (s ≤ j)%nat
             then match values !! (j - s)%nat with
                  | Some v => Some (arg_text v)
                  | None => positional acc !! N.of_nat j
                  end
             else positional acc !! N.of_nat j.
Proof.
  induction values as [|v values IH]; intros s acc Hlen a.
  - split; [reflexivity |]. intros j. subst a. simpl.
    destruct (decide (s ≤ j)%nat); reflexivity.
  - subst a. simpl length in *. unfold index_keys. simpl seq. simpl fmap. simpl zip.
    cbn [fold_left]. rewrite collect_arg_index by lia.
    fold (index_keys (S s) (length values)).
    destruct (IH (S s) {| named := named acc;
                          positional := <[N.of_nat s := arg_text v]> (positional acc) |})
      as [Hnamed Hpos]; [lia |].
    split; [exact Hnamed |]. intros j. rewrite Hpos. simpl.
    destruct (decide (S s ≤ j)%nat) as [Hj | Hj].
    + rewrite decide_True by lia.
      replace (j - s)%nat with (S (j - S s)) by lia. simpl.
      destruct (values !! (j - S s)%nat); [reflexivity |].
      rewrite lookup_insert_ne by lia. reflexivity.
    + destruct (decide (s ≤ j)%nat) as [Hj' | Hj'].
      * assert (j = s) by lia. subst j. rewrite Nat.sub_diag. simpl.
        rewrite lookup_insert_eq. reflexivity.
      * rewrite lookup_insert_ne by lia. reflexivity.
Qed.

Lemma getArg_attach (a : ArgsJson) (name : string) (pos : N) :
  name ≠ "__positional" →
  getArg (attach_positional a) name pos = getArg a name pos.
Proof.
  intros Hname. unfold attach_positional, getArg.
  destruct (bool_decide (positional a = ∅)); [reflexivity |]. simpl.
  rewrite lookup_delete_ne by congruence. reflexivity.
Qed.

Lemma collect_arg_named_other (acc : ArgsJson) (k' : string) (v' : ArgValue) (k : string) :
  k' ≠ k → named (collect_arg acc (k', v')) !! k = named acc !! k.
Proof.
  intros Hne. unfold collect_arg.
  destruct (negb (isNaN (StringToNumber k'))).
  - destruct (array_index (StringToNumber k')); reflexivity.
  - destruct (bool_decide (k' = "__proto__")); [reflexivity |]. simpl.
    apply lookup_insert_ne. exact Hne.
Qed.

Lemma fold_collect_named (entries : list (string * ArgValue)) : ∀ acc k v,
  NoDup entries.*1 → (k, v) ∈ entries →
  isNaN (StringToNumber k) = true → k ≠ "__proto__" →
  named (fold_left collect_arg entries acc) !! k = Some (arg_text v).
Proof.
  induction entries as [|[k' v'] entries IH]; intros acc k v Hnd Hin Hnan Hproto.
  - inversion Hin.
  - simpl in Hnd. apply NoDup_cons in Hnd as [Hfresh Hnd].
    cbn [fold_left]. apply elem_of_cons in Hin as [Heq | Hin].
    + injection Heq as <- <-.
      assert (Hkeep : ∀ rest acc', k ∉ rest.*1 →
                 named (fold_left collect_arg rest acc') !! k = named acc' !! k).
      { induction rest as [|[k2 v2] rest IHr]; intros acc' Hk; [reflexivity |].
        cbn [fold_left]. simpl in Hk. apply not_elem_of_cons in Hk as [Hne Hk].
        rewrite IHr by exact Hk. apply collect_arg_named_other. congruence. }
      rewrite Hkeep by exact Hfresh. unfold collect_arg. rewrite Hnan. simpl.
      rewrite bool_decide_eq_false_2 by exact Hproto. simpl.
      apply lookup_insert_eq.
    + eapply IH; eassumption.
Qed.

(** X2. Named fields win. When the argument entries have distinct keys, a
    field stored under a key that is not numeric ([Number(k)] is [NaN],
    white space around a number being any [StrWhiteSpaceChar]) and is
    neither "__proto__" nor "__positional" is what [getArg] returns for that
    name, whatever position is asked for. *)
Theorem named_field_lookup (entries : list (string * ArgValue))
    (k : string) (v : ArgValue) (pos : N) :
  NoDup entries.*1 → (k, v) ∈ entries → plain_name k →
  getArg (collect_args entries) k pos = Some (arg_text v).
Proof.
  intros Hnd Hin (Hnan & Hproto & Hpositional). unfold collect_args.
  rewrite getArg_attach by exact Hpositional. unfold getArg.
  rewrite (fold_collect_named entries no_args k v Hnd Hin Hnan Hproto).
  reflexivity.
Qed.

(** ** The retry wrapper and the loop, for every endpoint *)


Lemma withRetry_loop_bounded cfg {T} (r : Request) (outcome : nat → JsError + T) :
  ∀ (fuel : nat) (a : Z) (w : World),
    RPC_MAX_RETRIES cfg ≤ a + Z.of_nat fuel →
    ∃ (k : nat) (res : result T),
      withRetry_loop cfg fuel (rpc r outcome) a w =
      (after_calls w (S k) (retry_trace cfg r a k), res) ∧
      (k ≤ fuel)%nat ∧
      match res with
      | Ok v => outcome (rpc_calls w + k)%nat = inr v
      | Throw e => outcome (rpc_calls w + k)%nat = inl e
      | OutOfFuel => False
      end.
Proof.
  induction fuel as [|fuel IH]; intros a w Hmax.
  - simpl. unfold rpc. destruct (outcome (rpc_calls w)) as [e|v] eqn:Hout.
    + replace (RPC_MAX_RETRIES cfg <=? a) with true
        by (symmetry; apply Z.leb_le; lia).
      rewrite orb_true_r. exists 0%nat, (Throw e).
      split; [unfold after_calls; simpl; repeat f_equal; lia |].
      split; [lia |]. rewrite Nat.add_0_r. exact Hout.
    + exists 0%nat, (Ok v).
      split; [unfold after_calls; simpl; repeat f_equal; lia |].
      split; [lia |]. rewrite Nat.add_0_r. exact Hout.
  - simpl. unfold rpc at 1. destruct (outcome (rpc_calls w)) as [e|v] eqn:Hout.
    + destruct (negb (isRateLimitError e) || (RPC_MAX_RETRIES cfg <=? a)) eqn:Hstop.
      * exists 0%nat, (Throw e).
        split; [unfold after_calls; simpl; repeat f_equal; lia |].
        split; [lia |]. rewrite Nat.add_0_r. exact Hout.
      * apply orb_false_iff in Hstop as [_ Hlt]. apply Z.leb_gt in Hlt.
        unfold bind, sleep.
        set (w1 := observe (Slept (waitMs cfg a))
                     {| db := db w; rpc_calls := S (rpc_calls w);
                        trace := trace w ++ [Called r] |}).
        destruct (IH (a + 1) w1) as (k & res & Hrun & Hk & Hres); [lia |].
        exists (S k), res. split; [| split; [lia |]].
        -- rewrite Hrun. f_equal. unfold after_calls, w1, observe. simpl.
           f_equal; [lia |]. rewrite <- !app_assoc. reflexivity.
        -- unfold w1, observe in Hres. simpl in Hres.
           replace (rpc_calls w + S k)%nat with (S (rpc_calls w + k)) by lia.
           exact Hres.
    + exists 0%nat, (Ok v).
      split; [unfold after_calls; simpl; repeat f_equal; lia |].
      split; [lia |]. rewrite Nat.add_0_r. exact Hout.
Qed.

Lemma withRetry_run cfg {T} (r : Request) (outcome : nat → JsError + T)
    (w : World) :
  ∃ (k : nat) (res : result T),
    withRetry cfg (rpc r outcome) w =
    (after_calls w (S k) (retry_trace cfg r 0 k), res) ∧
    match res with
    | Ok v => outcome (rpc_calls w + k)%nat = inr v
    | Throw e => outcome (rpc_calls w + k)%nat = inl e
    | OutOfFuel => False
    end.
Proof.
  unfold withRetry.
  destruct (withRetry_loop_bounded cfg r outcome
              (Z.to_nat (RPC_MAX_RETRIES cfg)) 0 w) as (k & res & Hrun & _ & Hres);
    [lia |].
  exists k, res. split; [exact Hrun | exact Hres].
Qed.


Lemma fetched_ranges_retry_logs cfg f t : ∀ k a,
  fetched_ranges (retry_trace cfg (ReqLogs f t) a k) = replicate (S k) (f, t).
Proof.
  induction k as [|k IH]; intros a; [reflexivity |].
  cbn [retry_trace fetched_ranges]. rewrite IH. reflexivity.
Qed.

Lemma fetched_ranges_retry_tip cfg : ∀ k a,
  fetched_ranges (retry_trace cfg ReqBlockNumber a k) = [].
Proof.
  induction k as [|k IH]; intros a; [reflexivity |].
  cbn [retry_trace fetched_ranges]. apply IH.
Qed.

Lemma last_replicate_S {A} (n : nat) (x : A) : last (replicate (S n) x) = Some x.
Proof. induction n as [|n IH]; [reflexivity |]. exact IH. Qed.

Section PassFacts.

Variable cfg : Config.
Variable chain : Chain.
Variable parseLog : list string → string → ParseOutcome.

(** What one request with retries leaves behind. *)
Lemma fetch_tip w :
  ∃ w1 res obs,
    withRetry cfg (rpc ReqBlockNumber (getBlockNumber chain)) w = (w1, res) ∧
    db w1 = db w ∧ trace w1 = trace w ++ obs ∧ fetched_ranges obs = [] ∧
    match res with
    | Ok _ => True
    | Throw e => endpoint_error chain e
    | OutOfFuel => False
    end.
Proof.
  destruct (withRetry_run cfg ReqBlockNumber (getBlockNumber chain) w)
    as (k & res & Hrun & Hres).
  eexists _, res, _. split; [exact Hrun |]. split; [reflexivity |].
  split; [reflexivity |]. split; [apply fetched_ranges_retry_tip |].
  destruct res; [exact I | left; eexists; exact Hres | exact Hres].
Qed.

Lemma fetch_logs f t w :
  ∃ w1 res obs,
    withRetry cfg (rpc (ReqLogs f t) (λ n, queryFilter chain n f t)) w = (w1, res) ∧
    db w1 = db w ∧ trace w1 = trace w ++ obs ∧
    last (fetched_ranges obs) = Some (f, t) ∧
    Forall (eq (f, t)) (fetched_ranges obs) ∧
    match res with
    | Ok logs => ∃ n, queryFilter chain n f t = inr logs
    | Throw e => endpoint_error chain e
    | OutOfFuel => False
    end.
Proof.
  destruct (withRetry_run cfg (ReqLogs f t) (λ n, queryFilter chain n f t) w)
    as (k & res & Hrun & Hres).
  eexists _, res, _. split; [exact Hrun |]. split; [reflexivity |].
  split; [reflexivity |].
  split; [rewrite fetched_ranges_retry_logs; apply last_replicate_S |].
  split; [rewrite fetched_ranges_retry_logs; apply Forall_forall;
          intros r Hr; apply elem_of_replicate in Hr as [-> _]; reflexivity |].
  destruct res; [eexists; exact Hres | right; eexists _, _, _; exact Hres | exact Hres].
Qed.

(** One turn of the [while] loop: either the fetch fails and the loop stops
    there with the database untouched, or the range is indexed, the cursor
    moves to its end and the loop goes on. *)
Lemma catchUp_loop_turn fuel fromBlock safeLatest c w :
  fromBlock ≤ safeLatest →
  contractSyncState (db w) = Some c →
  let toBlock := Z.min (fromBlock + MAX_LOG_BLOCK_RANGE cfg - 1) safeLatest in
  ∃ w1 obs,
    trace w1 = trace w ++ obs ∧
    last (fetched_ranges obs) = Some (fromBlock, toBlock) ∧
    Forall (eq (fromBlock, toBlock)) (fetched_ranges obs) ∧
    ((∃ e, catchUp_loop cfg chain parseLog (S fuel) fromBlock safeLatest w =
           (w1, Throw e) ∧ endpoint_error chain e ∧ db w1 = db w) ∨
     (catchUp_loop cfg chain parseLog (S fuel) fromBlock safeLatest w =
      catchUp_loop cfg chain parseLog fuel (toBlock + 1) safeLatest w1 ∧
      contractSyncState (db w1) = Some toBlock ∧
      onChainEvent (db w) ⊆ onChainEvent (db w1) ∧
      ∃ n logs w0, queryFilter chain n fromBlock toBlock = inr logs ∧
                   db w0 = db w ∧
                   db w1 = db (replay parseLog logs toBlock w0))).
Proof.
  intros Hgo Hc toBlock.
  destruct (fetch_logs fromBlock toBlock w)
    as (w1 & res & obs1 & Hfetch & Hdb1 & Ht1 & Hlast1 & Hall1 & Hres).
  assert (Hstep : catchUp_loop cfg chain parseLog (S fuel) fromBlock safeLatest w =
                  match res with
                  | Ok logs =>
                      (do! indexRange parseLog logs toBlock in
                       do! (if 0 <? RPC_THROTTLE_MS cfg
                            then sleep (RPC_THROTTLE_MS cfg) else ret tt) in
                       catchUp_loop cfg chain parseLog fuel (toBlock + 1) safeLatest) w1
                  | Throw e => (w1, Throw e)
                  | OutOfFuel => (w1, OutOfFuel)
                  end).
  { cbn [catchUp_loop].
    replace (fromBlock <=? safeLatest) with true by (symmetry; apply Z.leb_le; lia).
    fold toBlock. unfold bind at 1. rewrite Hfetch. destruct res; reflexivity. }
  destruct res as [logs|e|]; [| | destruct Hres].
  - destruct (forLogs_quiet parseLog logs w1)
      as (w2 & Hrun2 & (Hcalls2 & Hc2 & obs2 & Ht2 & Hall2) & Hsub2 & _).
    set (w3 := {| db := set_contractSyncState (Some toBlock) (db w2);
                  rpc_calls := rpc_calls w2;
                  trace := trace w2 ++ [Wrote (set_contractSyncState (Some toBlock) (db w2))] |}).
    assert (Hrange : indexRange parseLog logs toBlock w1 = (w3, Ok tt)).
    { unfold indexRange, bind. rewrite Hrun2. unfold contractSyncState_update.
      rewrite Hc2, Hdb1, Hc. reflexivity. }
    unfold bind at 1 in Hstep. rewrite Hrange in Hstep. unfold bind at 1 in Hstep.
    assert (Hobs3 : trace w3 = trace w ++ obs1 ++ obs2 ++
                      [Wrote (set_contractSyncState (Some toBlock) (db w2))]).
    { unfold w3. cbn [trace]. rewrite Ht2, Ht1, <- !app_assoc. reflexivity. }
    assert (Hlast3 : ∀ tail, fetched_ranges tail = [] →
               last (fetched_ranges (obs1 ++ obs2 ++
                      [Wrote (set_contractSyncState (Some toBlock) (db w2))] ++ tail)) =
               Some (fromBlock, toBlock)).
    { intros tail Htail.
      rewrite !fetched_ranges_app, (fetched_ranges_writes _ _ Hall2), Htail.
      simpl. rewrite app_nil_r. exact Hlast1. }
    assert (Hall3 : ∀ tail, fetched_ranges tail = [] →
               Forall (eq (fromBlock, toBlock))
                 (fetched_ranges (obs1 ++ obs2 ++
                      [Wrote (set_contractSyncState (Some toBlock) (db w2))] ++ tail))).
    { intros tail Htail.
      rewrite !fetched_ranges_app, (fetched_ranges_writes _ _ Hall2), Htail.
      simpl. rewrite app_nil_r. exact Hall1. }
    destruct (0 <? RPC_THROTTLE_MS cfg).
    + cbn [sleep] in Hstep.
      exists (observe (Slept (RPC_THROTTLE_MS cfg)) w3),
             (obs1 ++ obs2 ++ [Wrote (set_contractSyncState (Some toBlock) (db w2))]
                   ++ [Slept (RPC_THROTTLE_MS cfg)]).
      split; [| split; [apply Hlast3; reflexivity |
                        split; [apply Hall3; reflexivity |]]].
      * unfold observe. cbn [trace]. rewrite Hobs3, <- !app_assoc. reflexivity.
      * right. split; [exact Hstep |]. split; [reflexivity |].
        split; [simpl; rewrite <- Hdb1; exact Hsub2 |].
        destruct Hres as [n Hn]. exists n, logs, w1.
        split; [exact Hn |]. split; [exact Hdb1 |].
        unfold replay. rewrite Hrange. reflexivity.
    + cbn [ret] in Hstep.
      exists w3, (obs1 ++ obs2 ++ [Wrote (set_contractSyncState (Some toBlock) (db w2))] ++ []).
      split; [| split; [apply Hlast3; reflexivity |
                        split; [apply Hall3; reflexivity |]]].
      * rewrite Hobs3, app_nil_r. reflexivity.
      * right. split; [exact Hstep |]. split; [reflexivity |].
        split; [simpl; rewrite <- Hdb1; exact Hsub2 |].
        destruct Hres as [n Hn]. exists n, logs, w1.
        split; [exact Hn |]. split; [exact Hdb1 |].
        unfold replay. rewrite Hrange. reflexivity.
  - exists w1, obs1. split; [exact Ht1 |]. split; [exact Hlast1 |].
    split; [exact Hall1 |].
    left. exists e. split; [exact Hstep |]. split; [exact Hres | exact Hdb1].
Qed.

Lemma catchUp_loop_stop fuel fromBlock safeLatest w :
  safeLatest < fromBlock →
  catchUp_loop cfg chain parseLog fuel fromBlock safeLatest w = (w, Ok tt).
Proof.
  intros Hlt. destruct fuel; simpl;
    (replace (fromBlock <=? safeLatest) with false
       by (symmetry; apply Z.leb_gt; lia)); reflexivity.
Qed.

Lemma catchUp_loop_ledger safeLatest : ∀ fuel fromBlock c w w' res,
  contractSyncState (db w) = Some c →
  catchUp_loop cfg chain parseLog fuel fromBlock safeLatest w = (w', res) →
  onChainEvent (db w) ⊆ onChainEvent (db w') ∧
  is_Some (contractSyncState (db w')) ∧
  ∀ e, res = Throw e → endpoint_error chain e.
Proof.
  induction fuel as [|fuel IH]; intros fromBlock c w w' res Hc Hrun;
    destruct (Z_lt_le_dec safeLatest fromBlock) as [Hdone | Hgo];
    try (rewrite catchUp_loop_stop in Hrun by exact Hdone;
         injection Hrun as <- <-;
         split; [reflexivity | split; [eexists; exact Hc | discriminate]]).
  - simpl in Hrun.
    replace (fromBlock <=? safeLatest) with true in Hrun
      by (symmetry; apply Z.leb_le; lia).
    injection Hrun as <- <-.
    split; [reflexivity | split; [eexists; exact Hc | discriminate]].
  - destruct (catchUp_loop_turn fuel fromBlock safeLatest c w Hgo Hc)
      as (w1 & obs & _ & _ & _ & [(e & Hthrow & Herr & Hdb) | (Hnext & Hc1 & Hsub & _)]).
    + rewrite Hthrow in Hrun. injection Hrun as <- <-.
      rewrite Hdb. split; [reflexivity |]. split; [eexists; exact Hc |].
      intros e' [= <-]. exact Herr.
    + rewrite Hnext in Hrun. apply IH with (c := Z.min (fromBlock + MAX_LOG_BLOCK_RANGE cfg - 1) safeLatest) in Hrun;
        [| exact Hc1].
      destruct Hrun as (Hsub' & Hsome & Herr).
      split; [etransitivity; eassumption | split; assumption].
Qed.



(** The cursor read: the stored value is returned as it is, a missing row
    is created with the default start, and a failure of the tip request
    leaves the database alone. *)
Lemma getOrCreateSyncState_outcome w :
  ∃ w1 res obs,
    getOrCreateSyncState cfg chain w = (w1, res) ∧
    trace w1 = trace w ++ obs ∧ fetched_ranges obs = [] ∧
    match res with
    | Ok c =>
        db w1 = set_contractSyncState (Some c) (db w) ∧
        match contractSyncState (db w) with
        | Some c0 => c = c0
        | None => ∃ n latest, getBlockNumber chain n = inr latest ∧
                              c = defaultStart cfg latest
        end
    | Throw e => db w1 = db w ∧ endpoint_error chain e
    | OutOfFuel => False
    end.
Proof.
  destruct (withRetry_run cfg ReqBlockNumber (getBlockNumber chain) w)
    as (k & res & Hrun & Hres).
  unfold getOrCreateSyncState, bind. rewrite Hrun.
  destruct res as [latest|e|]; [| | destruct Hres].
  - cbn [after_calls db].
    destruct (contractSyncState (db w)) as [c0|] eqn:Hc0.
    + eexists _, (Ok c0), _. split; [reflexivity |]. split; [reflexivity |].
      split; [apply fetched_ranges_retry_tip |]. split; [| reflexivity].
      cbn [after_calls db]. symmetry. apply set_contractSyncState_same, Hc0.
    + eexists _, (Ok (defaultStart cfg latest)),
        (retry_trace cfg ReqBlockNumber 0 k ++
         [Wrote (set_contractSyncState (Some (defaultStart cfg latest)) (db w))]).
      split; [| split; [| split]].
      * cbn [write ret fst snd after_calls db rpc_calls trace].
        rewrite <- app_assoc. reflexivity.
      * reflexivity.
      * rewrite fetched_ranges_app, fetched_ranges_retry_tip. reflexivity.
      * split; [reflexivity |]. eexists _, latest. split; [exact Hres | reflexivity].
  - eexists _, (Throw e), _. split; [reflexivity |]. split; [reflexivity |].
    split; [apply fetched_ranges_retry_tip |]. split; [reflexivity |].
    left. eexists. exact Hres.
Qed.

End PassFacts.

(** ** Whole passes *)

Section PassTheorems.

Variable cfg : Config.
Variable chain : Chain.
Variable parseLog : list string → string → ParseOutcome.

(** The two reads that open a pass: either one of them fails, and nothing
    but a fresh cursor row can have been written, or the pass goes on to the
    backlog between the cursor and the safe tip. *)
Lemma catchUpOnce_opening w :
  ∃ w0 obs c,
    trace w0 = trace w ++ obs ∧ fetched_ranges obs = [] ∧
    (db w0 = db w ∨
     (contractSyncState (db w) = None ∧
      db w0 = set_contractSyncState (Some c) (db w))) ∧
    ((∃ e, catchUpOnce cfg chain parseLog w = (w0, Throw e) ∧ endpoint_error chain e) ∨
     (∃ latest,
        contractSyncState (db w0) = Some c ∧
        let safeLatest := Z.max (latest - CONFIRMATIONS cfg) 0 in
        catchUpOnce cfg chain parseLog w =
        if safeLatest <? c + 1 then (w0, Ok tt)
        else catchUp_loop cfg chain parseLog (Z.to_nat (safeLatest - (c + 1) + 1))
                          (c + 1) safeLatest w0)).
Proof.
  destruct (getOrCreateSyncState_outcome cfg chain w)
    as (w1 & res & obs1 & Hread & Ht1 & Hr1 & Hres).
  unfold catchUpOnce, bind. rewrite Hread.
  destruct res as [c|e|]; [| | destruct Hres].
  - destruct Hres as (Hdb1 & Hc).
    destruct (fetch_tip cfg chain w1) as (w2 & res2 & obs2 & Htip & Hdb2 & Ht2 & Hr2 & Hres2).
    rewrite Htip.
    assert (Hcur : contractSyncState (db w2) = Some c)
      by (rewrite Hdb2, Hdb1; reflexivity).
    assert (Hsame : db w2 = db w ∨
                    (contractSyncState (db w) = None ∧
                     db w2 = set_contractSyncState (Some c) (db w))).
    { destruct (contractSyncState (db w)) as [c0|] eqn:Hc0.
      - left. rewrite Hdb2, Hdb1. subst c.
        apply set_contractSyncState_same, Hc0.
      - right. split; [reflexivity | rewrite Hdb2; exact Hdb1]. }
    exists w2, (obs1 ++ obs2), c.
    split; [rewrite Ht2, Ht1, <- app_assoc; reflexivity |].
    split; [rewrite fetched_ranges_app, Hr1, Hr2; reflexivity |].
    split; [exact Hsame |].
    destruct res2 as [latest|e|]; [| | destruct Hres2].
    + right. exists latest. split; [exact Hcur |].
      cbv zeta. destruct (_ <? _); reflexivity.
    + left. exists e. split; [reflexivity | exact Hres2].
  - destruct Hres as (Hdb1 & Herr).
    exists w1, obs1, 0. split; [exact Ht1 |]. split; [exact Hr1 |].
    split; [left; exact Hdb1 |].
    left. exists e. split; [reflexivity | exact Herr].
Qed.

Lemma catchUpOnce_ledger w :
  onChainEvent (db w) ⊆ onChainEvent (db (pass cfg chain parseLog w)).
Proof.
  unfold pass.
  destruct (catchUpOnce_opening w)
    as (w0 & obs & c & _ & _ & Hdb & [(e & Hrun & Herr) | (latest & Hc & Hrun)]);
    assert (Hsame : onChainEvent (db w0) = onChainEvent (db w))
      by (destruct Hdb as [-> | [_ ->]]; reflexivity).
  - rewrite Hrun. cbn [fst]. rewrite Hsame. reflexivity.
  - cbv zeta in Hrun. rewrite Hrun.
    set (safeLatest := Z.max (latest - CONFIRMATIONS cfg) 0) in *.
    destruct (safeLatest <? c + 1); [cbn [fst]; rewrite Hsame; reflexivity |].
    destruct (catchUp_loop cfg chain parseLog (Z.to_nat (safeLatest - (c + 1) + 1))
                (c + 1) safeLatest w0) as [w' res] eqn:Hloop.
    pose proof (catchUp_loop_ledger cfg chain parseLog safeLatest _ _ c w0 w' res Hc Hloop)
      as (Hsub & _ & _).
    cbn [fst]. rewrite <- Hsame. exact Hsub.
Qed.

(** X5. The event ledger is append-only: over any number of passes, failed
    ones included, every row of the ledger stays where it is with the
    content it was first given. *)
Theorem ledger_append_only (n : nat) (w : World) :
  onChainEvent (db w) ⊆ onChainEvent (db (passes cfg chain parseLog n w)).
Proof.
  induction n as [|n IH]; [reflexivity |].
  etransitivity; [exact IH |]. apply catchUpOnce_ledger.
Qed.


End PassTheorems.

(** ** Properties kept by every recorded event *)

Section Preserved.

Variable cfg : Config.
Variable chain : Chain.
Variable parseLog : list string → string → ParseOutcome.

(** A property of the database that the cursor write and the projection of
    every newly recorded event keep. *)
Variable P : Db → Prop.
Hypothesis P_cursor : ∀ c d, P d → P (set_contractSyncState c d).
Hypothesis P_projection :
  ∀ ev d w, served_log chain ev → onChainEvent d !! log_key ev = None → P d →
            db w = record_event parseLog ev d →
            P (projected (fst (decodeLog parseLog ev)) (snd (decodeLog parseLog ev))
                         (blockNumber ev) (transactionHash ev) w).

Lemma indexLog_preserves ev w :
  served_log chain ev → P (db w) → P (db (fst (indexLog parseLog ev w))).
Proof.
  intros Hev HP.
  destruct (onChainEvent (db w) !! log_key ev) as [row|] eqn:Hk.
  - rewrite indexLog_duplicate by (eexists; exact Hk). exact HP.
  - rewrite (indexLog_new _ _ _ Hk).
    apply (P_projection ev (db w)); [exact Hev | exact Hk | exact HP | reflexivity].
Qed.

Lemma forLogs_preserves logs : ∀ w,
  Forall (served_log chain) logs → P (db w) →
  P (db (fst (forLogs parseLog logs w))).
Proof.
  induction logs as [|ev logs IH]; intros w Hall HP; [exact HP |].
  inversion Hall as [|? ? Hev Hrest]; subst.
  destruct (indexLog_quiet parseLog ev w) as (w1 & Hrun & _).
  pose proof (indexLog_preserves ev w Hev HP) as HP1.
  rewrite Hrun in HP1. cbn [fst] in HP1.
  cbn [forLogs]. unfold bind. rewrite Hrun. apply IH; assumption.
Qed.

Lemma replay_preserves logs toBlock w :
  Forall (served_log chain) logs → P (db w) →
  P (db (replay parseLog logs toBlock w)).
Proof.
  intros Hall HP. unfold replay, indexRange, bind.
  destruct (forLogs_quiet parseLog logs w) as (w1 & Hrun & _).
  pose proof (forLogs_preserves logs w Hall HP) as HP1.
  rewrite Hrun in HP1 |- *. cbn [fst] in HP1.
  unfold contractSyncState_update.
  destruct (contractSyncState (db w1)); [| exact HP1].
  cbn [write fst db]. apply P_cursor, HP1.
Qed.

Lemma served_all n f t logs :
  queryFilter chain n f t = inr logs → Forall (served_log chain) logs.
Proof.
  intros Hq. apply Forall_forall. intros ev Hin.
  exists n, f, t, logs. split; assumption.
Qed.

Lemma catchUp_loop_preserves safeLatest : ∀ fuel fromBlock c w,
  contractSyncState (db w) = Some c → P (db w) →
  P (db (fst (catchUp_loop cfg chain parseLog fuel fromBlock safeLatest w))).
Proof.
  induction fuel as [|fuel IH]; intros fromBlock c w Hc HP;
    destruct (Z_lt_le_dec safeLatest fromBlock) as [Hdone | Hgo];
    try (rewrite catchUp_loop_stop by exact Hdone; exact HP).
  - simpl. destruct (fromBlock <=? safeLatest); exact HP.
  - destruct (catchUp_loop_turn cfg chain parseLog fuel fromBlock safeLatest c w Hgo Hc)
      as (w1 & obs & _ & _ & _ &
          [(e & Hthrow & _ & Hdb) | (Hnext & Hc1 & _ & n & logs & w0 & Hq & Hdb0 & Hdb1)]).
    + rewrite Hthrow. cbn [fst]. rewrite Hdb. exact HP.
    + rewrite Hnext. eapply IH; [exact Hc1 |].
      rewrite Hdb1. apply replay_preserves; [eapply served_all, Hq |].
      rewrite Hdb0. exact HP.
Qed.

Lemma pass_preserves w : P (db w) → P (db (pass cfg chain parseLog w)).
Proof.
  intros HP. unfold pass.
  destruct (catchUpOnce_opening cfg chain parseLog w)
    as (w0 & obs & c & _ & _ & Hdb & [(e & Hrun & _) | (latest & Hc & Hrun)]);
    assert (HP0 : P (db w0))
      by (destruct Hdb as [-> | [_ ->]]; [exact HP | apply P_cursor, HP]).
  - rewrite Hrun. exact HP0.
  - cbv zeta in Hrun. rewrite Hrun.
    destruct (_ <? _); [exact HP0 |].
    eapply catchUp_loop_preserves; eassumption.
Qed.

Lemma passes_preserve n w : P (db w) → P (db (passes cfg chain parseLog n w)).
Proof.
  intros HP. induction n as [|n IH]; [exact HP |]. apply pass_preserves, IH.
Qed.

End Preserved.

(** ** Referential integrity of the read model *)

Lemma ballotSnapshot_update_db f w :
  db (fst (ballotSnapshot_update f w)) = with_snapshot f (db w).
Proof.
  unfold ballotSnapshot_update, with_snapshot.
  destruct (db w) as [c l s v vs p] eqn:Hd. cbn [ballotSnapshot].
  destruct s; cbn [write fst db]; rewrite ?Hd; reflexivity.
Qed.

Lemma projected_effect n a bn tx w :
  projection_effect bn tx (snapshot_upsert bn (db w)) (projected n a bn tx w).
Proof.
  unfold projected, applyReadModelProjection, bind.
  cbn [write fst snd db].
  repeat case_bool_decide; subst.
  - destruct (isFinite (Number_of (getArg a "newStage" 0))) eqn:Hfin.
    + rewrite ballotSnapshot_update_db. apply (effect_stage _ _ _ _ Hfin).
    + apply effect_none.
  - destruct (getArg a "voter" 0) as [v|]; [| apply effect_none].
    case_bool_decide; [apply effect_none |].
    cbn [write fst snd db]. rewrite ballotSnapshot_update_db.
    apply effect_register. assumption.
  - destruct (getArg a "voter" 0) as [v|]; [| apply effect_none].
    destruct (isFinite (Number_of (getArg a "proposalId" 1))) eqn:Hfin;
      [| apply effect_none].
    cbn [write fst snd db]. rewrite ballotSnapshot_update_db.
    exact (effect_vote bn tx (snapshot_upsert bn (db w)) v _
             (Number_of (getArg a "weight" 2)) Hfin).
  - destruct (isFinite (Number_of (getArg a "winningProposalId" 0))) eqn:Hfin.
    + rewrite ballotSnapshot_update_db. apply (effect_winner _ _ _ _ Hfin).
    + apply effect_none.
  - apply effect_none.
Qed.

Lemma lower_char_idem c : lower_char (lower_char c) = lower_char c.
Proof. destruct c as [[] [] [] [] [] [] [] []]; reflexivity. Qed.

Lemma toLowerCase_idem s : toLowerCase (toLowerCase s) = toLowerCase s.
Proof.
  induction s as [|c s IH]; [reflexivity |].
  change (toLowerCase (String c s)) with (String (lower_char c) (toLowerCase s)).
  change (toLowerCase (String (lower_char c) (toLowerCase s)))
    with (String (lower_char (lower_char c)) (toLowerCase (toLowerCase s))).
  rewrite lower_char_idem, IH. reflexivity.
Qed.

Lemma size_insert_le `{Countable K} {A} (m : gmap K A) k x :
  Z.of_nat (size (<[k := x]> m)) ≤ Z.of_nat (size m) + 1.
Proof. rewrite map_size_insert. destruct (m !! k); simpl; lia. Qed.

Lemma is_Some_insert `{Countable K} {A} (m : gmap K A) i j x :
  is_Some (m !! j) → is_Some (<[i := x]> m !! j).
Proof.
  intros Hj. apply lookup_insert_is_Some.
  destruct (decide (i = j)); [left; assumption | right; split; assumption].
Qed.

Lemma consistent_upsert bn d : consistent d → consistent (snapshot_upsert bn d).
Proof.
  intros [H1 H2 H3 H4 H5 H6 H7 H8 H9].
  unfold snapshot_or_default in *.
  destruct d as [c l [s|] vt vs pr]; constructor; assumption.
Qed.

Lemma consistent_effect bn tx d d' :
  is_Some (ballotSnapshot d) → consistent d → projection_effect bn tx d d' →
  consistent d'.
Proof.
  intros [s Hs] [H1 H2 H3 H4 H5 H6 H7 H8 H9] Heff.
  unfold snapshot_or_default in *.
  destruct d as [c l s0 vt vs pr]. cbn [ballotSnapshot] in Hs. subst s0.
  cbn in H1, H2, H3, H4, H5, H6, H7, H8, H9.
  inversion Heff as [|x Hx|x Hx|v wt Hv|v p wt Hp]; subst; clear Heff.
  - constructor; assumption.
  - constructor; assumption.
  - constructor; assumption.
  - constructor; cbn.
    + intros k v0 Hk Hvoted. apply lookup_insert_Some in Hk as [[<- <-] | [Hne Hk]].
      * destruct (vt !! toLowerCase v) as [v1|] eqn:Hv1; [| discriminate].
        apply (H1 _ v1 Hv1 Hvoted).
      * apply (H1 _ _ Hk Hvoted).
    + intros k Hk. destruct (H2 k Hk) as (v1 & Hv1 & Hvoted).
      destruct (decide (toLowerCase v = k)) as [<- | Hne].
      * rewrite lookup_insert_eq, Hv1. eexists. split; [reflexivity | exact Hvoted].
      * rewrite lookup_insert_ne by exact Hne. eauto.
    + exact H3.
    + exact H4.
    + intros k Hk. apply lookup_insert_is_Some in Hk as [<- | [_ Hk]].
      * apply toLowerCase_idem.
      * apply H5, Hk.
    + exact H6.
    + exact H7.
    + pose proof (size_insert_le vt (toLowerCase v)
                    (match vt !! toLowerCase v with
                     | Some v0 => {| weight := wt; hasVoted := hasVoted v0;
                                     registeredAtBlock := Some bn;
                                     lastUpdatedBlock := bn |}
                     | None => {| weight := wt; hasVoted := false;
                                  registeredAtBlock := Some bn;
                                  lastUpdatedBlock := bn |}
                     end)). lia.
    + lia.
  - constructor; cbn.
    + intros k v0 Hk Hvoted. destruct (decide (toLowerCase v = k)) as [<- | Hne].
      * rewrite lookup_insert_eq. eexists; reflexivity.
      * rewrite lookup_insert_ne in Hk by exact Hne.
        rewrite lookup_insert_ne by exact Hne. apply (H1 _ _ Hk Hvoted).
    + intros k Hk. destruct (decide (toLowerCase v = k)) as [<- | Hne].
      * rewrite lookup_insert_eq.
        destruct (vt !! toLowerCase v); eexists; (split; [reflexivity |]); reflexivity.
      * rewrite lookup_insert_ne in Hk by exact Hne.
        rewrite lookup_insert_ne by exact Hne. apply H2, Hk.
    + intros k r Hk. destruct (decide (toLowerCase v = k)) as [<- | Hne].
      * rewrite lookup_insert_eq in Hk. injection Hk as <-. cbn.
        rewrite lookup_insert_eq. eexists; reflexivity.
      * rewrite lookup_insert_ne in Hk by exact Hne.
        apply is_Some_insert, (H3 _ _ Hk).
    + intros q Hq. apply lookup_insert_is_Some in Hq as [<- | [_ Hq]];
        [exact Hp | apply H4, Hq].
    + intros k Hk. apply lookup_insert_is_Some in Hk as [<- | [_ Hk]].
      * apply toLowerCase_idem.
      * apply H5, Hk.
    + etransitivity; [apply size_insert_le | lia].
    + etransitivity; [apply size_insert_le | lia].
    + etransitivity; [apply size_insert_le | lia].
    + lia.
Qed.

Lemma consistent_projected n a bn tx w :
  consistent (db w) → consistent (projected n a bn tx w).
Proof.
  intros Hc. eapply consistent_effect; [| | apply projected_effect].
  - unfold snapshot_upsert. eexists. reflexivity.
  - apply consistent_upsert, Hc.
Qed.

Lemma consistent_empty : consistent empty_db.
Proof.
  constructor; cbn; try (intros ?; rewrite lookup_empty);
    try (intros ? ?; rewrite ?lookup_empty); try lia;
    try (intros [? ?]; discriminate); try discriminate.
Qed.

(** ** Growth and provenance *)

Lemma grows_refl d : grows d d.
Proof.
  constructor; try (intros; assumption); try lia.
  - intros k v0 Hk Hv. eauto.
  - intros p r0 Hp. eauto.
Qed.

Lemma grows_trans d0 d1 d2 : grows d0 d1 → grows d1 d2 → grows d0 d2.
Proof.
  intros [A1 A2 A3 A4 A5 A6 A7 A8] [B1 B2 B3 B4 B5 B6 B7 B8].
  constructor; try (intros; eauto; fail); try lia.
  - intros k v0 Hk Hv. destruct (A2 k v0 Hk Hv) as (v1 & Hk1 & Hv1). eauto.
  - intros p r0 Hp. destruct (A4 p r0 Hp) as (r1 & Hp1 & Hn1).
    destruct (B4 p r1 Hp1) as (r2 & Hp2 & Hn2). exists r2.
    split; [exact Hp2 | congruence].
Qed.

Lemma grows_upsert bn d : grows d (snapshot_upsert bn d).
Proof.
  unfold snapshot_or_default.
  destruct d as [c l [s|] vt vs pr]; constructor; cbn;
    try (intros; eauto; fail); try lia.
Qed.

Lemma grows_effect bn tx d d' :
  is_Some (ballotSnapshot d) → projection_effect bn tx d d' → grows d d'.
Proof.
  intros [s Hs] Heff. destruct d as [c l s0 vt vs pr].
  cbn [ballotSnapshot] in Hs. subst s0.
  inversion Heff as [|x Hx|x Hx|v wt Hv|v p wt Hp]; subst; clear Heff;
    try apply grows_refl;
    constructor; unfold snapshot_or_default; cbn;
    try (intros; eauto; fail); try lia.
  - intros k Hk. apply is_Some_insert, Hk.
  - intros k v0 Hk Hvoted. destruct (decide (toLowerCase v = k)) as [<- | Hne].
    + rewrite lookup_insert_eq, Hk. eexists. split; [reflexivity | exact Hvoted].
    + rewrite lookup_insert_ne by exact Hne. eauto.
  - intros k Hk. apply is_Some_insert, Hk.
  - intros k v0 Hk Hvoted. destruct (decide (toLowerCase v = k)) as [<- | Hne].
    + rewrite lookup_insert_eq, Hk. eexists. split; reflexivity.
    + rewrite lookup_insert_ne by exact Hne. eauto.
  - intros k Hk. apply is_Some_insert, Hk.
  - intros q r0 Hq. destruct (decide (p = q)) as [<- | Hne].
    + rewrite lookup_insert_eq, Hq. eexists. split; reflexivity.
    + rewrite lookup_insert_ne by exact Hne. eauto.
Qed.

Lemma grows_projected n a bn tx w : grows (db w) (projected n a bn tx w).
Proof.
  eapply grows_trans; [apply (grows_upsert bn) |].
  eapply grows_effect; [| apply projected_effect].
  unfold snapshot_upsert. eexists. reflexivity.
Qed.

Section Growth.

Variable cfg : Config.
Variable chain : Chain.
Variable parseLog : list string → string → ParseOutcome.

(** X8. The read model only grows. Over any number of passes no voter,
    vote or proposal row disappears, a voter marked [hasVoted] stays marked,
    a proposal keeps its name, the snapshot row stays, [totalVoters] and
    [totalVotes] never decrease and [winnerComputed] never goes back to
    false. *)
Theorem read_model_only_grows n w :
  grows (db w) (db (passes cfg chain parseLog n w)).
Proof.
  apply (passes_preserve cfg chain parseLog (grows (db w))).
  - intros c d [H1 H2 H3 H4 H5 H6 H7 H8]. constructor; assumption.
  - intros ev d w0 _ _ Hd Hw.
    eapply grows_trans; [| apply grows_projected]. rewrite Hw.
    destruct Hd as [H1 H2 H3 H4 H5 H6 H7 H8]. constructor; assumption.
  - apply grows_refl.
Qed.

(** X9. Nothing is invented. After any number of passes a row of the
    ledger either was there before, unchanged, or is the decoded form of a
    log that the endpoint returned to a [queryFilter] request, stored under
    that log's transaction hash and log index. *)
Theorem ledger_rows_are_served n w k row :
  onChainEvent (db (passes cfg chain parseLog n w)) !! k = Some row →
  onChainEvent (db w) !! k = Some row ∨
  ∃ ev, served_log chain ev ∧ k = log_key ev ∧ row = ledger_row parseLog ev.
Proof.
  revert k row.
  apply (passes_preserve cfg chain parseLog
           (λ d, ∀ k row, onChainEvent d !! k = Some row →
                 onChainEvent (db w) !! k = Some row ∨
                 ∃ ev, served_log chain ev ∧ k = log_key ev ∧
                       row = ledger_row parseLog ev)).
  - intros c d Hd. exact Hd.
  - intros ev d w0 Hev _ Hd Hw k row.
    destruct (applyReadModelProjection_quiet
                (fst (decodeLog parseLog ev)) (snd (decodeLog parseLog ev))
                (blockNumber ev) (transactionHash ev) w0) as (w1 & Hrun & _ & Hsame).
    unfold projected. rewrite Hrun. cbn [fst]. rewrite Hsame, Hw.
    unfold record_event. cbn [onChainEvent set_onChainEvent].
    intros Hk. apply lookup_insert_Some in Hk as [[<- <-] | [_ Hk]].
    + right. exists ev. split; [exact Hev |]. split; reflexivity.
    + apply Hd, Hk.
  - intros k row Hk. left. exact Hk.
Qed.

End Growth.

Ltac order_cases :=
  repeat match goal with
         | |- context [(?a ?= ?b)%Z] => destruct (Z.compare_spec a b)
         | |- context [PosDef.Pos.compare_cont Eq ?a ?b] =>
             change (PosDef.Pos.compare_cont Eq a b) with (a ?= b)%positive;
             destruct (Pos.compare_spec a b)
         end.

Lemma ltb_asym x y : ltb x y = true → ltb y x = false.
Proof.
  unfold ltb, SFltb, SFcompare.
  destruct x as [sx|sx| |sx mx ex], y as [sy|sy| |sy my ey];
    try destruct sx; try destruct sy; try discriminate; try reflexivity.
  all: order_cases; simpl; intros; try discriminate; try reflexivity; try lia.
Qed.

(** ** The events query, the zero width and the cursor read *)

Lemma Math_min_200 x :
  isNaN x = false →
  isNaN (Math_min x (of_Z 200)) = false ∧
  ltb (of_Z 200) (Math_min x (of_Z 200)) = false.
Proof.
  intros Hx. unfold Math_min. rewrite Hx.
  change (isNaN (of_Z 200)) with false. cbn [orb].
  destruct (ltb x (of_Z 200)) eqn:Hlt; [split; [exact Hx | apply ltb_asym, Hlt] |].
  destruct (ltb (of_Z 200) x) eqn:Hgt; [split; vm_compute; reflexivity |].
  destruct x as [[]|[]| |sx mx ex]; try discriminate;
    split; try reflexivity; try exact Hgt; vm_compute; reflexivity.
Qed.

(** X11. The clamp of [GET /events]. For a [limit] parameter that is
    absent or a text, the number of rows asked from the store is never
    [NaN] and never above 200, and it is 50 when the parameter is absent,
    is not the text of a number (white space around a number being any
    [StrWhiteSpaceChar]), or is zero. *)
Theorem events_limit_clamped (limit : option string) :
  isNaN (events_limit limit) = false ∧
  ltb (of_Z 200) (events_limit limit) = false ∧
  (truthy_number (Number_of limit) = false → events_limit limit = of_Z 50).
Proof.
  assert (Hdefault : Math_min (of_Z 50) (of_Z 200) = of_Z 50) by (vm_compute; reflexivity).
  assert (H50 : StringToNumber "50" = of_Z 50) by (vm_compute; reflexivity).
  unfold events_limit.
  destruct limit as [s|];
    [change (default "50" (Some s)) with s | change (default "50" None) with "50"];
    cbn [Number_of].
  - destruct (truthy_number (StringToNumber s)) eqn:Ht.
    + destruct (Math_min_200 (StringToNumber s)) as [Hnan Hle];
        [destruct (StringToNumber s); try reflexivity; discriminate |].
      split; [exact Hnan |]. split; [exact Hle | discriminate].
    + rewrite Hdefault. split; [vm_compute; reflexivity |].
      split; [vm_compute; reflexivity | reflexivity].
  - rewrite H50. change (truthy_number (of_Z 50)) with true. cbn iota.
    rewrite Hdefault. split; [vm_compute; reflexivity |].
    split; [vm_compute; reflexivity | reflexivity].
Qed.

Section MorePasses.

Variable cfg : Config.
Variable chain : Chain.
Variable parseLog : list string → string → ParseOutcome.

(** X12. A range width of zero or less never finishes a backlog: however
    long the [while] loop runs, it does not complete; it can only stop on
    an endpoint error. *)
Theorem nonpositive_width_never_completes fuel : ∀ fromBlock safeLatest c w,
  MAX_LOG_BLOCK_RANGE cfg ≤ 0 →
  fromBlock ≤ safeLatest →
  contractSyncState (db w) = Some c →
  snd (catchUp_loop cfg chain parseLog fuel fromBlock safeLatest w) ≠ Ok tt.
Proof.
  induction fuel as [|fuel IH]; intros fromBlock safeLatest c w Hwidth Hgo Hc.
  - simpl. replace (fromBlock <=? safeLatest) with true
      by (symmetry; apply Z.leb_le; lia). discriminate.
  - destruct (catchUp_loop_turn cfg chain parseLog fuel fromBlock safeLatest c w Hgo Hc)
      as (w1 & obs & _ & _ & _ & [(e & Hthrow & _ & _) | (Hnext & Hc1 & _)]).
    + rewrite Hthrow. discriminate.
    + rewrite Hnext. eapply IH; [exact Hwidth | lia | exact Hc1].
Qed.


End MorePasses.

(** X14. A decoded integer read back as a number. The text that the
    decoder stores for a [bigint] value converts with [Number] to the
    double nearest to the integer, and for an integer from 0 up to
    2^53 - 1 that double is finite and is the integer itself. *)
Theorem decoded_integer_as_number (z : Z) :
  let x := Number_of (Some (arg_text (ArgBigInt z))) in
  x = of_Z z ∧
  (0 ≤ z < 2 ^ 53 → isFinite x = true ∧ to_integer x = Some z).
Proof.
  cbn zeta. cbn [Number_of arg_text]. rewrite StringToNumber_bigint_toString.
  split; [reflexivity |]. intros Hz.
  destruct (of_Z_small_integer z Hz) as (Hfin & _ & Hint). split; assumption.
Qed.

(** ** Counters and ledger *)

Lemma tally_insert f m k row :
  m !! k = None →
  tally f (<[k := row]> m) = tally f m + one_if (f (eventName row) (argsJson row)).
Proof.
  intros Hk. unfold tally, one_if.
  destruct (f (eventName row) (argsJson row)) eqn:Hf.
  - rewrite map_filter_insert_True by exact Hf.
    rewrite map_size_insert_None; [lia |].
    apply map_lookup_filter_None. left. exact Hk.
  - rewrite map_filter_insert_not'.
    + lia.
    + cbn [snd]. rewrite Hf. discriminate.
    + intros y Hy. rewrite Hk in Hy. discriminate.
Qed.

Lemma snapshot_or_default_with f d s :
  ballotSnapshot d = Some s → snapshot_or_default (with_snapshot f d) = f s.
Proof. intros Hs. unfold snapshot_or_default, with_snapshot. cbn. rewrite Hs. reflexivity. Qed.

Lemma projected_totals n a bn tx w :
  totalVoters (snapshot_or_default (projected n a bn tx w)) =
    totalVoters (snapshot_or_default (db w)) + one_if (counts_as_registration n a) ∧
  totalVotes (snapshot_or_default (projected n a bn tx w)) =
    totalVotes (snapshot_or_default (db w)) + one_if (counts_as_vote n a).
Proof.
  unfold projected, applyReadModelProjection, bind, counts_as_registration,
    counts_as_vote, one_if.
  cbn [write fst snd db].
  repeat case_bool_decide; subst; try discriminate; cbn [andb];
    repeat match goal with
           | |- context [getArg a "voter" 0] => destruct (getArg a "voter" 0) as [v|]
           | |- context [bool_decide (?v = "")] => destruct (bool_decide (v = ""))
           | |- context [isFinite ?x] => destruct (isFinite x)
           end;
    cbn [write fst snd db ret negb];
    rewrite ?ballotSnapshot_update_db;
    unfold snapshot_or_default, with_snapshot, snapshot_upsert;
    destruct (ballotSnapshot (db w)); cbn; lia.
Qed.

Lemma tallied_empty : tallied empty_db.
Proof. split; reflexivity. Qed.

(** ** Tables and ledger *)

Lemma in_ledger_insert {K} (names : string → ArgsJson → K → Prop) m key row k :
  m !! key = None →
  in_ledger names (<[key := row]> m) k ↔
  in_ledger names m k ∨ names (eventName row) (argsJson row) k.
Proof.
  intros Hnew. unfold in_ledger. split.
  - intros (key' & row' & Hrow & Hnames).
    apply lookup_insert_Some in Hrow as [[<- <-] | [Hne Hrow]].
    + right. exact Hnames.
    + left. exists key', row'. split; assumption.
  - intros [(key' & row' & Hrow & Hnames) | Hnames].
    + exists key', row'. split; [| exact Hnames].
      rewrite lookup_insert_ne; [exact Hrow |]. intros <-. congruence.
    + exists key, row. split; [apply lookup_insert_eq | exact Hnames].
Qed.

Lemma is_Some_insert_iff `{Countable K} {A} (m : gmap K A) i j x :
  is_Some (<[i := x]> m !! j) ↔ is_Some (m !! j) ∨ j = i.
Proof.
  rewrite lookup_insert_is_Some. split.
  - intros [-> | [_ Hj]]; [right; reflexivity | left; exact Hj].
  - intros [Hj | ->]; [| left; reflexivity].
    destruct (decide (i = j)); [left; assumption | right; split; assumption].
Qed.

Lemma projected_tables n a bn tx w :
  (∀ k, is_Some (voter (projected n a bn tx w) !! k) ↔
        is_Some (voter (db w) !! k) ∨ names_voter n a k) ∧
  (∀ k, is_Some (vote (projected n a bn tx w) !! k) ↔
        is_Some (vote (db w) !! k) ∨ names_vote n a k) ∧
  (∀ p, is_Some (proposal (projected n a bn tx w) !! p) ↔
        is_Some (proposal (db w) !! p) ∨ names_proposal n a p).
Proof.
  unfold projected, applyReadModelProjection, bind, names_voter, names_vote,
    names_proposal, counts_as_registration, counts_as_vote.
  cbn [write fst snd db].
  repeat case_bool_decide; subst; try discriminate; cbn [andb orb];
    repeat match goal with
           | |- context [getArg a "voter" 0] => destruct (getArg a "voter" 0) as [v|]
           | |- context [bool_decide (?v = "")] => destruct (bool_decide (v = ""))
           | |- context [isFinite ?x] => destruct (isFinite x)
           end;
    cbn [write fst snd db ret negb];
    rewrite ?ballotSnapshot_update_db;
    unfold with_snapshot, snapshot_upsert; cbn;
    (split; [| split]); intros k; rewrite ?is_Some_insert_iff;
    split; intros Hk;
    repeat match goal with
           | Hx : _ ∨ _ |- _ => destruct Hx as [Hx | Hx]
           | Hx : _ ∧ _ |- _ => destruct Hx as [? Hx]
           | Hx : ∃ _, _ |- _ => destruct Hx as [? Hx]
           | Hx : false = true |- _ => discriminate Hx
           | Hx : None = Some _ |- _ => discriminate Hx
           | Hx : Some _ = Some _ |- _ => injection Hx as <-
           end;
    subst;
    first [ assumption | left; assumption | right; reflexivity
          | right; split; [reflexivity | reflexivity]
          | right; split; [reflexivity | eexists; split; reflexivity] ].
Qed.

Lemma reflects_ledger_empty : reflects_ledger empty_db.
Proof.
  constructor; intros k; cbn; rewrite lookup_empty; split;
    try (intros [? ?]; discriminate);
    intros (key & row & Hrow & _); rewrite lookup_empty in Hrow; discriminate.
Qed.

(** ** What a completed pass has recorded *)

Lemma recorded_mono d d' ev :
  onChainEvent d ⊆ onChainEvent d' → recorded d ev → recorded d' ev.
Proof.
  intros Hsub [row Hrow]. exists row. eapply lookup_weaken; eassumption.
Qed.

Section Completeness.

Variable cfg : Config.
Variable chain : Chain.
Variable parseLog : list string → string → ParseOutcome.

(** The logs of a range do not depend on when they are asked for. *)
Variable logs_of : Z → Z → list Log.
Hypothesis served_logs :
  ∀ n f t logs, queryFilter chain n f t = inr logs → logs = logs_of f t.

Lemma catchUp_loop_records safeLatest : ∀ fuel fromBlock c w w',
  contractSyncState (db w) = Some c →
  catchUp_loop cfg chain parseLog fuel fromBlock safeLatest w = (w', Ok tt) →
  ∃ obs, trace w' = trace w ++ obs ∧
         ∀ f t ev, (f, t) ∈ fetched_ranges obs → ev ∈ logs_of f t →
                   recorded (db w') ev.
Proof.
  induction fuel as [|fuel IH]; intros fromBlock c w w' Hc Hrun;
    destruct (Z_lt_le_dec safeLatest fromBlock) as [Hdone | Hgo];
    try (rewrite catchUp_loop_stop in Hrun by exact Hdone;
         injection Hrun as <-; exists []; split; [rewrite app_nil_r; reflexivity |];
         intros f t ev Hin; cbn in Hin; inversion Hin).
  - simpl in Hrun.
    replace (fromBlock <=? safeLatest) with true in Hrun
      by (symmetry; apply Z.leb_le; lia).
    discriminate.
  - destruct (catchUp_loop_turn cfg chain parseLog fuel fromBlock safeLatest c w Hgo Hc)
      as (w1 & obs & Ht & _ & Hall &
          [(e & Hthrow & _ & _) | (Hnext & Hc1 & _ & n & logs & w0 & Hq & _ & Hdb1)]).
    + rewrite Hthrow in Hrun. discriminate.
    + rewrite Hnext in Hrun.
      destruct (catchUp_loop_ledger cfg chain parseLog safeLatest _ _ _ w1 w' (Ok tt) Hc1 Hrun)
        as (Hsub & _ & _).
      destruct (IH _ _ w1 w' Hc1 Hrun) as (obs' & Ht' & Hrec').
      exists (obs ++ obs'). split; [rewrite Ht', Ht, <- app_assoc; reflexivity |].
      intros f t ev Hin Hev. rewrite fetched_ranges_app in Hin.
      apply elem_of_app in Hin as [Hin | Hin]; [| eapply Hrec'; eassumption].
      eapply recorded_mono; [exact Hsub |].
      rewrite Forall_forall in Hall. specialize (Hall _ Hin). injection Hall as <- <-.
      rewrite Hdb1.
      destruct (replay_done parseLog logs
                  (Z.min (fromBlock + MAX_LOG_BLOCK_RANGE cfg - 1) safeLatest) w0)
        as [Hrec _].
      rewrite Forall_forall in Hrec. apply Hrec.
      rewrite (served_logs _ _ _ _ Hq). exact Hev.
Qed.

(** X17. A completed pass has recorded everything it was served. When the
    logs the endpoint returns for a range do not depend on when they are
    asked for, a pass that completes has in its ledger every log of every
    range it requested. *)
Theorem completed_pass_records_all w w' :
  catchUpOnce cfg chain parseLog w = (w', Ok tt) →
  ∃ obs, trace w' = trace w ++ obs ∧
         ∀ f t ev, (f, t) ∈ fetched_ranges obs → ev ∈ logs_of f t →
                   recorded (db w') ev.
Proof.
  intros Hrun.
  destruct (catchUpOnce_opening cfg chain parseLog w)
    as (w0 & obs & c & Ht & Hr & _ & [(e & Hfail & _) | (latest & Hc & Hgo)]).
  - rewrite Hfail in Hrun. discriminate.
  - cbv zeta in Hgo. rewrite Hgo in Hrun.
    destruct (_ <? _).
    + injection Hrun as <-. exists obs. split; [exact Ht |].
      intros f t ev Hin. rewrite Hr in Hin. inversion Hin.
    + destruct (catchUp_loop_records _ _ _ c w0 w' Hc Hrun) as (obs' & Ht' & Hrec).
      exists (obs ++ obs'). split; [rewrite Ht', Ht, <- app_assoc; reflexivity |].
      intros f t ev Hin. rewrite fetched_ranges_app, Hr in Hin. apply Hrec, Hin.
Qed.

End Completeness.

Lemma completed_pass_records_all_witness :
  ∃ obs,
    trace (pass default_config scenario_chain no_abi seeded_world) =
    trace seeded_world ++ obs ∧
    ∀ f t ev, (f, t) ∈ fetched_ranges obs →
              ev ∈ List.filter (fun l => (f <=? blockNumber l) && (blockNumber l <=? t))
                               scenario_logs →
              recorded (db (pass default_config scenario_chain no_abi seeded_world)) ev.
Proof.
  apply (completed_pass_records_all default_config scenario_chain no_abi
           (fun f t => List.filter (fun l => (f <=? blockNumber l) && (blockNumber l <=? t))
                                   scenario_logs)).
  - intros n f t logs [= <-]. reflexivity.
  - vm_compute. reflexivity.
Defined.

(** ** The properties on the scenario *)

Lemma named_field_lookup_witness :
  getArg (collect_args registration_entries) "weight" 7 = Some "1".
Proof.
  apply (named_field_lookup registration_entries "weight" (ArgBigInt 1) 7).
  - compute_done.
  - unfold registration_entries. repeat constructor.
  - split; [vm_compute; reflexivity | split; discriminate].
Defined.


Lemma ledger_rows_are_served_witness :
  onChainEvent (db seeded_world) !! ("0xt2", 0) =
    Some (ledger_row no_abi (event_log 107 "0xt2" 0 "VoterRegistered"
                               [ArgText alice; ArgBigInt 1])) ∨
  ∃ ev, served_log scenario_chain ev ∧ ("0xt2", 0) = log_key ev ∧
        ledger_row no_abi (event_log 107 "0xt2" 0 "VoterRegistered"
                             [ArgText alice; ArgBigInt 1]) = ledger_row no_abi ev.
Proof.
  apply (ledger_rows_are_served default_config scenario_chain no_abi 1 seeded_world).
  vm_compute. reflexivity.
Defined.

Lemma nonpositive_width_never_completes_witness :
  MAX_LOG_BLOCK_RANGE backward_config < 1 ∧
  snd (catchUp_loop backward_config scenario_chain no_abi 3 100 128 seeded_world) ≠ Ok tt.
Proof.
  split; [reflexivity |].
  apply (nonpositive_width_never_completes backward_config scenario_chain no_abi
           3 100 128 99 seeded_world).
  - vm_compute. discriminate.
  - lia.
  - reflexivity.
Defined.

Lemma events_limit_clamped_witness : events_limit (Some "abc") = of_Z 50.
Proof.
  apply (events_limit_clamped (Some "abc")). vm_compute. reflexivity.
Defined.

Lemma decoded_integer_as_number_witness :
  isFinite (Number_of (Some (arg_text (ArgBigInt 9007199254740991)))) = true ∧
  to_integer (Number_of (Some (arg_text (ArgBigInt 9007199254740991)))) =
  Some 9007199254740991.
Proof.
  apply (decoded_integer_as_number 9007199254740991). vm_compute. split; [discriminate | reflexivity].
Defined.

(** * Exact sums, single writes and overlapping passes *)

(** ** Sums of integers below 2^53 *)

Lemma iter_pos_nat {A} (f : A → A) (p : positive) (x : A) :
  SpecFloat.iter_pos f p x = Nat.iter (Pos.to_nat p) f x.
Proof.
  revert x. induction p as [p IH | p IH |]; intros x; cbn [SpecFloat.iter_pos].
  - rewrite !IH, Pos2Nat.inj_xI. cbn [Nat.iter Nat.mul].
    rewrite Nat.add_0_r, <- Nat.iter_add, <- Nat.iter_succ_r. reflexivity.
  - rewrite !IH, Pos2Nat.inj_xO. cbn [Nat.mul].
    rewrite Nat.add_0_r, <- Nat.iter_add. reflexivity.
  - reflexivity.
Qed.

Lemma shr_1_iter (k : nat) (m0 : positive) :
  Nat.iter k shr_1 {| shr_m := Zpos (Nat.iter k xO m0); shr_r := false; shr_s := false |} =
  {| shr_m := Zpos m0; shr_r := false; shr_s := false |}.
Proof.
  induction k as [|k IH]; [reflexivity |].
  rewrite Nat.iter_succ_r.
  change (Nat.iter (S k) xO m0) with (xO (Nat.iter k xO m0)).
  cbn [shr_1 orb]. exact IH.
Qed.

Lemma shr_exact (n m0 : positive) (e : Z) :
  shr {| shr_m := Zpos (Pos.iter xO m0 n); shr_r := false; shr_s := false |} e (Zpos n) =
  ({| shr_m := Zpos m0; shr_r := false; shr_s := false |}, e + Zpos n).
Proof.
  unfold shr. f_equal. rewrite iter_pos_nat, Pos2Nat.inj_iter. apply shr_1_iter.
Qed.

Lemma shift_value (p : positive) (n : positive) :
  Zpos (Pos.iter xO p n) = Zpos p * 2 ^ Zpos n.
Proof.
  change (Pos.iter xO p n) with (shift_pos n p).
  rewrite shift_pos_correct, Zpower_pos_nat, Zpower_nat_Z, positive_nat_Z. lia.
Qed.

Lemma scaled_mantissa (M p : positive) (k : Z) :
  0 ≤ k → Zpos M = Zpos p * 2 ^ k →
  Zpos (digits2_pos M) = Zpos (digits2_pos p) + k.
Proof.
  intros Hk HM. destruct k as [|q|q]; [| | lia].
  - rewrite Z.pow_0_r, Z.mul_1_r in HM. injection HM as ->. lia.
  - rewrite <- shift_value in HM. injection HM as ->.
    rewrite digits2_pos_iter. lia.
Qed.

Lemma binary_normalize_value (M : positive) (E z : Z) :
  0 < z < 2 ^ 53 → E ≤ 0 → Zpos M = z * 2 ^ (- E) →
  binary_normalize prec emax (Zpos M) E false = canonical z.
Proof.
  intros [Hpos Hlt] HE HM. destruct z as [|p|p]; try lia.
  pose proof (digits2_pos_small p Hlt) as Hd.
  pose proof (scaled_mantissa M p (- E) ltac:(lia) HM) as HD.
  unfold canonical. cbn [Zdigits2]. set (d := digits2_pos p) in *.
  assert (Hm0 : ∃ m0, Zpos m0 = Zpos p * 2 ^ (53 - Zpos d) ∧
                      Zpos (digits2_pos m0) = 53).
  { exists (Z.to_pos (Zpos p * 2 ^ (53 - Zpos d))).
    assert (0 < Zpos p * 2 ^ (53 - Zpos d)) by (apply Z.mul_pos_pos; [lia | apply Z.pow_pos_nonneg; lia]).
    split; [rewrite Z2Pos.id by lia; reflexivity |].
    rewrite (scaled_mantissa _ p (53 - Zpos d)); [fold d; lia | lia |].
    rewrite Z2Pos.id by lia. reflexivity. }
  destruct Hm0 as (m0 & Hm0 & Hd0).
  replace (Z.to_pos (Zpos p * 2 ^ (53 - Zpos d))) with m0
    by (apply Pos2Z.inj; rewrite Z2Pos.id by lia; exact Hm0).
  unfold binary_normalize, binary_round, prec, emax, fexp, emin.
  change IntDef.Z.max with Z.max. change IntDef.Z.sub with Z.sub.
  rewrite HD.
  replace (Z.max (Zpos d + - E + E - 53) (3 - 1024 - 53)) with (Zpos d - 53) by lia.
  unfold shl_align.
  destruct (Zpos d - 53 - E) as [|q|q] eqn:Hq.
  - (* no shift: the mantissa has 53 bits already *)
    assert (M = m0) as ->.
    { apply Pos2Z.inj. rewrite HM, Hm0. f_equal. f_equal. lia. }
    replace E with (Zpos d - 53) by lia.
    apply binary_round_aux_exact; [exact Hd0 | lia].
  - (* the mantissa is too long: its low bits are zero *)
    assert (M = Pos.iter xO m0 q) as ->.
    { apply Pos2Z.inj. rewrite shift_value, HM, Hm0, <- Z.mul_assoc, <- Z.pow_add_r by lia.
      f_equal. f_equal. lia. }
    unfold binary_round_aux, shr_fexp, fexp, emin.
    change IntDef.Z.max with Z.max. change IntDef.Z.sub with Z.sub.
    cbn [Zdigits2 shr_record_of_loc]. rewrite digits2_pos_iter, Pos2Z.inj_add, Hd0.
    replace (Z.max (53 + Zpos q + E - 53) (3 - 1024 - 53) - E) with (Zpos q) by lia.
    rewrite shr_exact. cbn [shr_m loc_of_shr_record round_nearest_even Zdigits2 shr_record_of_loc].
    rewrite Hd0.
    replace (Z.max (53 + (E + Zpos q) - 53) (3 - 1024 - 53) - (E + Zpos q)) with 0 by lia.
    cbn [shr shr_m].
    replace (E + Zpos q <=? 1024 - 53) with true by (symmetry; apply Z.leb_le; lia).
    f_equal. lia.
  - (* the mantissa is short: shift left *)
    replace (Zpos d - 53) with (E - Zpos q) by lia.
    rewrite binary_round_aux_exact.
    + f_equal. apply Pos2Z.inj. rewrite shift_value, HM, Hm0, <- Z.mul_assoc, <- Z.pow_add_r by lia.
      f_equal. f_equal. lia.
    + rewrite digits2_pos_iter, Pos2Z.inj_add, HD. lia.
    + lia.
Qed.

Lemma of_Z_canonical (z : Z) : 0 < z < 2 ^ 53 → of_Z z = canonical z.
Proof.
  intros Hz. destruct z as [|p|p]; try lia.
  apply (binary_normalize_value p 0 (Zpos p) Hz); [lia |].
  rewrite Z.pow_0_r. lia.
Qed.

Lemma canonical_exponent (z : Z) :
  0 < z < 2 ^ 53 → Zdigits2 z - 53 ≤ 0 ∧
  Zpos (Z.to_pos (z * 2 ^ (53 - Zdigits2 z))) = z * 2 ^ (- (Zdigits2 z - 53)).
Proof.
  intros [Hpos Hlt]. destruct z as [|p|p]; try lia. cbn [Zdigits2].
  pose proof (digits2_pos_small p Hlt) as Hd. split; [lia |].
  rewrite Z2Pos.id.
  - f_equal. f_equal. lia.
  - apply Z.mul_pos_pos; [lia | apply Z.pow_pos_nonneg; lia].
Qed.

Lemma shl_align_value (m : positive) (e ez : Z) :
  ez ≤ e → Zpos (fst (shl_align m e ez)) = Zpos m * 2 ^ (e - ez).
Proof.
  intros Hle. unfold shl_align. destruct (ez - e) as [|q|q] eqn:Hq; cbn [fst].
  - replace (e - ez) with 0 by lia. lia.
  - lia.
  - rewrite shift_value. f_equal. f_equal. lia.
Qed.

(** Binary64 addition is exact on non-negative integers whose sum is below
    2^53. *)
Lemma add_exact (a b : Z) :
  0 ≤ a → 0 ≤ b → a + b < 2 ^ 53 → add (of_Z a) (of_Z b) = of_Z (a + b).
Proof.
  intros Ha Hb Hsum.
  destruct (Z.eq_dec a 0) as [-> | Ha0];
    [| destruct (Z.eq_dec b 0) as [-> | Hb0]].
  - change (of_Z 0) with (S754_zero false). rewrite Z.add_0_l.
    destruct (Z.eq_dec b 0) as [-> | Hb0]; [reflexivity |].
    rewrite of_Z_canonical by lia. reflexivity.
  - change (of_Z 0) with (S754_zero false). rewrite Z.add_0_r.
    rewrite of_Z_canonical by lia. reflexivity.
  - rewrite (of_Z_canonical a), (of_Z_canonical b), (of_Z_canonical (a + b)) by lia.
    destruct (canonical_exponent a ltac:(lia)) as [Hea Hma].
    destruct (canonical_exponent b ltac:(lia)) as [Heb Hmb].
    unfold canonical at 1 2. unfold add. cbn [SFadd cond_Zopp].
    change IntDef.Z.min with Z.min.
    set (ea := Zdigits2 a - 53) in *. set (eb := Zdigits2 b - 53) in *.
    set (ma := Z.to_pos (a * 2 ^ (53 - Zdigits2 a))) in *.
    set (mb := Z.to_pos (b * 2 ^ (53 - Zdigits2 b))) in *.
    set (ez := Z.min ea eb).
    assert (Hsum' : Zpos (fst (shl_align ma ea ez)) + Zpos (fst (shl_align mb eb ez)) =
                    (a + b) * 2 ^ (- ez)).
    { rewrite !shl_align_value by (unfold ez; lia). rewrite Hma, Hmb.
      rewrite <- !Z.mul_assoc, <- !Z.pow_add_r by (unfold ez; lia).
      replace (- ea + (ea - ez)) with (- ez) by lia.
      replace (- eb + (eb - ez)) with (- ez) by lia. lia. }
    destruct (Zpos (fst (shl_align ma ea ez)) + Zpos (fst (shl_align mb eb ez)))
      as [|M|M] eqn:HM; try lia.
    apply binary_normalize_value; [lia | unfold ez; lia | exact Hsum'].
Qed.

Lemma shr_exponent mrs e n : e ≤ snd (shr mrs e n).
Proof. unfold shr. destruct n; cbn [snd]; lia. Qed.

(** An integer of 2^53 or more is not stored with an exponent of 0 or less. *)
Lemma of_Z_large_exponent (c : Z) s m e :
  2 ^ 53 ≤ c → of_Z c = S754_finite s m e → 1 ≤ e.
Proof.
  intros Hc. destruct c as [|p|p]; try lia.
  assert (Hd : 54 ≤ Zpos (digits2_pos p)).
  { pose proof (digits2_pos_bounds p) as [_ Hhi].
    destruct (Z_lt_le_dec (Zpos (digits2_pos p)) 54) as [Hlt|]; [| assumption].
    assert (2 ^ Zpos (digits2_pos p) ≤ 2 ^ 53) by (apply Z.pow_le_mono_r; lia). lia. }
  unfold of_Z, binary_normalize, binary_round, prec, emax, fexp, emin, shl_align.
  change IntDef.Z.max with Z.max. change IntDef.Z.sub with Z.sub.
  replace (Z.max (Zpos (digits2_pos p) + 0 - 53) (3 - 1024 - 53))
    with (Zpos (digits2_pos p) - 53) by lia.
  destruct (Zpos (digits2_pos p) - 53 - 0) as [|q|q] eqn:Hq; try lia.
  unfold binary_round_aux.
  destruct (shr_fexp 53 1024 (Zpos p) 0 loc_Exact) as [mrs1 e1] eqn:H1.
  assert (He1 : 1 ≤ e1).
  { unfold shr_fexp, fexp, emin in H1.
    change IntDef.Z.max with Z.max in H1. change IntDef.Z.sub with Z.sub in H1.
    cbn [Zdigits2] in H1.
    replace (Z.max (Zpos (digits2_pos p) + 0 - 53) (3 - 1024 - 53) - 0)
      with (Zpos q) in H1 by lia.
    unfold shr in H1. injection H1 as _ <-. lia. }
  destruct (shr_fexp 53 1024 (round_nearest_even (shr_m mrs1) (loc_of_shr_record mrs1))
              e1 loc_Exact) as [mrs2 e2] eqn:H2.
  assert (He2 : e1 ≤ e2).
  { unfold shr_fexp in H2.
    pose proof (shr_exponent
                  (shr_record_of_loc (round_nearest_even (shr_m mrs1) (loc_of_shr_record mrs1)) loc_Exact)
                  e1 (fexp 53 1024 (Zdigits2 (round_nearest_even (shr_m mrs1) (loc_of_shr_record mrs1)) + e1) - e1)) as Hle.
    rewrite H2 in Hle. exact Hle. }
  destruct (shr_m mrs2); try discriminate.
  destruct (e2 <=? 1024 - 53); [| discriminate].
  intros [= _ _ <-]. lia.
Qed.

(** Two integers with the same double, one of them below 2^53, are equal. *)
Lemma of_Z_inj (n c : Z) :
  0 < n < 2 ^ 53 → 0 ≤ c → of_Z c = of_Z n → c = n.
Proof.
  intros Hn Hc Heq.
  destruct (Z_lt_le_dec c (2 ^ 53)) as [Hsmall | Hlarge].
  - destruct (of_Z_small_integer n ltac:(lia)) as (_ & _ & Hin).
    destruct (of_Z_small_integer c ltac:(lia)) as (_ & _ & Hic).
    rewrite Heq, Hin in Hic. injection Hic as ->. reflexivity.
  - exfalso. rewrite (of_Z_canonical n) in Heq by lia. unfold canonical in Heq.
    apply of_Z_large_exponent in Heq; [| exact Hlarge].
    destruct (canonical_exponent n ltac:(lia)) as [He _]. lia.
Qed.

(** ** Decimal numerals *)

Lemma append_cons (c : ascii) (s t : string) :
  String c s +:+ t = String c (s +:+ t).
Proof. reflexivity. Qed.

Lemma append_assoc (s t u : string) : (s +:+ t) +:+ u = s +:+ (t +:+ u).
Proof.
  induction s as [|c s IH]; [reflexivity |].
  rewrite !append_cons, IH. reflexivity.
Qed.

Lemma append_nil_r (s : string) : s +:+ "" = s.
Proof.
  induction s as [|c s IH]; [reflexivity |]. rewrite append_cons, IH. reflexivity.
Qed.

Lemma string_of_revapp (d acc : Decimal.uint) :
  NilEmpty.string_of_uint (Decimal.revapp d acc) =
  NilEmpty.string_of_uint (Decimal.rev d) +:+ NilEmpty.string_of_uint acc.
Proof.
  revert acc. unfold Decimal.rev.
  induction d; intros acc; cbn [Decimal.revapp];
    [reflexivity | ..];
    rewrite IHd; symmetry; rewrite IHd; cbn [NilEmpty.string_of_uint];
    rewrite append_assoc, append_cons; reflexivity.
Qed.

Lemma digits_tenfold (s : Z) : 0 < s → digits (10 * s) = digits s +:+ "0".
Proof.
  intros Hs. rewrite !digits_uint. destruct s as [|p|p]; try lia.
  change (Z.to_N (10 * Zpos p)) with (10 * N.pos p)%N.
  change (Z.to_N (Zpos p)) with (N.pos p).
  change (N.to_uint (10 * N.pos p)) with (Decimal.rev (DecimalPos.Unsigned.to_lu (10 * N.pos p))).
  rewrite DecimalPos.Unsigned.to_ldec_tenfold.
  unfold Decimal.rev at 1. cbn [Decimal.revapp]. rewrite string_of_revapp.
  reflexivity.
Qed.

Lemma zeros_snoc (j : nat) : zeros j +:+ "0" = zeros (S j).
Proof.
  induction j as [|j IH]; [reflexivity |].
  cbn [zeros]. rewrite append_cons, IH. reflexivity.
Qed.

Lemma digits_scaled (s : Z) (j : nat) :
  0 < s → digits (s * 10 ^ Z.of_nat j) = digits s +:+ zeros j.
Proof.
  intros Hs. induction j as [|j IH].
  - cbn [zeros]. rewrite Z.mul_1_r. symmetry. apply append_nil_r.
  - rewrite Nat2Z.inj_succ, Z.pow_succ_r by lia.
    replace (s * (10 * 10 ^ Z.of_nat j)) with (10 * (s * 10 ^ Z.of_nat j)) by lia.
    rewrite digits_tenfold by (apply Z.mul_pos_pos; [lia | apply Z.pow_pos_nonneg; lia]).
    rewrite IH, append_assoc, zeros_snoc. reflexivity.
Qed.

Lemma length_append (s t : string) :
  String.length (s +:+ t) = (String.length s + String.length t)%nat.
Proof.
  induction s as [|c s IH]; [reflexivity |].
  rewrite append_cons. cbn [String.length]. rewrite IH. reflexivity.
Qed.

Lemma length_zeros (j : nat) : String.length (zeros j) = j.
Proof. induction j as [|j IH]; [reflexivity |]. cbn. rewrite IH. reflexivity. Qed.

Lemma length_string_of_uint (d : Decimal.uint) :
  String.length (NilEmpty.string_of_uint d) = Decimal.nb_digits d.
Proof. induction d; cbn; rewrite ?IHd; reflexivity. Qed.

Lemma of_uint_acc_bound (d : Decimal.uint) (acc : positive) :
  Zpos acc * 10 ^ Z.of_nat (Decimal.nb_digits d) ≤ Zpos (Pos.of_uint_acc d acc).
Proof.
  revert acc. induction d; intros acc; cbn [Pos.of_uint_acc Decimal.nb_digits];
    [rewrite Z.mul_1_r; lia | ..];
    rewrite Nat2Z.inj_succ, Z.pow_succ_r by lia;
    (etransitivity; [| apply IHd]);
    assert (0 < 10 ^ Z.of_nat (Decimal.nb_digits d)) by (apply Z.pow_pos_nonneg; lia);
    nia.
Qed.

(** A positive integer is at least [10^(k-1)], where [k] is the number of
    its digits. *)
Lemma digits_length_bound (n : Z) :
  0 < n → 10 ^ (Z.of_nat (String.length (digits n)) - 1) ≤ n.
Proof.
  intros Hn. rewrite digits_uint, length_string_of_uint.
  destruct n as [|p|p]; try lia. change (Z.to_N (Zpos p)) with (N.pos p).
  pose proof (DecimalN.Unsigned.of_to (N.pos p)) as Hof.
  pose proof (DecimalN.Unsigned.to_of (N.to_uint (N.pos p))) as Hto.
  rewrite Hof in Hto. remember (N.to_uint (N.pos p)) as u eqn:Hu. clear Hu.
  assert (Hhead : Decimal.nzhead u = u).
  { unfold Decimal.unorm in Hto.
    destruct (Decimal.nzhead u) eqn:Hnz; try (symmetry; exact Hto).
    exfalso. rewrite Hto in Hof. discriminate Hof. }
  unfold N.of_uint in Hof.
  destruct u as [|u|u|u|u|u|u|u|u|u|u]; cbn [Pos.of_uint] in Hof;
    try discriminate Hof;
    try (injection Hof as Hof; cbn [Decimal.nb_digits];
         pose proof (of_uint_acc_bound u) as Hb;
         match type of Hof with Pos.of_uint_acc u ?a = p => specialize (Hb a) end;
         rewrite Hof in Hb;
         replace (Z.of_nat (S (Decimal.nb_digits u)) - 1)
           with (Z.of_nat (Decimal.nb_digits u)) by lia;
         lia).
  exfalso. cbn [Decimal.nzhead] in Hhead.
  pose proof (DecimalFacts.nb_digits_nzhead u) as Hle. rewrite Hhead in Hle.
  cbn [Decimal.nb_digits] in Hle. lia.
Qed.

Lemma digits_length_small (n : Z) :
  0 < n < 2 ^ 53 → (String.length (digits n) ≤ 16)%nat.
Proof.
  intros Hn. pose proof (digits_length_bound n ltac:(lia)) as Hb.
  destruct (le_lt_dec (String.length (digits n)) 16) as [|Hgt]; [assumption |].
  exfalso.
  assert (10 ^ 16 ≤ 10 ^ (Z.of_nat (String.length (digits n)) - 1))
    by (apply Z.pow_le_mono_r; lia).
  lia.
Qed.

Lemma digits_length_pos (n : Z) : (1 ≤ String.length (digits n))%nat.
Proof.
  rewrite digits_uint, length_string_of_uint.
  pose proof (N_to_uint_nonnil (Z.to_N n)) as Hnn.
  destruct (N.to_uint (Z.to_N n)); cbn; try lia. congruence.
Qed.

(** ** The text of an integer below 2^53 *)

Lemma of_decimal_integer_text (c e : Z) :
  0 < c → 0 ≤ e → of_decimal false c e = of_Z (c * 10 ^ e).
Proof.
  intros Hc He. destruct c as [|p|p]; try lia. unfold of_decimal.
  replace (0 <=? e) with true by (symmetry; apply Z.leb_le; lia). reflexivity.
Qed.

(** A candidate of the digit search reads back as [n] only if it is [n]. *)
Lemma candidate_reads_back (n c e : Z) :
  0 < n < 2 ^ 53 → 0 ≤ c → 0 ≤ e →
  of_decimal false c e = of_Z n → c * 10 ^ e = n.
Proof.
  intros Hn Hc He Heq.
  destruct (Z.eq_dec c 0) as [-> | Hc0].
  - exfalso. rewrite (of_Z_canonical n Hn) in Heq. discriminate Heq.
  - rewrite of_decimal_integer_text in Heq by lia.
    apply of_Z_inj; [exact Hn | | exact Heq].
    apply Z.mul_nonneg_nonneg; [lia | apply Z.pow_nonneg; lia].
Qed.

Lemma shortest_step (fuel : nat) (x : number) (num den n0 k : Z) :
  shortest fuel x num den n0 k =
  let t := k - n0 in
  let '(a, b) := scale10 num den t in
  let lo := a / b in
  let hi := lo + 1 in
  let up := if hi =? 10 ^ k then (1, n0 + 1) else (hi, n0) in
  let lo_ok := bool_decide (of_decimal false lo (- t) = x) in
  let hi_ok := bool_decide (of_decimal false hi (- t) = x) in
  match fuel with
  | O => (lo, n0)
  | S f =>
      if lo_ok && hi_ok then (if 2 * a <=? (lo + hi) * b then (lo, n0) else up)
      else if lo_ok then (lo, n0)
      else if hi_ok then up
      else shortest f x num den n0 (k + 1)
  end.
Proof. destruct fuel; reflexivity. Qed.

Lemma scaled_quotient (n den d k : Z) :
  0 < den → k ≤ d →
  (let '(a, b) := scale10 (n * den) den (k - d) in a / b) = n / 10 ^ (d - k).
Proof.
  intros Hden Hk. unfold scale10.
  destruct (0 <=? k - d) eqn:Ht.
  - apply Z.leb_le in Ht. replace (k - d) with 0 by lia. replace (d - k) with 0 by lia.
    rewrite Z.pow_0_r, Z.mul_1_r, Z.div_1_r. apply Z.div_mul. lia.
  - replace (- (k - d)) with (d - k) by lia.
    assert (0 < 10 ^ (d - k)) by (apply Z.pow_pos_nonneg; lia).
    rewrite (Z.mul_comm den), Z.div_mul_cancel_r by lia. reflexivity.
Qed.

(** On an integer the search ends with the integer stripped of some of its
    final zeros. *)
Lemma shortest_integer (n den d : Z) :
  0 < n < 2 ^ 53 → 0 < den →
  ∀ (fuel : nat) (k : Z),
    1 ≤ k ≤ d → d - k < Z.of_nat fuel →
    ∃ j, 0 ≤ j ∧ n mod 10 ^ j = 0 ∧
         shortest fuel (of_Z n) (n * den) den d k = (n / 10 ^ j, d).
Proof.
  intros Hn Hden. induction fuel as [|fuel IH]; intros k Hk Hfuel; [lia |].
  rewrite shortest_step. cbv zeta.
  pose proof (scaled_quotient n den d k Hden ltac:(lia)) as Hlo.
  destruct (scale10 (n * den) den (k - d)) as [a b].
  replace (- (k - d)) with (d - k) by lia.
  assert (Hpow : 0 < 10 ^ (d - k)) by (apply Z.pow_pos_nonneg; lia).
  assert (Hlo0 : 0 ≤ a / b) by (rewrite Hlo; apply Z.div_pos; lia).
  assert (Hhi : bool_decide (of_decimal false (a / b + 1) (d - k) = of_Z n) = false).
  { apply bool_decide_eq_false_2. intros Heq.
    apply candidate_reads_back in Heq; [| exact Hn | lia | lia].
    rewrite Hlo in Heq.
    pose proof (Z.mul_div_le n (10 ^ (d - k)) Hpow).
    pose proof (Z.mod_pos_bound n (10 ^ (d - k)) Hpow).
    pose proof (Z.div_mod n (10 ^ (d - k)) ltac:(lia)). nia. }
  rewrite Hhi, andb_false_r.
  destruct (Z.eq_dec (n mod 10 ^ (d - k)) 0) as [Hdiv | Hndiv].
  - assert (Hval : a / b * 10 ^ (d - k) = n).
    { rewrite Hlo. pose proof (Z.div_mod n (10 ^ (d - k)) ltac:(lia)). lia. }
    rewrite bool_decide_eq_true_2.
    + exists (d - k). split; [lia |]. split; [exact Hdiv |]. rewrite Hlo. reflexivity.
    + rewrite of_decimal_integer_text, Hval; [reflexivity | | lia].
      destruct (Z.eq_dec (a / b) 0) as [H0 | H0]; [rewrite H0 in Hval; lia | lia].
  - rewrite bool_decide_eq_false_2.
    + assert (k < d).
      { destruct (Z.eq_dec k d) as [-> |]; [| lia].
        rewrite Z.sub_diag, Z.pow_0_r, Z.mod_1_r in Hndiv. congruence. }
      apply IH; lia.
    + intros Heq. apply candidate_reads_back in Heq; [| exact Hn | lia | lia].
      rewrite Hlo in Heq. apply Hndiv.
      rewrite <- Heq at 1. apply Z.mod_mul. lia.
Qed.

(** [String(n)] for an integer [0 <= n < 2^53] held as a number. *)
Lemma toString_integer (n : Z) : 0 ≤ n < 2 ^ 53 → toString (of_Z n) = digits n.
Proof.
  intros Hn. destruct (Z.eq_dec n 0) as [-> | Hn0]; [reflexivity |].
  assert (Hpos : 0 < n < 2 ^ 53) by lia.
  destruct (canonical_exponent n Hpos) as [He Hm].
  pose proof (of_Z_canonical n Hpos) as Hcan.
  unfold canonical in Hcan.
  set (m := Z.to_pos (n * 2 ^ (53 - Zdigits2 n))) in *.
  set (e := Zdigits2 n - 53) in *.
  assert (Hfrac : ∃ den, 0 < den ∧ fraction_of m e = (n * den, den)).
  { unfold fraction_of. destruct (0 <=? e) eqn:H0.
    - apply Z.leb_le in H0. assert (e = 0) as He0 by lia.
      exists 1. split; [lia |]. rewrite Hm, He0.
      change (2 ^ (- 0)) with 1. change (2 ^ 0) with 1. rewrite !Z.mul_1_r. reflexivity.
    - exists (2 ^ (- e)). split; [apply Z.pow_pos_nonneg; lia |].
      rewrite Hm. reflexivity. }
  destruct Hfrac as (den & Hden & Hfrac).
  rewrite Hcan. unfold toString. rewrite Hfrac, <- Hcan.
  assert (Hexp : dec_exponent (n * den) den = Z.of_nat (String.length (digits n))).
  { unfold dec_exponent. rewrite Z.div_mul by lia.
    replace (0 <? n) with true by (symmetry; apply Z.ltb_lt; lia). reflexivity. }
  rewrite Hexp. set (d := Z.of_nat (String.length (digits n))).
  pose proof (digits_length_small n Hpos) as Hd16.
  pose proof (digits_length_pos n) as Hd1.
  destruct (shortest_integer n den d Hpos Hden 17 1) as (j & Hj & Hdiv & Hrun);
    [unfold d; lia | unfold d; lia |].
  rewrite Hrun. cbn [append].
  set (s := n / 10 ^ j).
  assert (Hs : s * 10 ^ j = n).
  { unfold s. pose proof (Z.div_mod n (10 ^ j) ltac:(apply Z.pow_nonzero; lia)). lia. }
  assert (Hspos : 0 < s).
  { assert (0 < 10 ^ j) by (apply Z.pow_pos_nonneg; lia). nia. }
  assert (Hdigits : digits n = digits s +:+ zeros (Z.to_nat j)).
  { rewrite <- Hs at 1. rewrite <- (Z2Nat.id j) at 1 by lia.
    apply digits_scaled, Hspos. }
  assert (Hlen : d = Z.of_nat (String.length (digits s)) + j).
  { unfold d. rewrite Hdigits, length_append, length_zeros. lia. }
  unfold format_digits.
  replace ((Z.of_nat (String.length (digits s)) <=? d) && (d <=? 21)) with true.
  - replace (d - Z.of_nat (String.length (digits s))) with j by lia.
    symmetry. exact Hdigits.
  - symmetry. apply andb_true_iff. split; apply Z.leb_le; unfold d in *; lia.
Qed.

(** ** The vote count of a proposal *)

(** The sum written by a [VoteCast]: below 2^53 it is the exact one. *)
Lemma next_voteCount_exact (existing : option Proposal) (a b : Z) :
  match existing with
  | Some row => voteCount row = digits a
  | None => a = 0
  end →
  0 ≤ a → 0 ≤ b → a + b < 2 ^ 53 →
  next_voteCount existing (of_Z b) = digits (a + b).
Proof.
  intros Hrow Ha Hb Hsum. unfold next_voteCount.
  assert (Hcur : match existing with
                 | Some p => StringToNumber (voteCount p)
                 | None => zero
                 end = of_Z a).
  { destruct existing as [row|].
    - rewrite Hrow. apply StringToNumber_digits, Ha.
    - subst a. reflexivity. }
  rewrite Hcur.
  destruct (of_Z_small_integer b ltac:(lia)) as (-> & _ & _).
  rewrite add_exact by lia. apply toString_integer. lia.
Qed.

(** C5 (as the code has it). The decoder keeps an integer field as its
    decimal text; the projection of a [VoteCast] with a voter and a finite
    proposal id converts the weight and the stored count with [Number] and
    adds them as binary64 numbers. When the stored count [a] (0 for a
    proposal without a row) and the weight [b] are integers from 0 up with
    [a + b < 2^53], the count written is the decimal text of [a + b]: the
    sum is exact. *)
Theorem voteCount_exact_below_2_53 (args : ArgsJson) (bn : Z) (tx : string)
    (w : World) (v : string) (a b : Z) :
  getArg args "voter" 0 = Some v →
  isFinite (Number_of (getArg args "proposalId" 1)) = true →
  getArg args "weight" 2 = Some (arg_text (ArgBigInt b)) →
  stored_count (db w) (Number_of (getArg args "proposalId" 1)) a →
  0 ≤ a → 0 ≤ b → a + b < 2 ^ 53 →
  stored_count (projected "VoteCast" args bn tx w)
               (Number_of (getArg args "proposalId" 1)) (a + b).
Proof.
  intros Hv Hfin Hw Hrow Ha Hb Hsum.
  rewrite (projected_VoteCast args bn tx w v Hv Hfin). cbv zeta.
  rewrite Hw. cbn [Number_of arg_text]. rewrite StringToNumber_bigint_toString.
  unfold stored_count in *. cbn. rewrite lookup_insert_eq.
  rewrite (next_voteCount_exact _ a b Hrow Ha Hb Hsum).
  destruct (proposal (db w) !! _); reflexivity.
Qed.

Lemma voteCount_exact_below_2_53_witness :
  stored_count (db chair_voted_world) zero 2 ∧
  stored_count (projected "VoteCast"
                  (args_of [ArgText bob; ArgBigInt 0; ArgBigInt 1]) 108 "0xt3"
                  chair_voted_world)
               zero 3.
Proof.
  split; [vm_compute; reflexivity |].
  apply (voteCount_exact_below_2_53
           (args_of [ArgText bob; ArgBigInt 0; ArgBigInt 1]) 108 "0xt3"
           chair_voted_world bob 2 1);
    vm_compute; solve [reflexivity | discriminate].
Defined.

(** ** Steps of a run *)

Lemma after_steps_app o1 o2 w :
  after_steps (o1 ++ o2) w = after_steps o2 (after_steps o1 w).
Proof. apply fold_left_app. Qed.

Lemma after_steps_trace obs : ∀ w, trace (after_steps obs w) = trace w ++ obs.
Proof.
  induction obs as [|o obs IH]; intros w; [symmetry; apply app_nil_r |].
  cbn [after_steps fold_left]. fold (after_steps obs (after_step w o)).
  rewrite IH. destruct o; cbn [after_step trace]; rewrite <- app_assoc; reflexivity.
Qed.

Lemma after_steps_shows (P : Db → Prop) obs : ∀ w,
  P (db w) → Forall (shows P) obs → P (db (after_steps obs w)).
Proof.
  induction obs as [|o obs IH]; intros w HP Hall; [exact HP |].
  inversion Hall as [|? ? Ho Hrest]; subst.
  cbn [after_steps fold_left]. fold (after_steps obs (after_step w o)).
  apply IH; [| exact Hrest]. destruct o; cbn [after_step db]; assumption.
Qed.

Lemma last_cons {A} (d : A) ds : ∀ x, List.last (d :: ds) x = List.last ds d.
Proof.
  revert d. induction ds as [|d0 ds IH]; intros d x; [reflexivity |].
  change (List.last (d :: d0 :: ds) x) with (List.last (d0 :: ds) x).
  rewrite (IH d0 x), (IH d0 d). reflexivity.
Qed.

Lemma after_steps_writes ds : ∀ w,
  after_steps (Wrote <$> ds) w =
  {| db := List.last ds (db w); rpc_calls := rpc_calls w;
     trace := trace w ++ (Wrote <$> ds) |}.
Proof.
  induction ds as [|d ds IH]; intros w.
  - cbn. rewrite app_nil_r. destruct w; reflexivity.
  - cbn [fmap list_fmap after_steps fold_left].
    fold (after_steps (Wrote <$> ds) (after_step w (Wrote d))).
    change (list_fmap Db Obs Wrote ds) with (Wrote <$> ds).
    rewrite IH. cbn [after_step db rpc_calls trace].
    rewrite <- app_assoc, last_cons. reflexivity.
Qed.

Section Stepwise.

Context {P : Db → Prop}.

Lemma stepwise_ret {A} (a : A) : stepwise P (ret a).
Proof. intros w _. exists []. split; [reflexivity | constructor]. Qed.

Lemma stepwise_throw {A} e : stepwise P (@throw A e).
Proof. intros w _. exists []. split; [reflexivity | constructor]. Qed.

Lemma stepwise_sleep ms : stepwise P (sleep ms).
Proof.
  intros w _. exists [Slept ms]. split; [reflexivity |].
  constructor; [exact I | constructor].
Qed.

Lemma stepwise_rpc {A} r (outcome : nat → JsError + A) : stepwise P (rpc r outcome).
Proof.
  intros w _. exists [Called r]. split.
  - unfold rpc. destruct (outcome (rpc_calls w)); reflexivity.
  - constructor; [exact I | constructor].
Qed.

Lemma stepwise_write f : (∀ d, P d → P (f d)) → stepwise P (write f).
Proof.
  intros Hf w HP. exists [Wrote (f (db w))]. split; [reflexivity |].
  constructor; [apply Hf, HP | constructor].
Qed.

Lemma stepwise_bind {A B} (m : M A) (k : A → M B) :
  stepwise P m → (∀ a, stepwise P (k a)) → stepwise P (bind m k).
Proof.
  intros Hm Hk w HP. destruct (Hm w HP) as (o1 & Hw1 & H1).
  unfold bind. destruct (m w) as [w1 [a|e|]]; cbn [fst] in Hw1;
    try (exists o1; split; [exact Hw1 | exact H1]).
  destruct (Hk a w1) as (o2 & Hw2 & H2).
  { rewrite Hw1. apply after_steps_shows; assumption. }
  exists (o1 ++ o2). split; [rewrite after_steps_app, <- Hw1; exact Hw2 |].
  apply Forall_app. split; assumption.
Qed.

Lemma stepwise_catch {A} (m : M A) (h : JsError → M A) :
  stepwise P m → (∀ e, stepwise P (h e)) → stepwise P (catch m h).
Proof.
  intros Hm Hh w HP. destruct (Hm w HP) as (o1 & Hw1 & H1).
  unfold catch. destruct (m w) as [w1 [a|e|]]; cbn [fst] in Hw1;
    try (exists o1; split; [exact Hw1 | exact H1]).
  destruct (Hh e w1) as (o2 & Hw2 & H2).
  { rewrite Hw1. apply after_steps_shows; assumption. }
  exists (o1 ++ o2). split; [rewrite after_steps_app, <- Hw1; exact Hw2 |].
  apply Forall_app. split; assumption.
Qed.

Lemma stepwise_withRetry_loop {T} cfg (fn : M T) :
  stepwise P fn → ∀ fuel attempt, stepwise P (withRetry_loop cfg fuel fn attempt).
Proof.
  intros Hfn. induction fuel as [|fuel IH]; intros attempt w HP;
    destruct (Hfn w HP) as (o1 & Hw1 & H1); cbn [withRetry_loop];
    destruct (fn w) as [w1 [a|e|]]; cbn [fst] in Hw1;
    try (exists o1; split; [exact Hw1 | exact H1]);
    destruct (negb (isRateLimitError e) || (RPC_MAX_RETRIES cfg <=? attempt));
    try (exists o1; split; [exact Hw1 | exact H1]).
  assert (HP1 : P (db w1)) by (rewrite Hw1; apply after_steps_shows; assumption).
  destruct (stepwise_bind (sleep (waitMs cfg attempt))
              (fun _ => withRetry_loop cfg fuel fn (attempt + 1))
              (stepwise_sleep _) (fun _ => IH (attempt + 1)) w1 HP1)
    as (o2 & Hw2 & H2).
  exists (o1 ++ o2). split; [rewrite after_steps_app, <- Hw1; exact Hw2 |].
  apply Forall_app. split; assumption.
Qed.

Lemma stepwise_withRetry {T} cfg (fn : M T) :
  stepwise P fn → stepwise P (withRetry cfg fn).
Proof. intros Hfn. apply stepwise_withRetry_loop, Hfn. Qed.

End Stepwise.

(** ** The writes of one event *)

Lemma applyReadModelProjection_steps n a bn tx w :
  applyReadModelProjection n a bn tx w =
  (after_steps (Wrote <$> run_writes (projection_writes n a bn tx) (db w)) w,
   Ok tt).
Proof.
  unfold applyReadModelProjection, projection_writes.
  projection_cases a; reflexivity.
Qed.

Lemma indexLog_steps parseLog ev w :
  indexLog parseLog ev w =
  (after_steps (Wrote <$> event_dbs parseLog ev (db w)) w, Ok tt).
Proof.
  unfold event_dbs.
  destruct (onChainEvent (db w) !! log_key ev) as [row|] eqn:Hk.
  - rewrite indexLog_duplicate by (eexists; exact Hk). reflexivity.
  - rewrite (indexLog_new _ _ _ Hk), applyReadModelProjection_steps. reflexivity.
Qed.

Lemma forLogs_steps parseLog logs : ∀ w,
  forLogs parseLog logs w =
  (after_steps (Wrote <$> range_dbs parseLog logs (db w)) w, Ok tt).
Proof.
  induction logs as [|ev logs IH]; intros w; [reflexivity |].
  cbn [forLogs range_dbs]. unfold bind. rewrite indexLog_steps, IH.
  rewrite fmap_app, after_steps_app. do 3 f_equal.
  rewrite after_steps_writes. reflexivity.
Qed.

(** ** Properties kept by every single write *)

Section EveryWrite.

Variable cfg : Config.
Variable chain : Chain.
Variable parseLog : list string → string → ParseOutcome.

Variable P : Db → Prop.
Hypothesis P_cursor_write : ∀ c d, P d → P (set_contractSyncState c d).
Hypothesis P_event_writes :
  ∀ ev d, onChainEvent d !! log_key ev = None → P d →
          Forall P (run_writes (event_writes parseLog ev) d).

Lemma stepwise_indexLog ev : stepwise P (indexLog parseLog ev).
Proof.
  intros w HP. exists (Wrote <$> event_dbs parseLog ev (db w)).
  split; [rewrite indexLog_steps; reflexivity |].
  apply Forall_fmap. unfold event_dbs.
  destruct (onChainEvent (db w) !! log_key ev) eqn:Hk; [constructor |].
  eapply Forall_impl; [apply P_event_writes; assumption |].
  intros d Hd. exact Hd.
Qed.

Lemma stepwise_forLogs logs : stepwise P (forLogs parseLog logs).
Proof.
  induction logs as [|ev logs IH]; [apply stepwise_ret |].
  cbn [forLogs]. apply stepwise_bind; [apply stepwise_indexLog | intros _; exact IH].
Qed.

Lemma stepwise_cursor_update toBlock : stepwise P (contractSyncState_update toBlock).
Proof.
  intros w HP. unfold contractSyncState_update.
  destruct (contractSyncState (db w)).
  - apply stepwise_write; [intros d; apply P_cursor_write | exact HP].
  - apply (stepwise_throw (A := unit) (prisma_error "P2025") w HP).
Qed.

Lemma stepwise_indexRange logs toBlock : stepwise P (indexRange parseLog logs toBlock).
Proof.
  unfold indexRange. apply stepwise_bind; [apply stepwise_forLogs |].
  intros _. apply stepwise_cursor_update.
Qed.

Lemma stepwise_catchUp_loop safeLatest : ∀ fuel fromBlock,
  stepwise P (catchUp_loop cfg chain parseLog fuel fromBlock safeLatest).
Proof.
  induction fuel as [|fuel IH]; intros fromBlock; cbn [catchUp_loop];
    destruct (fromBlock <=? safeLatest); try apply stepwise_ret.
  - intros w _. exists []. split; [reflexivity | constructor].
  - apply stepwise_bind; [apply stepwise_withRetry, stepwise_rpc |]. intros logs.
    apply stepwise_bind; [apply stepwise_indexRange |]. intros _.
    apply stepwise_bind; [| intros _; apply IH].
    destruct (0 <? RPC_THROTTLE_MS cfg); [apply stepwise_sleep | apply stepwise_ret].
Qed.

Lemma stepwise_getOrCreateSyncState : stepwise P (getOrCreateSyncState cfg chain).
Proof.
  unfold getOrCreateSyncState.
  apply stepwise_bind; [apply stepwise_withRetry, stepwise_rpc |]. intros latest w HP.
  destruct (contractSyncState (db w)); [apply (stepwise_ret (A := Z) z w HP) |].
  revert w HP. apply stepwise_bind; [| intros _; apply stepwise_ret].
  apply stepwise_write. intros d. apply P_cursor_write.
Qed.

Lemma stepwise_catchUpOnce : stepwise P (catchUpOnce cfg chain parseLog).
Proof.
  unfold catchUpOnce.
  apply stepwise_bind; [apply stepwise_getOrCreateSyncState |]. intros state.
  apply stepwise_bind; [apply stepwise_withRetry, stepwise_rpc |]. intros latest.
  cbv zeta. destruct (_ <? _); [apply stepwise_ret | apply stepwise_catchUp_loop].
Qed.

(** The world after a pass is the world after its steps, and each of them
    shows a database with the property. *)
Lemma pass_steps w :
  P (db w) →
  pass cfg chain parseLog w = after_steps (steps_of_pass cfg chain parseLog w) w ∧
  Forall (shows P) (steps_of_pass cfg chain parseLog w).
Proof.
  intros HP. destruct (stepwise_catchUpOnce w HP) as (obs & Hrun & Hall).
  unfold steps_of_pass, pass. rewrite Hrun, after_steps_trace, drop_app_length.
  split; [reflexivity | exact Hall].
Qed.

Lemma stopped_keeps j w : P (db w) → P (db (stopped cfg chain parseLog j w)).
Proof.
  intros HP. destruct (pass_steps w HP) as [_ Hall].
  unfold stopped. apply after_steps_shows; [exact HP |].
  apply Forall_take, Hall.
Qed.

Lemma pass_keeps w : P (db w) → P (db (pass cfg chain parseLog w)).
Proof.
  intros HP. destruct (pass_steps w HP) as [-> Hall].
  apply after_steps_shows; assumption.
Qed.

Lemma history_keeps w0 w :
  P (db w0) → history cfg chain parseLog w0 w → P (db w).
Proof.
  intros HP. induction 1 as [|w _ IH|w j _ IH];
    [exact HP | apply pass_keeps, IH | apply stopped_keeps, IH].
Qed.

End EveryWrite.

(** A pass that is not cut is the pass cut after all of its steps. *)
Lemma stopped_at_end cfg chain parseLog w :
  stopped cfg chain parseLog (length (steps_of_pass cfg chain parseLog w)) w =
  pass cfg chain parseLog w.
Proof.
  unfold stopped. rewrite firstn_all.
  symmetry. apply (pass_steps cfg chain parseLog (fun _ => True)); auto.
  intros ev d _ _. apply Forall_forall. auto.
Qed.

(** ** Counters, write by write *)

Lemma one_if_bounds b : 0 ≤ one_if b ≤ 1.
Proof. destruct b; cbn; lia. Qed.

(** Splits the writes of an event into the branches of the projection. *)
Ltac writes_cases a :=
  unfold projection_writes;
  repeat case_bool_decide; subst; try discriminate;
  repeat match goal with
         | |- context [getArg a "voter" 0] =>
             destruct (getArg a "voter" 0) as [?v|] eqn:?
         | |- context [bool_decide (?v = "")] =>
             destruct (bool_decide_reflect (v = ""))
         | |- context [isFinite ?x] => destruct (isFinite x) eqn:?
         end;
  cbn [run_writes]; repeat apply Forall_cons_2; try apply Forall_nil_2.

Lemma counters_event_writes n a bn tx key row d :
  onChainEvent d !! key = None → eventName row = n → argsJson row = a →
  no_overcount d →
  Forall no_overcount
    (run_writes
       ((fun d => set_onChainEvent (<[key := row]> (onChainEvent d)) d) ::
        projection_writes n a bn tx) d).
Proof.
  intros Hnew Hn Ha (H1 & H2 & H3 & H4).
  pose proof (tally_insert counts_as_registration _ key row Hnew) as Tr.
  pose proof (tally_insert counts_as_vote _ key row Hnew) as Tv.
  rewrite Hn, Ha in Tr, Tv. clear Hn Ha.
  pose proof (one_if_bounds (counts_as_registration n a)) as Br.
  pose proof (one_if_bounds (counts_as_vote n a)) as Bv.
  unfold no_overcount, lagging, snapshot_or_default in *.
  assert (Hr : n = "VoterRegistered" → ∀ v, getArg a "voter" 0 = Some v → v ≠ "" →
               one_if (counts_as_registration n a) = 1).
  { intros -> v Hv Hne. unfold counts_as_registration. rewrite Hv.
    rewrite (bool_decide_eq_false_2 _ Hne). reflexivity. }
  assert (Hv : n = "VoteCast" → ∀ v, getArg a "voter" 0 = Some v →
               isFinite (Number_of (getArg a "proposalId" 1)) = true →
               one_if (counts_as_vote n a) = 1).
  { intros -> v Hv Hfin. unfold counts_as_vote. rewrite Hv, Hfin. reflexivity. }
  cbn [run_writes]. apply Forall_cons_2.
  { cbn. cbn in H1, H2, H3, H4. rewrite Tr, Tv. lia. }
  remember (one_if (counts_as_registration n a)) as x eqn:Hx.
  remember (one_if (counts_as_vote n a)) as y eqn:Hy.
  clear Hx Hy.
  writes_cases a;
    try (specialize (Hr eq_refl _ eq_refl ltac:(assumption)));
    try (specialize (Hv eq_refl _ eq_refl eq_refl));
    unfold with_snapshot, snapshot_upsert;
    revert H1 H2 H3 H4; cbn; rewrite Tr, Tv;
    destruct (ballotSnapshot d); cbn; lia.
Qed.

(** ** Tables, write by write *)


(** ** Referential integrity, write by write *)


(** ** Projection of one recorded event *)

Section OneEvent.

Variable parseLog : list string → string → ParseOutcome.

Lemma projected_ledger ev d w :
  db w = record_event parseLog ev d →
  onChainEvent (projected (fst (decodeLog parseLog ev)) (snd (decodeLog parseLog ev))
                  (blockNumber ev) (transactionHash ev) w) =
  <[log_key ev := ledger_row parseLog ev]> (onChainEvent d).
Proof.
  intros Hw.
  destruct (applyReadModelProjection_quiet
              (fst (decodeLog parseLog ev)) (snd (decodeLog parseLog ev))
              (blockNumber ev) (transactionHash ev) w) as (w1 & Hrun & _ & Hsame).
  unfold projected. rewrite Hrun. cbn [fst]. rewrite Hsame, Hw. reflexivity.
Qed.

Lemma tallied_projected ev d w :
  onChainEvent d !! log_key ev = None → tallied d →
  db w = record_event parseLog ev d →
  tallied (projected (fst (decodeLog parseLog ev)) (snd (decodeLog parseLog ev))
             (blockNumber ev) (transactionHash ev) w).
Proof.
  intros Hnew [Hvoters Hvotes] Hw.
  destruct (projected_totals (fst (decodeLog parseLog ev)) (snd (decodeLog parseLog ev))
              (blockNumber ev) (transactionHash ev) w) as [Hv Hc].
  assert (Hsnap : snapshot_or_default (db w) = snapshot_or_default d)
    by (rewrite Hw; reflexivity).
  unfold tallied.
  rewrite (projected_ledger ev d w Hw), Hv, Hc, Hsnap, !tally_insert by exact Hnew.
  rewrite Hvoters, Hvotes. split; reflexivity.
Qed.

Lemma mirror_projected ev d w :
  onChainEvent d !! log_key ev = None → reflects_ledger d →
  db w = record_event parseLog ev d →
  reflects_ledger
    (projected (fst (decodeLog parseLog ev)) (snd (decodeLog parseLog ev))
       (blockNumber ev) (transactionHash ev) w).
Proof.
  intros Hnew [H1 H2 H3] Hw.
  destruct (projected_tables (fst (decodeLog parseLog ev)) (snd (decodeLog parseLog ev))
              (blockNumber ev) (transactionHash ev) w) as (T1 & T2 & T3).
  rewrite Hw in T1, T2, T3. cbn [record_event] in T1, T2, T3.
  constructor; intros k; rewrite (projected_ledger ev d w Hw),
    in_ledger_insert by exact Hnew; cbn [ledger_row eventName argsJson].
  - rewrite T1. cbn. rewrite H1. reflexivity.
  - rewrite T2. cbn. rewrite H2. reflexivity.
  - rewrite T3. cbn. rewrite H3. reflexivity.
Qed.

Lemma consistent_recorded ev d w :
  consistent d → db w = record_event parseLog ev d →
  consistent (projected (fst (decodeLog parseLog ev)) (snd (decodeLog parseLog ev))
                (blockNumber ev) (transactionHash ev) w).
Proof.
  intros Hd Hw. apply consistent_projected. rewrite Hw.
  destruct Hd as [H1 H2 H3 H4 H5 H6 H7 H8 H9]. constructor; assumption.
Qed.

(** A property kept by the projection of every newly recorded event is kept
    by the loop over the logs of a range. *)
Lemma forLogs_keeps (P : Db → Prop) :
  (∀ ev d w, onChainEvent d !! log_key ev = None → P d →
             db w = record_event parseLog ev d →
             P (projected (fst (decodeLog parseLog ev)) (snd (decodeLog parseLog ev))
                  (blockNumber ev) (transactionHash ev) w)) →
  ∀ logs w, P (db w) → P (db (fst (forLogs parseLog logs w))).
Proof.
  intros HP. induction logs as [|ev logs IH]; intros w Hw; [exact Hw |].
  cbn [forLogs]. unfold bind.
  destruct (indexLog_quiet parseLog ev w) as (w1 & Hrun & _).
  rewrite Hrun. apply IH.
  replace w1 with (fst (indexLog parseLog ev w)) by (rewrite Hrun; reflexivity).
  destruct (onChainEvent (db w) !! log_key ev) as [row|] eqn:Hk.
  - rewrite indexLog_duplicate by (eexists; exact Hk). exact Hw.
  - rewrite (indexLog_new _ _ _ Hk).
    apply (HP ev (db w)); [exact Hk | exact Hw | reflexivity].
Qed.

End OneEvent.

(** ** Passes that are cut short, passes that complete *)

Section Histories.

Variable cfg : Config.
Variable chain : Chain.
Variable parseLog : list string → string → ParseOutcome.

Lemma completed_keeps (P : Db → Prop) :
  (∀ c d, P d → P (set_contractSyncState c d)) →
  (∀ ev d w, onChainEvent d !! log_key ev = None → P d →
             db w = record_event parseLog ev d →
             P (projected (fst (decodeLog parseLog ev)) (snd (decodeLog parseLog ev))
                  (blockNumber ev) (transactionHash ev) w)) →
  ∀ w0 w, P (db w0) → completed cfg chain parseLog w0 w → P (db w).
Proof.
  intros Hcursor Hevent w0 w H0. induction 1 as [|w _ IH _]; [exact H0 |].
  apply (pass_preserves cfg chain parseLog P Hcursor); [| exact IH].
  intros ev d w1 _. apply Hevent.
Qed.

Lemma passes_history n w :
  history cfg chain parseLog w (passes cfg chain parseLog n w).
Proof.
  induction n as [|n IH]; [apply history_start |].
  apply (history_pass _ _ _ _ _ IH).
Qed.


(** X15. The counters never run ahead of the ledger. Passes run one after
    the other, each to its end or cut short after any number of its steps
    (the process stops, or a store call is rejected). If the following
    holds of the database at the start, it holds of every database that
    such a run leaves behind: [totalVoters] is at least 0 and at most the
    number of recorded registrations with a voter, and [totalVotes] is at
    least 0 and at most the number of recorded votes with a voter and a
    finite proposal id. No event is counted twice, and none that is not in
    the ledger. *)
Theorem counters_never_overcount (w0 w : World) :
  no_overcount (db w0) → history cfg chain parseLog w0 w → no_overcount (db w).
Proof.
  apply (history_keeps cfg chain parseLog no_overcount).
  - intros c d Hd. exact Hd.
  - intros ev d Hnew Hd.
    apply (counters_event_writes _ _ _ _ (log_key ev) (ledger_row parseLog ev) d
             Hnew eq_refl eq_refl Hd).
Qed.


(** X18. Referential integrity after completed passes. When passes run one
    after the other and each of them completes, a read model that was
    consistent at the start is consistent at the end: a voter row is marked
    [hasVoted] exactly when a vote row exists for the same address, every
    vote points at an existing proposal row, proposal ids are finite
    numbers, the keys of the voter table are lower-case, and the numbers of
    vote, proposal and voter rows are bounded by the counters [totalVotes]
    and [totalVoters + totalVotes]. *)
Theorem completed_passes_consistent (w0 w : World) :
  consistent (db w0) → completed cfg chain parseLog w0 w → consistent (db w).
Proof.
  apply (completed_keeps consistent).
  - intros c d [H1 H2 H3 H4 H5 H6 H7 H8 H9]. constructor; assumption.
  - intros ev d w1 _. apply consistent_recorded.
Qed.

(** X19. The counters after completed passes. When passes run one after
    the other and each of them completes, and the counters were right at
    the start, then at the end [totalVoters] is the number of recorded
    registrations with a voter and [totalVotes] the number of recorded
    votes with a voter and a finite proposal id: an event delivered again
    changes neither the ledger nor the counters. *)
Theorem completed_passes_tallied (w0 w : World) :
  tallied (db w0) → completed cfg chain parseLog w0 w → tallied (db w).
Proof.
  apply (completed_keeps tallied).
  - intros c d Hd. exact Hd.
  - intros ev d w1. apply tallied_projected.
Qed.

(** X20. The tables after completed passes. When passes run one after the
    other and each of them completes, and the tables mirrored the ledger at
    the start, then at the end the voter, vote and proposal tables have a
    row exactly for the addresses and proposal ids named by the counted
    events of the ledger. *)
Theorem completed_passes_mirror_ledger (w0 w : World) :
  reflects_ledger (db w0) → completed cfg chain parseLog w0 w →
  reflects_ledger (db w).
Proof.
  apply (completed_keeps reflects_ledger).
  - intros c d [H1 H2 H3]. constructor; assumption.
  - intros ev d w1. apply mirror_projected.
Qed.

End Histories.


Lemma no_overcount_empty : no_overcount empty_db.
Proof.
  assert (Hnone : ∀ f, tally f (onChainEvent empty_db) = 0) by (intros f; reflexivity).
  unfold no_overcount, lagging. rewrite !Hnone. cbn. lia.
Qed.


Lemma scenario_completed :
  completed default_config scenario_chain no_abi fresh_world
            (pass default_config scenario_chain no_abi fresh_world).
Proof.
  apply completed_pass; [apply completed_start | vm_compute; reflexivity].
Qed.

Lemma cut_world_history :
  history default_config scenario_chain no_abi fresh_world
          (pass default_config scenario_chain no_abi cut_world).
Proof. apply history_pass, history_cut, history_start. Qed.

(** A registration whose projection was cut short stays uncounted: the next
    pass finds its key in the ledger and skips it. After the cut and two
    more passes, the registration of block 107 is in the ledger, the voter
    table has no row for it and [totalVoters] is 0. *)
Lemma cut_projection_is_not_repaired :
  let w := passes default_config scenario_chain no_abi 2 cut_world in
  snd (catchUpOnce default_config scenario_chain no_abi cut_world) = Ok tt ∧
  eventName <$> onChainEvent (db w) !! ("0xt2", 0) = Some "VoterRegistered" ∧
  voter (db w) = ∅ ∧
  totalVoters (snapshot_or_default (db w)) = 0 ∧
  contractSyncState (db w) = Some 128.
Proof. vm_compute. repeat split. Qed.


Lemma counters_never_overcount_witness :
  no_overcount (db (pass default_config scenario_chain no_abi cut_world)).
Proof.
  apply (counters_never_overcount default_config scenario_chain no_abi fresh_world).
  - apply no_overcount_empty.
  - apply cut_world_history.
Defined.


Lemma completed_passes_consistent_witness :
  consistent (db (pass default_config scenario_chain no_abi fresh_world)).
Proof.
  apply (completed_passes_consistent default_config scenario_chain no_abi fresh_world).
  - apply consistent_empty.
  - apply scenario_completed.
Defined.

Lemma completed_passes_tallied_witness :
  tallied (db (pass default_config scenario_chain no_abi fresh_world)).
Proof.
  apply (completed_passes_tallied default_config scenario_chain no_abi fresh_world).
  - apply tallied_empty.
  - apply scenario_completed.
Defined.

Lemma completed_passes_mirror_ledger_witness :
  reflects_ledger (db (pass default_config scenario_chain no_abi fresh_world)).
Proof.
  apply (completed_passes_mirror_ledger default_config scenario_chain no_abi
           fresh_world).
  - apply reflects_ledger_empty.
  - apply scenario_completed.
Defined.

(** ** Cut passes and the cursor *)

Lemma advancing_prefix obs : ∀ c c' w j,
  contractSyncState (db w) = c → advancing c obs c' →
  advancing c (take j obs)
            (contractSyncState (db (after_steps (take j obs) w))).
Proof.
  induction obs as [|o obs IH]; intros c c' w j Hc Hadv.
  - rewrite take_nil. cbn. exact Hc.
  - destruct j as [|j]; [cbn; exact Hc |].
    cbn [take after_steps fold_left].
    fold (after_steps (take j obs) (after_step w o)).
    destruct o as [r|ms|d]; cbn [advancing] in *.
    + apply (IH c c'); [exact Hc | exact Hadv].
    + apply (IH c c'); [exact Hc | exact Hadv].
    + destruct Hadv as [Hle Hadv]. split; [exact Hle |].
      apply (IH _ c'); [reflexivity | exact Hadv].
Qed.

Lemma cursor_le_trans a b c : cursor_le a b → cursor_le b c → cursor_le a c.
Proof. destruct a, b, c; cbn; try tauto; lia. Qed.

Lemma advancing_from obs : ∀ c c' j d,
  advancing c obs c' → nth_error obs j = Some (Wrote d) →
  cursor_le c (contractSyncState d).
Proof.
  induction obs as [|o obs IH]; intros c c' j d Hadv Hj; [destruct j; discriminate |].
  destruct j as [|j]; cbn in Hj.
  - injection Hj as ->. destruct Hadv as [Hle _]. exact Hle.
  - destruct o as [r|ms|d0]; cbn [advancing] in Hadv;
      try (eapply IH; eassumption).
    destruct Hadv as [Hle Hadv]. eapply cursor_le_trans; [exact Hle |].
    eapply IH; eassumption.
Qed.

(** In a trace with a cursor that never decreases, a later database never
    shows a smaller cursor than an earlier one. *)
Lemma advancing_order obs : ∀ c c' i j di dj,
  advancing c obs c' → (i < j)%nat →
  nth_error obs i = Some (Wrote di) → nth_error obs j = Some (Wrote dj) →
  cursor_le (contractSyncState di) (contractSyncState dj).
Proof.
  induction obs as [|o obs IH]; intros c c' i j di dj Hadv Hij Hi Hj;
    [destruct i; discriminate |].
  destruct j as [|j]; [lia |]. cbn in Hj. destruct i as [|i]; cbn in Hi.
  - injection Hi as ->. destruct Hadv as [_ Hadv].
    eapply advancing_from; eassumption.
  - destruct o as [r|ms|d0]; cbn [advancing] in Hadv;
      try (eapply (IH c c' i j); try eassumption; lia).
    destruct Hadv as [_ Hadv]. eapply (IH _ c' i j); try eassumption; lia.
Qed.

Lemma seen_cursor w k c :
  contractSyncState <$> seen w k = Some c →
  ∃ d, nth_error (trace w) k = Some (Wrote d) ∧ contractSyncState d = c.
Proof.
  unfold seen. destruct (nth_error (trace w) k) as [[r|ms|d]|]; cbn;
    try discriminate.
  intros [= <-]. exists d. split; reflexivity.
Qed.

Section CutPasses.

Variable cfg : Config.
Variable chain : Chain.
Variable parseLog : list string → string → ParseOutcome.

Lemma stopped_advances j w :
  1 ≤ MAX_LOG_BLOCK_RANGE cfg → advances w (stopped cfg chain parseLog j w).
Proof.
  intros Hwidth.
  destruct (catchUpOnce_advances cfg chain parseLog w Hwidth) as (obs & Ht & Hadv).
  assert (Hsteps : steps_of_pass cfg chain parseLog w = obs).
  { unfold steps_of_pass. rewrite Ht. apply drop_app_length. }
  unfold stopped. rewrite Hsteps. exists (take j obs).
  split; [apply after_steps_trace |].
  eapply advancing_prefix; [reflexivity | exact Hadv].
Qed.

Lemma history_advances w0 w :
  1 ≤ MAX_LOG_BLOCK_RANGE cfg → history cfg chain parseLog w0 w → advances w0 w.
Proof.
  intros Hwidth. induction 1 as [|w _ IH|w j _ IH]; [apply advances_refl | |].
  - eapply advances_trans; [exact IH | apply catchUpOnce_advances, Hwidth].
  - eapply advances_trans; [exact IH | apply stopped_advances, Hwidth].
Qed.

End CutPasses.

(** ** The cursor, pass after pass *)

Section CursorClaim.

Variable cfg : Config.
Variable chain : Chain.
Variable parseLog : list string → string → ParseOutcome.

(** C3 (as the code has it). Passes run one after the other, each to its
    end or cut short after any number of its steps. With a range width of at
    least 1 the cursor seen along such a run never decreases, whatever the
    RPC endpoint answers. The cursor write itself checks nothing: given a
    cursor row it stores any block, also a smaller one, and raises no
    error. *)
Theorem cursor_never_decreases (w0 w : World) :
  1 ≤ MAX_LOG_BLOCK_RANGE cfg →
  history cfg chain parseLog w0 w →
  advances w0 w ∧
  ∀ c toBlock,
    contractSyncState (db w) = Some c →
    contractSyncState_update toBlock w =
    (fst (write (set_contractSyncState (Some toBlock)) w), Ok tt).
Proof.
  intros Hwidth Hrun. split; [apply (history_advances cfg chain parseLog); assumption |].
  intros c toBlock Hc. unfold contractSyncState_update. rewrite Hc. reflexivity.
Qed.

End CursorClaim.

Lemma cursor_never_decreases_witness :
  advances fresh_world (pass default_config scenario_chain no_abi cut_world) ∧
  contractSyncState_update 5 (pass default_config scenario_chain no_abi cut_world) =
  (fst (write (set_contractSyncState (Some 5))
          (pass default_config scenario_chain no_abi cut_world)), Ok tt).
Proof.
  destruct (cursor_never_decreases default_config scenario_chain no_abi fresh_world
              (pass default_config scenario_chain no_abi cut_world))
    as [Hadv Hwrite]; [simpl; lia | apply cut_world_history |].
  split; [exact Hadv |]. apply (Hwrite 128). vm_compute. reflexivity.
Defined.

(** [resume_pass] is the code of the loop: a turn of the loop is what is
    left of it before the first attempt, and a rate-limited attempt that may
    be retried leaves, after its sleep, what is left before the next one. *)
Lemma catchUp_loop_resume cfg chain parseLog fuel fromBlock safeLatest w :
  fromBlock ≤ safeLatest →
  catchUp_loop cfg chain parseLog (S fuel) fromBlock safeLatest w =
  resume_pass cfg chain parseLog (Z.to_nat (RPC_MAX_RETRIES cfg)) fuel 0
              fromBlock safeLatest w.
Proof.
  intros Hgo. cbn [catchUp_loop].
  replace (fromBlock <=? safeLatest) with true by (symmetry; apply Z.leb_le, Hgo).
  reflexivity.
Qed.

Lemma resume_pass_retry cfg chain parseLog retries fuel attempt fromBlock
    safeLatest w e :
  let toBlock := Z.min (fromBlock + MAX_LOG_BLOCK_RANGE cfg - 1) safeLatest in
  queryFilter chain (rpc_calls w) fromBlock toBlock = inl e →
  isRateLimitError e = true → attempt < RPC_MAX_RETRIES cfg →
  resume_pass cfg chain parseLog (S retries) fuel attempt fromBlock safeLatest w =
  resume_pass cfg chain parseLog retries fuel (attempt + 1) fromBlock safeLatest
    (after_steps [Called (ReqLogs fromBlock toBlock); Slept (waitMs cfg attempt)] w).
Proof.
  intros toBlock Hq Hrate Hleft. unfold resume_pass. fold toBlock.
  unfold bind at 1 3. cbn [withRetry_loop]. unfold rpc at 1. rewrite Hq, Hrate.
  replace (RPC_MAX_RETRIES cfg <=? attempt) with false
    by (symmetry; apply Z.leb_gt, Hleft).
  reflexivity.
Qed.

(** Passes that overlap are another matter: the timer of [onModuleInit]
    starts a pass every 15 seconds whether or not the previous one has
    ended. The first pass alone is [resume_pass] after [asleep_world]; with
    the second pass run in between, the second pass leaves the cursor at
    128 and the first one, once awake, stores 109. *)
Lemma overlapping_pass_moves_cursor_back :
  catchUpOnce default_config busy_chain no_abi seeded_world =
  resume_pass default_config busy_chain no_abi 4 28 4 100 128 asleep_world ∧
  snd (catchUpOnce default_config busy_chain no_abi asleep_world) = Ok tt ∧
  contractSyncState <$> seen overlapped_world 26 = Some (Some 128) ∧
  contractSyncState <$> seen overlapped_world 29 = Some (Some 109) ∧
  ¬ advances seeded_world overlapped_world.
Proof.
  assert (H26 : contractSyncState <$> seen overlapped_world 26 = Some (Some 128))
    by (vm_compute; reflexivity).
  assert (H29 : contractSyncState <$> seen overlapped_world 29 = Some (Some 109))
    by (vm_compute; reflexivity).
  split; [vm_compute; reflexivity |]. split; [vm_compute; reflexivity |].
  split; [exact H26 |]. split; [exact H29 |].
  intros (obs & Ht & Hadv). change (trace seeded_world ++ obs) with obs in Ht.
  subst obs.
  apply seen_cursor in H26 as (d26 & E26 & C26).
  apply seen_cursor in H29 as (d29 & E29 & C29).
  pose proof (advancing_order _ _ _ 26 29 d26 d29 Hadv ltac:(lia) E26 E29) as Hle.
  rewrite C26, C29 in Hle. cbn in Hle. lia.
Qed.

(** ** The writes of a range and its cursor write *)

(** C8 (as the code has it). Within one range, when the store answers every
    call: the writes before the cursor write are, for each log whose key is
    new and in the order of the logs, its ledger row followed by the writes
    of its projection, and nothing else; each of them shows the old cursor;
    the cursor write comes last, on the database that the last of them
    left. By then every entry of the range is in the ledger, and the
    counters of the snapshot count the recorded events and the tables
    mirror the ledger if they did so before the range. Each of those writes
    is visible to readers when it is made; a range that stops after any
    number of them leaves the old cursor. *)
Theorem cursor_commit_is_last
    (parseLog : list string → string → ParseOutcome) (logs : list Log)
    (toBlock c : Z) (w : World) :
  contractSyncState (db w) = Some c →
  ∃ w1 obs,
    forLogs parseLog logs w = (w1, Ok tt) ∧
    trace w1 = trace w ++ obs ∧
    obs = Wrote <$> range_dbs parseLog logs (db w) ∧
    db w1 = List.last (range_dbs parseLog logs (db w)) (db w) ∧
    Forall (keeps_cursor (Some c)) obs ∧
    (∀ j, contractSyncState (db (after_steps (take j obs) w)) = Some c) ∧
    Forall (recorded (db w1)) logs ∧
    (tallied (db w) → tallied (db w1)) ∧
    (reflects_ledger (db w) → reflects_ledger (db w1)) ∧
    indexRange parseLog logs toBlock w =
    ({| db := set_contractSyncState (Some toBlock) (db w1);
        rpc_calls := rpc_calls w;
        trace := trace w ++ obs ++
                 [Wrote (set_contractSyncState (Some toBlock) (db w1))] |},
     Ok tt).
Proof.
  intros Hc.
  destruct (forLogs_quiet parseLog logs w)
    as (w1 & Hrun & (Hcalls & Hc1 & obs & Ht & Hall) & _ & Hrec).
  assert (Hw1 : w1 = fst (forLogs parseLog logs w)) by (rewrite Hrun; reflexivity).
  exists w1, obs. split; [exact Hrun |]. split; [exact Ht |].
  pose proof (forLogs_steps parseLog logs w) as Hsteps.
  rewrite Hrun in Hsteps. injection Hsteps as Hsteps.
  split.
  { rewrite Hsteps, after_steps_trace in Ht.
    apply app_inv_head in Ht. symmetry. exact Ht. }
  split; [rewrite Hsteps, after_steps_writes; reflexivity |].
  split; [rewrite <- Hc; exact Hall |].
  split.
  { intros j.
    apply (after_steps_shows (fun d => contractSyncState d = Some c)); [exact Hc |].
    apply Forall_take. rewrite Hc in Hall.
    eapply Forall_impl; [exact Hall |].
    intros [r|ms|d] Ho; cbn in *; solve [exact I | exact Ho]. }
  split; [exact Hrec |].
  split; [intros Hd; rewrite Hw1; apply forLogs_keeps;
          [apply tallied_projected | exact Hd] |].
  split; [intros Hd; rewrite Hw1; apply forLogs_keeps;
          [apply mirror_projected | exact Hd] |].
  unfold indexRange, bind. rewrite Hrun. unfold contractSyncState_update.
  rewrite Hc1, Hc. unfold write. rewrite Ht, Hcalls, <- app_assoc. reflexivity.
Qed.

Lemma tallied_seeded : tallied (db seeded_world).
Proof. split; reflexivity. Qed.

(** In the scenario: seven writes (the ledger row, the snapshot row and the
    stage of the first event; the ledger row, the snapshot row, the voter
    row and the counter of the second) come before the cursor write, and by
    then [totalVoters] counts the registration. *)
Lemma cursor_commit_is_last_witness :
  ∃ w1 obs,
    forLogs no_abi scenario_logs seeded_world = (w1, Ok tt) ∧
    obs = Wrote <$> range_dbs no_abi scenario_logs (db seeded_world) ∧
    length obs = 7%nat ∧
    Forall (keeps_cursor (Some 99)) obs ∧
    tallied (db w1) ∧
    totalVoters (snapshot_or_default (db w1)) = 1 ∧
    trace (fst (indexRange no_abi scenario_logs 109 seeded_world)) =
    obs ++ [Wrote (set_contractSyncState (Some 109) (db w1))].
Proof.
  destruct (cursor_commit_is_last no_abi scenario_logs 109 99 seeded_world)
    as (w1 & obs & Hrun & _ & Hobs & _ & Hall & _ & _ & Htally & _ & Hrange);
    [reflexivity |].
  exists w1, obs. split; [exact Hrun |]. split; [exact Hobs |].
  split; [rewrite Hobs; vm_compute; reflexivity |]. split; [exact Hall |].
  split; [apply Htally, tallied_seeded |].
  split; [| rewrite Hrange; reflexivity].
  replace w1 with (fst (forLogs no_abi scenario_logs seeded_world))
    by (rewrite Hrun; reflexivity).
  vm_compute. reflexivity.
Defined.

(** ** Decoded positions, and the end of a pass *)

(** X1. Positional fields survive decoding. For a log whose arguments
    ethers delivers under the keys "0", "1", ... (fewer than 2^32 of them),
    [decodeLog] keeps the fragment name (or "UnknownEvent" for an empty
    one), and [getArg], asked for one of the field names of the projection
    and the position [i], returns the text of the [i]-th value (such an
    object has no named field): nothing is lost or shifted, and a position
    past the end reads as [undefined]. *)
Theorem positional_round_trip (parseLog : list string → string → ParseOutcome)
    (bn : Z) (tx : string) (idx : Z) (kind : string) (values : list ArgValue)
    (name : string) (i : nat) :
  Z.of_nat (length values) < 2 ^ 32 →
  name ∈ projection_fields →
  let decoded := decodeLog parseLog (event_log bn tx idx kind values) in
  fst decoded = or_unknown kind ∧
  getArg (snd decoded) name (N.of_nat i) = arg_text <$> values !! i.
Proof.
  intros Hlen _ decoded. split; [reflexivity |].
  unfold decoded, decodeLog, event_log. cbn [body snd]. unfold collect_args.
  fold (index_keys 0 (length values)).
  destruct (fold_collect_positional values 0 no_args) as [Hnamed Hpos];
    [simpl; lia |].
  set (a := fold_left collect_arg (zip (index_keys 0 (length values)) values) no_args) in *.
  unfold getArg, attach_positional.
  assert (Hlook : positional a !! N.of_nat i = arg_text <$> values !! i).
  { rewrite Hpos. rewrite decide_True by lia. rewrite Nat.sub_0_r.
    destruct (values !! i); reflexivity. }
  destruct (bool_decide (positional a = ∅)); simpl; rewrite Hnamed; simpl.
  - rewrite lookup_empty. exact Hlook.
  - rewrite delete_empty, lookup_empty. exact Hlook.
Qed.

Lemma positional_round_trip_witness :
  fst (decodeLog no_abi (event_log 107 "0xt2" 0 "VoterRegistered"
                           [ArgText alice; ArgBigInt 1])) = "VoterRegistered" ∧
  getArg (snd (decodeLog no_abi (event_log 107 "0xt2" 0 "VoterRegistered"
                                   [ArgText alice; ArgBigInt 1])))
         "weight" 1 = Some "1".
Proof.
  apply (positional_round_trip no_abi 107 "0xt2" 0 "VoterRegistered"
           [ArgText alice; ArgBigInt 1] "weight" 1).
  - vm_compute. reflexivity.
  - unfold projection_fields. repeat constructor.
Defined.

Section PassEnds.

Variable cfg : Config.
Variable chain : Chain.
Variable parseLog : list string → string → ParseOutcome.


End PassEnds.


(** White space around a number is any [StrWhiteSpaceChar]: the key and the
    [limit] parameter U+00A0 "7" are the number 7. *)
Lemma nbsp_seven_is_seven :
  StringToNumber nbsp_seven = of_Z 7 ∧
  events_limit (Some nbsp_seven) = of_Z 7 ∧
  getArg (collect_args [(nbsp_seven, ArgText alice)]) "voter" 7 = Some alice.
Proof. vm_compute. repeat split. Qed.
